(** * The bare-metal CSI controller: volume lifecycle over a declarative store

    A shallow embedding of [pkg/controller/controller.go].  The controller
    keeps no durable state of its own: every request reads and writes
    [Volume] and [AvailableCapacity] custom resources through the Kubernetes
    client and talks to one volume manager (agent) per node.

    The embedding threads an explicit [State] (the resources held by the API
    server, the faults the API server is about to raise, the log of client
    and agent calls, the detached goroutines) through a small state monad.
    Go [error] results are values; a Go panic is an [Outcome].

    Covered: [CreateVolume], [DeleteVolume], [createLocalVolume],
    [waitVCRStatus], [changeVolumeStatus], [searchAvailableCapacity],
    [acNodeMapping], [constructAvailableCapacityCR], the five store
    wrappers, and the initialisation ([InitController],
    [updateCommunicators], [updateAvailableCapacityCRs], [getPods]).  Left
    out: the RPCs that answer [Unimplemented] or an empty envelope.
    Requests run one at a time; the only concurrency is the background task
    of [CreateVolume], which runs during its polls. *)

From stdpp Require Import base gmap strings list fin_maps.
From Stdlib Require Import ZArith.

Local Open Scope string_scope.
Local Open Scope Z_scope.

(** ** Errors and status codes *)

(** The gRPC codes the controller uses ([google.golang.org/grpc/codes]). *)
Inductive Code :=
| OK | Unknown | InvalidArgument | DeadlineExceeded | ResourceExhausted
| Aborted | Unimplemented | Internal.

#[global] Instance Code_eq_dec : EqDecision Code.
Proof. solve_decision. Defined.

(** Go [error] values returned by the RPC handlers: either built by
    [status.Error]/[status.Errorf] with a code, or a plain error built by
    [fmt.Errorf]/[errors.New]. *)
Inductive Error :=
| StatusError (code : Code) (msg : string)
| PlainError (msg : string).

(** [status.Code(err)]: a plain error carries no status and is reported to
    the RPC peer as [Unknown]. *)
Definition status_Code (e : Error) : Code :=
  match e with
  | StatusError code _ => code
  | PlainError _ => Unknown
  end.

(** Errors of the Kubernetes client; [IsNotFound] is the only distinction
    the controller draws. *)
Inductive K8sError :=
| NotFound
| AlreadyExists
| ServerError (msg : string).

Definition IsNotFound (e : K8sError) : bool :=
  match e with NotFound => true | _ => false end.

Definition K8sError_text (e : K8sError) : string :=
  match e with
  | NotFound => "not found"
  | AlreadyExists => "already exists"
  | ServerError msg => msg
  end.

Inductive Panic := IndexOutOfRange | NilDereference.

(** What a handler call ends in. *)
Inductive Outcome (A : Type) :=
| Returned (a : A)
| Failed (e : Error)
| Panicked (p : Panic).
Arguments Returned {A} a.
Arguments Failed {A} e.
Arguments Panicked {A} p.

(** ** Constants *)

Definition NodeIDTopologyKey : string := "baremetal-csi/nodeid".
Definition VolumeStatusAnnotationKey : string := "dell.emc.csi/volume-status".
(** [CreateLocalVolumeRequestTimeout = 300 * time.Second]; time is counted
    in whole seconds. *)
Definition CreateLocalVolumeRequestTimeout : nat := 300.
(** [math.MaxInt64] *)
Definition MaxInt64 : Z := 9223372036854775807.

(** ** Generated API types *)

(** Modelled from the spec: the generated enum [api.OperationalStatus] is
    not part of the sources; its enumerators are the five statuses the data
    model lists, and [OperationalStatus_name] gives their textual form. *)
Inductive OperationalStatus :=
| OperationalStatus_Creating
| OperationalStatus_Created
| OperationalStatus_FailedToCreate
| OperationalStatus_Removing
| OperationalStatus_Removed.

#[global] Instance OperationalStatus_eq_dec : EqDecision OperationalStatus.
Proof. solve_decision. Defined.

Definition OperationalStatus_name (s : OperationalStatus) : string :=
  match s with
  | OperationalStatus_Creating => "Creating"
  | OperationalStatus_Created => "Created"
  | OperationalStatus_FailedToCreate => "FailedToCreate"
  | OperationalStatus_Removing => "Removing"
  | OperationalStatus_Removed => "Removed"
  end.

(** Modelled from the spec: the generated enum [api.StorageClass]; the
    controller only ever names [StorageClass_ANY]. *)
Inductive StorageClass :=
| StorageClass_ANY
| StorageClass_tag (n : Z).

(** [api.AvailableCapacity] *)
Record api_AvailableCapacity := {
  ac_Size : Z;
  ac_Type : StorageClass;
  ac_Location : string;
  ac_NodeId : string;
}.

(** [api.Volume] *)
Record api_Volume := {
  vol_Id : string;
  vol_Owner : string;
  vol_Size : Z;
  vol_Location : string;
  vol_Status : OperationalStatus;
}.

Record TypeMeta := { Kind : string; APIVersion : string }.

(** [Annotations] is a Go map: [None] is the nil map. *)
Record ObjectMeta := {
  Name : string;
  Namespace : string;
  Annotations : option (gmap string string);
}.

(** [accrd.AvailableCapacity] *)
Record AvailableCapacity := {
  ac_TypeMeta : TypeMeta;
  ac_ObjectMeta : ObjectMeta;
  ac_Spec : api_AvailableCapacity;
}.

(** [volumecrd.Volume] *)
Record Volume := {
  vol_TypeMeta : TypeMeta;
  vol_ObjectMeta : ObjectMeta;
  vol_Spec : api_Volume;
}.

(** The zero values [&volumecrd.Volume{}] and [&accrd.AvailableCapacity{}].
    The zero status is never observed: every use overwrites the object or
    its status first. *)
Definition TypeMeta_zero : TypeMeta := {| Kind := ""; APIVersion := "" |}.
Definition ObjectMeta_zero : ObjectMeta :=
  {| Name := ""; Namespace := ""; Annotations := None |}.
Definition Volume_zero : Volume :=
  {| vol_TypeMeta := TypeMeta_zero;
     vol_ObjectMeta := ObjectMeta_zero;
     vol_Spec := {| vol_Id := ""; vol_Owner := ""; vol_Size := 0;
                    vol_Location := "";
                    vol_Status := OperationalStatus_Creating |} |}.

(** [api.CreateLocalVolumeRequest] *)
Record CreateLocalVolumeRequest := {
  clv_PvcUUID : string;
  clv_Capacity : Z;
  clv_Sc : string;
  clv_Location : string;
}.

(** [api.DeleteLocalVolumeRequest] *)
Record DeleteLocalVolumeRequest := { dlv_PvcUUID : string }.

(** [api.DeleteLocalVolumeResponse]; [dlv_Volume] is a pointer. *)
Record DeleteLocalVolumeResponse := {
  dlv_Ok : bool;
  dlv_Volume : option api_Volume;
}.

(** ** CSI request and response envelopes *)

Record CapacityRange := { RequiredBytes : Z; LimitBytes : Z }.

Record Topology := { Segments : gmap string string }.

Record TopologyRequirement := {
  Requisite : list Topology;
  Preferred : list Topology;
}.

(** The capabilities themselves are never inspected. *)
Record VolumeCapability := { AccessMode : Z }.

(** Pointer and slice fields are options: [None] is nil. *)
Record CreateVolumeRequest := {
  req_Name : string;
  req_CapacityRange : option CapacityRange;
  req_VolumeCapabilities : option (list VolumeCapability);
  req_Parameters : gmap string string;
  req_AccessibilityRequirements : option TopologyRequirement;
}.

Record csi_Volume := {
  CapacityBytes : Z;
  VolumeId : string;
  VolumeContext : gmap string string;
  AccessibleTopology : list Topology;
}.

Record CreateVolumeResponse := { resp_Volume : csi_Volume }.

Record DeleteVolumeRequest := { del_VolumeId : string }.

Record DeleteVolumeResponse := {}.

(** [GetRequiredBytes] on a possibly nil range. *)
Definition GetRequiredBytes (r : option CapacityRange) : Z :=
  match r with Some cr => RequiredBytes cr | None => 0 end.

(** A Go map read: the zero value when the key is missing. *)
Definition map_index (m : gmap string string) (k : string) : string :=
  default "" (m !! k).

(** ** The node agents *)

(** What an agent does with a request: how many seconds it takes, and the
    answer it then gives (a transport or agent error, or a response). *)
Record Reply (A : Type) := { elapsed : nat; answer : string + A }.
Arguments elapsed {A} _.
Arguments answer {A} _.

(** A call under [context.WithTimeout]: the deadline wins over an answer
    that has not arrived by then. *)
Definition invoke {A} (timeout : nat) (r : Reply A) : string + A :=
  if (timeout <=? elapsed r)%nat then inl "context deadline exceeded"
  else answer r.

(** [err == nil] *)
Definition answered {A} (r : string + A) : bool :=
  match r with inr _ => true | inl _ => false end.

(** [api.VolumeManagerClient], the part the lifecycle calls use. *)
Record VolumeManagerClient := {
  CreateLocalVolume : CreateLocalVolumeRequest → Reply unit;
  DeleteLocalVolume : DeleteLocalVolumeRequest → Reply DeleteLocalVolumeResponse;
}.

(** ** The object store behind the Kubernetes client *)

Inductive Object :=
| ObjVolume (v : Volume)
| ObjAvailableCapacity (a : AvailableCapacity).

(** Namespace and name. *)
Abbreviation ObjectKey := (string * string)%type.

(** One entry per call that left the controller, with whether it succeeded. *)
Inductive Call :=
| CallGet (key : ObjectKey)
| CallList (ns : string)
| CallCreate (o : Object)
| CallUpdate (o : Object)
| CallDelete (o : Object)
| CallCreateLocalVolume (node : string) (timeout : nat) (r : CreateLocalVolumeRequest)
| CallDeleteLocalVolume (node : string) (timeout : nat) (r : DeleteLocalVolumeRequest).

Record Entry := Ev { ev_call : Call; ev_ok : bool }.

(** A detached [go c.createLocalVolume(req, ac)] and the seconds left
    until its agent call is over. *)
Record Goroutine := {
  go_after : nat;
  go_req : CreateVolumeRequest;
  go_ac : AvailableCapacity;
}.

Record State := {
  volumes : gmap ObjectKey Volume;
  capacities : gmap ObjectKey AvailableCapacity;
  (** what the API server answers to the coming client calls: [Some msg]
      fails the call with a server error, [None] (and the empty list) lets
      it through *)
  faults : list (option string);
  (** newest first *)
  calls : list Entry;
  goroutines : list Goroutine;
}.

Definition set_volumes (m : gmap ObjectKey Volume) (s : State) : State :=
  {| volumes := m; capacities := capacities s; faults := faults s;
     calls := calls s; goroutines := goroutines s |}.
Definition set_capacities (m : gmap ObjectKey AvailableCapacity) (s : State) : State :=
  {| volumes := volumes s; capacities := m; faults := faults s;
     calls := calls s; goroutines := goroutines s |}.
Definition set_faults (f : list (option string)) (s : State) : State :=
  {| volumes := volumes s; capacities := capacities s; faults := f;
     calls := calls s; goroutines := goroutines s |}.
Definition set_calls (l : list Entry) (s : State) : State :=
  {| volumes := volumes s; capacities := capacities s; faults := faults s;
     calls := l; goroutines := goroutines s |}.
Definition set_goroutines (g : list Goroutine) (s : State) : State :=
  {| volumes := volumes s; capacities := capacities s; faults := faults s;
     calls := calls s; goroutines := g |}.

(** ** The state monad *)

Definition M (A : Type) : Type := State → A * State.

#[global] Instance M_ret : MRet M := λ A a s, (a, s).
#[global] Instance M_bind : MBind M :=
  λ A B f m s, let '(a, s') := m s in f a s'.

Definition logCall (c : Call) (ok : bool) : M unit :=
  λ s, (tt, set_calls (Ev c ok :: calls s) s).

(** The API server's verdict on the next call. *)
Definition nextFault : M (option K8sError) :=
  λ s, match faults s with
       | [] => (None, s)
       | f :: rest => (ServerError <$> f, set_faults rest s)
       end.

(** [runtime.Object]: the two resource kinds the controller stores. *)
Class Resource (T : Type) := {
  meta : T → ObjectMeta;
  toObject : T → Object;
  collection : State → gmap ObjectKey T;
  set_collection : gmap ObjectKey T → State → State;
}.

#[global] Instance Volume_Resource : Resource Volume := {|
  meta := vol_ObjectMeta;
  toObject := ObjVolume;
  collection := volumes;
  set_collection := set_volumes;
|}.

#[global] Instance AvailableCapacity_Resource : Resource AvailableCapacity := {|
  meta := ac_ObjectMeta;
  toObject := ObjAvailableCapacity;
  collection := capacities;
  set_collection := set_capacities;
|}.

Definition keyOf `{Resource T} (obj : T) : ObjectKey :=
  (Namespace (meta obj), Name (meta obj)).

(** Modelled from the spec: the client of the declarative store
    ([k8sClient.Client]) is an external collaborator, described in §4.1 as
    typed Read/List/Create/Update/Delete with a distinguishable not-found
    signal.  [Get] reads the resource stored under [key]. *)
Definition client_Get `{Resource T} (key : ObjectKey) : M (K8sError + T) :=
  f ← nextFault;
  match f with
  | Some e => _ ← logCall (CallGet key) false; mret (inl e)
  | None =>
      λ s, match collection s !! key with
           | Some obj => (_ ← logCall (CallGet key) true; mret (inr obj)) s
           | None => (_ ← logCall (CallGet key) false; mret (inl NotFound)) s
           end
  end.

(** Modelled from the spec: [List], the resources of a namespace. *)
Definition client_List `{Resource T} (ns : string) : M (K8sError + list T) :=
  f ← nextFault;
  match f with
  | Some e => _ ← logCall (CallList ns) false; mret (inl e)
  | None =>
      λ s, (_ ← logCall (CallList ns) true;
            mret (inr (filter (λ kv, kv.1.1 = ns) (map_to_list (collection s))).*2)) s
  end.

(** Modelled from the spec: [Create] stores a resource under its own
    namespace and name, and fails when one is there already. *)
Definition client_Create `{Resource T} (obj : T) : M (option K8sError) :=
  f ← nextFault;
  match f with
  | Some e => _ ← logCall (CallCreate (toObject obj)) false; mret (Some e)
  | None =>
      λ s, match collection s !! keyOf obj with
           | Some _ => (_ ← logCall (CallCreate (toObject obj)) false;
                        mret (Some AlreadyExists)) s
           | None => (_ ← logCall (CallCreate (toObject obj)) true; mret None)
                       (set_collection (<[keyOf obj := obj]> (collection s)) s)
           end
  end.

(** Modelled from the spec: [Update] replaces the resource stored under
    the namespace and name of [obj], and fails when there is none. *)
Definition client_Update `{Resource T} (obj : T) : M (option K8sError) :=
  f ← nextFault;
  match f with
  | Some e => _ ← logCall (CallUpdate (toObject obj)) false; mret (Some e)
  | None =>
      λ s, match collection s !! keyOf obj with
           | None => (_ ← logCall (CallUpdate (toObject obj)) false;
                      mret (Some NotFound)) s
           | Some _ => (_ ← logCall (CallUpdate (toObject obj)) true; mret None)
                         (set_collection (<[keyOf obj := obj]> (collection s)) s)
           end
  end.

(** Modelled from the spec: [Delete] removes the resource stored under
    the namespace and name of [obj], and fails when there is none. *)
Definition client_Delete `{Resource T} (obj : T) : M (option K8sError) :=
  f ← nextFault;
  match f with
  | Some e => _ ← logCall (CallDelete (toObject obj)) false; mret (Some e)
  | None =>
      λ s, match collection s !! keyOf obj with
           | None => (_ ← logCall (CallDelete (toObject obj)) false;
                      mret (Some NotFound)) s
           | Some _ => (_ ← logCall (CallDelete (toObject obj)) true; mret None)
                         (set_collection (delete (keyOf obj) (collection s)) s)
           end
  end.

(** ** Strings *)

(** [strings.ToLower] belongs to Go's standard library, not to these
    sources: it maps every Unicode letter of a string to its lower case.
    The controller below takes it as the variable [ToLower], so whatever is
    proved of the controller holds of it with the library's function.  On a
    string of ASCII bytes the library lowers the letters [A] to [Z] and
    leaves the rest, which is [lowerASCII]; the fixtures use it on such
    strings only. *)
Definition lower_ascii (a : Ascii.ascii) : Ascii.ascii :=
  let n := Ascii.nat_of_ascii a in
  if ((65 <=? n) && (n <=? 90))%nat then Ascii.ascii_of_nat (n + 32) else a.

Fixpoint lowerASCII (s : string) : string :=
  match s with
  | EmptyString => EmptyString
  | String a rest => String (lower_ascii a) (lowerASCII rest)
  end.

(** ** The controller service *)

(** [CSIControllerService]; the two mutexes serialise what this sequential
    embedding already runs one step at a time. *)
Record CSIControllerService := {
  namespace : string;
  communicators : gmap string VolumeManagerClient;
}.

(** The caller's [context.Context]: the whole seconds left until it is
    done.  [waitVCRStatus] gets that many one-second polls. *)
Record Context := { deadline : nat }.

Definition WithTimeout (ctx : Context) (timeout : nat) : nat :=
  Nat.min (deadline ctx) timeout.

Section Controller.

(** The receiver. *)
Variable c : CSIControllerService.

(** The order in which a Go [range] visits the node map; Go leaves it
    unspecified, so nothing below depends on it. *)
Variable mapRange :
  gmap string (list AvailableCapacity) → list (string * list AvailableCapacity).

(** [strings.ToLower] *)
Variable ToLower : string → string.

(** *** Typed store access *)

(** [CreateCR]: [Get] fills [obj] when the resource is already there, and
    that counts as created. *)
Definition CreateCR `{Resource T} (obj : T) (name : string) : M (option K8sError * T) :=
  r ← client_Get (namespace c, name);
  match r with
  | inr found => mret (None, found)
  | inl err =>
      if IsNotFound err then
        e ← client_Create obj; mret (e, obj)
      else mret (Some err, obj)
  end.

Definition ReadCR `{Resource T} (name : string) : M (K8sError + T) :=
  client_Get (namespace c, name).

Definition ReadList `{Resource T} : M (K8sError + list T) :=
  client_List (namespace c).

Definition UpdateCR `{Resource T} (obj : T) : M (option K8sError) :=
  client_Update obj.

Definition DeleteCR `{Resource T} (obj : T) : M (option K8sError) :=
  client_Delete obj.

Definition constructAvailableCapacityCR (name : string) (ac : api_AvailableCapacity)
  : AvailableCapacity :=
  {| ac_TypeMeta := {| Kind := "AvailableCapacity";
                       APIVersion := "availablecapacity.dell.com/v1" |};
     ac_ObjectMeta := {| Name := name; Namespace := namespace c;
                         Annotations := None |};
     ac_Spec := ac |}.

(** *** The scheduler *)

(** [acNodeMapping]: the capacities grouped by node, each group in the
    order of the list. *)
Definition acNodeMapping (acs : list AvailableCapacity)
  : gmap string (list AvailableCapacity) :=
  fold_left
    (λ acNodeMap ac,
       let node := ac_NodeId (ac_Spec ac) in
       <[node := (default [] (acNodeMap !! node) ++ [ac])%list]> acNodeMap)
    acs ∅.

(** The first loop of [searchAvailableCapacity]: the node with the most
    capacities, the first such in the order of the range. *)
Definition mostCapacities (acNodeMap : gmap string (list AvailableCapacity)) : string :=
  fst (fold_left
         (λ '(preferredNode, maxLen) '(nodeID, acs),
            if (maxLen <? length acs)%nat then (nodeID, length acs)
            else (preferredNode, maxLen))
         (mapRange acNodeMap) ("", 0%nat)).

(** The second loop: [allocatedCapacity] starts at [math.MaxInt64] and
    [foundAC] at nil. *)
Definition bestFit (acs : list AvailableCapacity) (requiredBytes : Z)
  : option AvailableCapacity :=
  snd (fold_left
         (λ '(allocatedCapacity, foundAC) ac,
            if (ac_Size (ac_Spec ac) <? allocatedCapacity)
               && (requiredBytes <=? ac_Size (ac_Spec ac))
            then (ac_Size (ac_Spec ac), Some ac)
            else (allocatedCapacity, foundAC))
         acs (MaxInt64, None)).

Definition searchAvailableCapacity (preferredNode : string) (requiredBytes : Z)
  : M (option AvailableCapacity) :=
  r ← ReadList;
  match r with
  | inl _ => mret None
  | inr items =>
      let acNodeMap := acNodeMapping items in
      let preferredNode :=
        if decide (preferredNode = "") then mostCapacities acNodeMap
        else preferredNode in
      mret (bestFit (default [] (acNodeMap !! preferredNode)) requiredBytes)
  end.

(** *** changeVolumeStatus *)

(** The read loop: up to [attempts] reads, [v] keeps its value while they
    fail.  The half-second sleeps between attempts are not counted. *)
Fixpoint readAttempts (attempts : nat) (volumeID : string) (v : Volume) : M Volume :=
  match attempts with
  | O => mret v
  | S n =>
      r ← ReadCR volumeID;
      match r with
      | inr v' => mret v'
      | inl _ => readAttempts n volumeID v
      end
  end.

(** The update loop: [true] when an update went through. *)
Fixpoint updateAttempts (attempts : nat) (v : Volume) : M bool :=
  match attempts with
  | O => mret false
  | S n =>
      e ← UpdateCR v;
      match e with
      | None => mret true
      | Some _ => updateAttempts n v
      end
  end.

Definition setStatus (newStatus : OperationalStatus) (v : Volume) : Volume :=
  let annotations := default ∅ (Annotations (vol_ObjectMeta v)) in
  {| vol_TypeMeta := vol_TypeMeta v;
     vol_ObjectMeta :=
       {| Name := Name (vol_ObjectMeta v);
          Namespace := Namespace (vol_ObjectMeta v);
          Annotations :=
            Some (<[VolumeStatusAnnotationKey := OperationalStatus_name newStatus]>
                    annotations) |};
     vol_Spec :=
       {| vol_Id := vol_Id (vol_Spec v); vol_Owner := vol_Owner (vol_Spec v);
          vol_Size := vol_Size (vol_Spec v);
          vol_Location := vol_Location (vol_Spec v);
          vol_Status := newStatus |} |}.

Definition changeVolumeStatus (volumeID : string) (newStatus : OperationalStatus)
  : M (option Error) :=
  let newStatusStr := OperationalStatus_name newStatus in
  let attempts := 10%nat in
  v ← readAttempts attempts volumeID Volume_zero;
  let v := setStatus newStatus v in
  updated ← updateAttempts attempts v;
  if updated : bool then mret None
  else mret (Some (PlainError ("unable to persist status to " +:+ newStatusStr
                               +:+ " for volume " +:+ volumeID))).

(** *** The background task *)

Definition createLocalVolumeRequest (req : CreateVolumeRequest) (ac : AvailableCapacity)
  : CreateLocalVolumeRequest :=
  {| clv_PvcUUID := req_Name req;
     clv_Capacity := GetRequiredBytes (req_CapacityRange req);
     clv_Sc := "hdd";
     clv_Location := ac_Location (ac_Spec ac) |}.

(** [createLocalVolume]; calling a communicator the map does not hold is a
    call on a nil interface.  The error of [changeVolumeStatus] is only
    logged. *)
Definition createLocalVolume (req : CreateVolumeRequest) (ac : AvailableCapacity)
  : M (option Panic) :=
  let clvReq := createLocalVolumeRequest req ac in
  let node := ac_NodeId (ac_Spec ac) in
  match communicators c !! node with
  | None => mret (Some NilDereference)
  | Some mgr =>
      let r := invoke CreateLocalVolumeRequestTimeout (CreateLocalVolume mgr clvReq) in
      _ ← logCall (CallCreateLocalVolume node CreateLocalVolumeRequestTimeout clvReq)
                  (answered r);
      let newStatus :=
        match r with
        | inl _ => OperationalStatus_FailedToCreate
        | inr _ => OperationalStatus_Created
        end in
      _ ← changeVolumeStatus (clv_PvcUUID clvReq) newStatus;
      mret None
  end.

(** [go c.createLocalVolume(req, ac)]: the task is over once its agent
    call is, after the agent's time or the timeout, whichever is less. *)
Definition spawn (req : CreateVolumeRequest) (ac : AvailableCapacity) : M unit :=
  let after :=
    match communicators c !! ac_NodeId (ac_Spec ac) with
    | None => 0%nat
    | Some mgr =>
        Nat.min (elapsed (CreateLocalVolume mgr (createLocalVolumeRequest req ac)))
                CreateLocalVolumeRequestTimeout
    end in
  λ s, (tt, set_goroutines
              (goroutines s ++ [{| go_after := after; go_req := req; go_ac := ac |}])%list s).

(** One second goes by: the tasks that are due run, the others are a
    second closer.  A panic in a goroutine ends the process. *)
Fixpoint runDue (tasks : list Goroutine) : M (option Panic * list Goroutine) :=
  match tasks with
  | [] => mret (None, [])
  | g :: rest =>
      match go_after g with
      | O =>
          p ← createLocalVolume (go_req g) (go_ac g);
          match p with
          | Some p => mret (Some p, rest)
          | None => runDue rest
          end
      | S n =>
          '(p, rest') ← runDue rest;
          mret (p, {| go_after := n; go_req := go_req g; go_ac := go_ac g |} :: rest')
      end
  end.

Definition sleepSecond : M (option Panic) :=
  λ s,
    let '((p, rest), s') := runDue (goroutines s) (set_goroutines [] s) in
    (p, set_goroutines (rest ++ goroutines s')%list s').

(** *** waitVCRStatus *)

(** Each round waits a second and then reads the volume; the result is
    [(true, Some s)] for the first of [statuses] the volume is in, and
    [(false, None)], the source's [(false, -1)], once the context is done.
    A failed read is retried on the next round. *)
Fixpoint waitVCRStatus (polls : nat) (volumeID : string)
    (statuses : list OperationalStatus)
  : M (Panic + bool * option OperationalStatus) :=
  match polls with
  | O => mret (inr (false, None))
  | S n =>
      p ← sleepSecond;
      match p with
      | Some p => mret (inl p)
      | None =>
          r ← ReadCR volumeID;
          match r with
          | inl _ => waitVCRStatus n volumeID statuses
          | inr v =>
              match find (λ s, bool_decide (vol_Status (vol_Spec v) = s)) statuses with
              | Some s => mret (inr (true, Some s))
              | None => waitVCRStatus n volumeID statuses
              end
          end
      end
  end.

(** *** CreateVolume *)

(** [req.GetAccessibilityRequirements().Preferred[0].Segments[NodeIDTopologyKey]],
    evaluated only when the requirements are there. *)
Definition preferredNodeOf (req : CreateVolumeRequest) : Panic + string :=
  match req_AccessibilityRequirements req with
  | None => inr ""
  | Some ar =>
      match Preferred ar with
      | [] => inl IndexOutOfRange
      | t :: _ => inr (map_index (Segments t) NodeIDTopologyKey)
      end
  end.

(** The record written for a fresh request. *)
Definition newVolumeCR (reqName : string) (ac : AvailableCapacity) : Volume :=
  {| vol_TypeMeta := {| Kind := "Volume"; APIVersion := "volume.dell.com/v1" |};
     vol_ObjectMeta :=
       {| Name := reqName; Namespace := "default";
          Annotations :=
            Some {[ VolumeStatusAnnotationKey :=
                      OperationalStatus_name OperationalStatus_Creating ]} |};
     vol_Spec :=
       {| vol_Id := reqName;
          vol_Owner := ac_NodeId (ac_Spec ac);
          vol_Size := ac_Size (ac_Spec ac);
          vol_Location := ac_Location (ac_Spec ac);
          vol_Status := OperationalStatus_Creating |} |}.

(** The tail of [CreateVolume], from "Waiting until volume will reach
    Created status" on. *)
Definition awaitCreated (ctx : Context) (req : CreateVolumeRequest) (volumeCR : Volume)
  : M (Outcome CreateVolumeResponse) :=
  w ← waitVCRStatus (deadline ctx) (req_Name req)
        [OperationalStatus_Created; OperationalStatus_FailedToCreate];
  match w with
  | inl p => mret (Panicked p)
  | inr (reached, st) =>
      if reached : bool then
        if decide (st = Some OperationalStatus_FailedToCreate) then
          mret (Failed (StatusError Internal "Unable to create volume on local node."))
        else
          let topologyList :=
            [ {| Segments := {[ NodeIDTopologyKey := vol_Owner (vol_Spec volumeCR) ]} |} ] in
          mret (Returned
                  {| resp_Volume :=
                       {| VolumeId := req_Name req;
                          CapacityBytes := vol_Size (vol_Spec volumeCR);
                          VolumeContext := req_Parameters req;
                          AccessibleTopology := topologyList |} |})
      else mret (Failed (StatusError Aborted "CreateVolume is in progress"))
  end.

Definition CreateVolume (ctx : Context) (req : CreateVolumeRequest)
  : M (Outcome CreateVolumeResponse) :=
  if decide (req_Name req = "") then
    mret (Failed (StatusError InvalidArgument "Volume name missing in request"))
  else if decide (req_VolumeCapabilities req = None) then
    mret (Failed (StatusError InvalidArgument "Volume capabilities missing in request"))
  else
    let reqName := req_Name req in
    r ← ReadCR reqName;
    match r with
    | inr volumeCR => awaitCreated ctx req volumeCR
    | inl err =>
        if negb (IsNotFound err) then
          mret (Failed (StatusError Aborted "unable to check volume existence"))
        else
          let requiredBytes := GetRequiredBytes (req_CapacityRange req) in
          match preferredNodeOf req with
          | inl p => mret (Panicked p)
          | inr preferredNode =>
              found ← searchAvailableCapacity preferredNode requiredBytes;
              match found with
              | None =>
                  mret (Failed (StatusError ResourceExhausted
                                  ("there is no suitable drive for request "
                                   +:+ req_Name req)))
              | Some ac =>
                  '(e, volumeCR) ← CreateCR (newVolumeCR reqName ac) reqName;
                  match e with
                  | Some _ =>
                      mret (Failed (StatusError Internal "unable to create volume CR"))
                  | None =>
                      _ ← DeleteCR ac;
                      _ ← spawn req ac;
                      awaitCreated ctx req volumeCR
                  end
              end
          end
    end.

(** *** DeleteVolume *)

Definition DeleteVolume (ctx : Context) (req : DeleteVolumeRequest)
  : M (Outcome DeleteVolumeResponse) :=
  if decide (del_VolumeId req = "") then
    mret (Failed (StatusError InvalidArgument "Volume ID must be provided"))
  else
    let ctxT := WithTimeout ctx CreateLocalVolumeRequestTimeout in
    r ← ReadCR (del_VolumeId req);
    match r with
    | inl err =>
        if IsNotFound err then mret (Returned Build_DeleteVolumeResponse)
        else mret (Failed (PlainError ("unable to find volume with ID "
                                       +:+ del_VolumeId req)))
    | inr volume =>
        let node := vol_Owner (vol_Spec volume) in
        match communicators c !! node with
        | None => mret (Panicked NilDereference)
        | Some mgr =>
            let dlvReq := {| dlv_PvcUUID := del_VolumeId req |} in
            let r := invoke ctxT (DeleteLocalVolume mgr dlvReq) in
            _ ← logCall (CallDeleteLocalVolume node ctxT dlvReq) (answered r);
            match r with
            | inl _ =>
                mret (Failed (StatusError Internal
                                ("unable to delete volume on node " +:+ node)))
            | inr resp =>
                if negb (dlv_Ok resp) then
                  mret (Failed (StatusError Internal
                                  "response for delete local volume is not ok"))
                else
                  match dlv_Volume resp with
                  | None =>
                      mret (Failed (StatusError Internal
                                      "Unable to delete volume from node"))
                  | Some localVolume =>
                      e ← DeleteCR volume;
                      match e with
                      | Some err =>
                          mret (Failed (StatusError Internal
                                          ("can't delete volume CR: "
                                           +:+ K8sError_text err)))
                      | None =>
                          let ac := {| ac_Size := vol_Size localVolume;
                                       ac_Type := StorageClass_ANY;
                                       ac_Location := vol_Location localVolume;
                                       ac_NodeId := node |} in
                          let location := ToLower (vol_Location localVolume) in
                          let name := node +:+ "-" +:+ location in
                          let cr := constructAvailableCapacityCR name ac in
                          _ ← CreateCR cr name;
                          mret (Returned Build_DeleteVolumeResponse)
                      end
                  end
            end
        end
    end.

End Controller.

(** ** Initialisation *)

Definition NodeSvcPodsMask : string := "baremetal-csi-node".

(** [api.AvailableCapacityRequest] *)
Record AvailableCapacityRequest := { acr_NodeId : string }.

(** [coreV1.Pod], the fields the controller reads: [ObjectMeta.Name],
    [ObjectMeta.Namespace], [Spec.NodeName], [Status.PodIP]. *)
Record Pod := {
  pod_Name : string;
  pod_Namespace : string;
  pod_NodeName : string;
  pod_PodIP : string;
}.

(** [strings.Contains] *)
Fixpoint Contains (s substr : string) : bool :=
  if String.prefix substr s then true
  else match s with
       | EmptyString => false
       | String _ rest => Contains rest substr
       end.

(** [NewControllerService]: no communicator yet. *)
Definition NewControllerService (namespace : string) : CSIControllerService :=
  {| namespace := namespace; communicators := ∅ |}.

Section Initialisation.

(** The receiver. *)
Variable c : CSIControllerService.

(** [strings.ToLower] *)
Variable ToLower : string → string.

(** [GetAvailableCapacity], the third method of [api.VolumeManagerClient]:
    the free disks an agent reports for its node.  These calls are not
    entered in the log of calls. *)
Variable GetAvailableCapacity :
  VolumeManagerClient → AvailableCapacityRequest → Reply (list api_AvailableCapacity).

(** The order in which a Go [range] visits the communicators. *)
Variable communicatorsRange :
  gmap string VolumeManagerClient → list (string * VolumeManagerClient).

(** The body of the inner loop of [updateAvailableCapacityCRs] for one
    reported capacity; [wasError] goes in and comes out. *)
Definition addCapacity (ac : api_AvailableCapacity) (wasError : bool) : M bool :=
  let name := ac_NodeId ac +:+ "-" +:+ ToLower (ac_Location ac) in
  r ← ReadCR c (T:=AvailableCapacity) name;
  match r with
  | inr _ => mret wasError
  | inl err =>
      if IsNotFound err then
        let newAC := constructAvailableCapacityCR c name ac in
        '(e, _) ← CreateCR c newAC name;
        match e with
        | Some _ => mret true
        | None => mret wasError
        end
      else mret true
  end.

Fixpoint addCapacities (availableCapacity : list api_AvailableCapacity) (wasError : bool)
  : M bool :=
  match availableCapacity with
  | [] => mret wasError
  | ac :: rest => w ← addCapacity ac wasError; addCapacities rest w
  end.

(** The outer loop: one [GetAvailableCapacity] per communicator, all under
    the one deadline of [ctx], of which [remaining] seconds are left.  A
    failed call sets [wasError] and reports nothing (the getter of a nil
    response gives nil). *)
Fixpoint updateNodes (nodes : list (string * VolumeManagerClient)) (remaining : nat)
    (wasError : bool) : M bool :=
  match nodes with
  | [] => mret wasError
  | (nodeID, mgr) :: rest =>
      let reply := GetAvailableCapacity mgr {| acr_NodeId := nodeID |} in
      let '(availableCapacity, wasError) :=
        match invoke remaining reply with
        | inl _ => ([], true)
        | inr response => (response, wasError)
        end in
      w ← addCapacities availableCapacity wasError;
      updateNodes rest (remaining - elapsed reply) w
  end.

Definition updateAvailableCapacityCRs (ctx : Context) : M (option Error) :=
  wasError ← updateNodes (communicatorsRange (communicators c)) (deadline ctx) false;
  if wasError : bool then
    mret (Some (PlainError "not all available capacity were created"))
  else mret None.

(** The pods the API server holds, in the order its list gives them.
    Pods are not part of [State]; [getPods] lists them directly through the
    client, so the call takes the API server's next verdict. *)
Variable clusterPods : list Pod.

Definition getPods (mask : string) : M (K8sError + list Pod) :=
  f ← nextFault;
  match f with
  | Some e => _ ← logCall (CallList (namespace c)) false; mret (inl e)
  | None =>
      _ ← logCall (CallList (namespace c)) true;
      mret (inr (filter (λ pod, Contains (pod_Name pod) mask = true)
                   (filter (λ pod, pod_Namespace pod = namespace c) clusterPods)))
  end.

(** [base.NewClient] followed by [api.NewVolumeManagerClient]: the client
    for an endpoint, or the error of the dial.  The constant
    [base.DefaultVolumeManagerPort] is taken by its decimal text. *)
Variable NewClient : string → string + VolumeManagerClient.
Variable DefaultVolumeManagerPort : string.

(** The loop of [updateCommunicators] over the pods found. *)
Definition addCommunicators (pods : list Pod)
    (communicators : gmap string VolumeManagerClient)
  : gmap string VolumeManagerClient :=
  fold_left
    (λ communicators pod,
       let endpoint := "tcp://" +:+ pod_PodIP pod +:+ ":" +:+ DefaultVolumeManagerPort in
       match NewClient endpoint with
       | inl _ => communicators
       | inr client => <[pod_NodeName pod := client]> communicators
       end)
    pods communicators.

(** [updateCommunicators] changes the map of the receiver: the result is
    the error and the receiver afterwards. *)
Definition updateCommunicators : M (option Error * CSIControllerService) :=
  r ← getPods NodeSvcPodsMask;
  match r with
  | inl err => mret (Some (PlainError (K8sError_text err)), c)
  | inr pods =>
      let communicators := addCommunicators pods (communicators c) in
      let c' := {| namespace := namespace c; communicators := communicators |} in
      if decide (size communicators = 0%nat) then
        mret (Some (PlainError "unable to initialize communicators"), c')
      else mret (None, c')
  end.

End Initialisation.

(** [InitController]: the communicators, then the capacities under a
    deadline of 240 seconds. *)
Definition InitController (c : CSIControllerService) (ToLower : string → string)
    (GetAvailableCapacity :
       VolumeManagerClient → AvailableCapacityRequest → Reply (list api_AvailableCapacity))
    (communicatorsRange :
       gmap string VolumeManagerClient → list (string * VolumeManagerClient))
    (clusterPods : list Pod) (NewClient : string → string + VolumeManagerClient)
    (DefaultVolumeManagerPort : string)
  : M (option Error * CSIControllerService) :=
  '(e, c') ← updateCommunicators c clusterPods NewClient DefaultVolumeManagerPort;
  match e with
  | Some err =>
      mret (Some (PlainError ("unable to initialize communicators for node services: "
                              +:+ match err with
                                  | PlainError msg | StatusError _ msg => msg
                                  end)), c')
  | None =>
      let ctx := {| deadline := 240 |} in
      e ← updateAvailableCapacityCRs c' ToLower GetAvailableCapacity communicatorsRange ctx;
      match e with
      | Some err =>
          mret (Some (PlainError ("unable to initialize available capacity: "
                                  +:+ match err with
                                      | PlainError msg | StatusError _ msg => msg
                                      end)), c')
      | None => mret (None, c')
      end
  end.

Arguments CreateCR c {T _} obj name.
Arguments ReadCR c {T _} name.
Arguments ReadList c {T _}.

(** * Vocabulary of the properties *)

(** A relation between the state before and after a step that every step
    of a computation keeps. *)
Definition Preserves (R : relation State) {A} (m : M A) : Prop :=
  ∀ s, R s (m s).2.


(** The request passes validation, no volume of its name is found, and
    the preferred node is read without a panic: the run reaches the call
    of [searchAvailableCapacity], in state [afterRead]. *)
Definition afterRead (c : CSIControllerService) (req : CreateVolumeRequest) (s : State)
  : State :=
  (ReadCR c (T:=Volume) (req_Name req) s).2.

Definition reachesScheduling (c : CSIControllerService) (req : CreateVolumeRequest)
    (s : State) (preferredNode : string) : Prop :=
  req_Name req ≠ "" ∧
  req_VolumeCapabilities req ≠ None ∧
  (ReadCR c (T:=Volume) (req_Name req) s).1 = inl NotFound ∧
  preferredNodeOf req = inr preferredNode.

(** The state in which [CreateVolume] hands the new record to the store:
    after the read of the volume and the scheduler's list. *)
Definition afterSearch (c : CSIControllerService)
    (mapRange : gmap string (list AvailableCapacity) → list (string * list AvailableCapacity))
    (req : CreateVolumeRequest) (s : State) (preferredNode : string) : State :=
  (searchAvailableCapacity c mapRange preferredNode
     (GetRequiredBytes (req_CapacityRange req)) (afterRead c req s)).2.

(** The store takes a new volume record: the API server serves the two
    calls [CreateCR] makes for it, a read and a create, and no volume is
    stored under the record's own namespace and name. *)
Definition storeAccepts (v : Volume) (s : State) : Prop :=
  match faults s with
  | Some _ :: _ => False
  | None :: Some _ :: _ => False
  | _ => True
  end ∧
  volumes s !! keyOf v = None.

(** The error [CreateVolume] gives when no capacity fits. *)
Definition noSuitableDrive (req : CreateVolumeRequest) : Error :=
  StatusError ResourceExhausted
    ("there is no suitable drive for request " +:+ req_Name req).

(** * Fixtures

    A one-node cluster in the namespace ["default"]: two free disks on
    [node-a], an agent that takes two seconds to create a volume. *)

Definition agentA : VolumeManagerClient :=
  {| CreateLocalVolume := λ _, {| elapsed := 2; answer := inr tt |};
     DeleteLocalVolume := λ r,
       {| elapsed := 1;
          answer := inr {| dlv_Ok := true;
                           dlv_Volume :=
                             Some {| vol_Id := dlv_PvcUUID r; vol_Owner := "node-a";
                                     vol_Size := 50; vol_Location := "SN1";
                                     vol_Status := OperationalStatus_Created |} |} |} |}.

Definition controllerA : CSIControllerService :=
  {| namespace := "default"; communicators := {[ "node-a" := agentA ]} |}.

Definition capacityOf (node location : string) (size : Z) : AvailableCapacity :=
  constructAvailableCapacityCR controllerA (node +:+ "-" +:+ lowerASCII location)
    {| ac_Size := size; ac_Type := StorageClass_ANY;
       ac_Location := location; ac_NodeId := node |}.

Definition storeOf (acs : list AvailableCapacity) (fs : list (option string)) : State :=
  {| volumes := ∅;
     capacities := list_to_map ((λ a, (keyOf a, a)) <$> acs);
     faults := fs; calls := []; goroutines := [] |}.

Definition twoDisks : State :=
  storeOf [capacityOf "node-a" "SN1" 50; capacityOf "node-a" "SN2" 100] [].

Definition emptyStore : State := storeOf [] [].

Definition mapOrder (m : gmap string (list AvailableCapacity)) := map_to_list m.

Definition requestFor (name : string) (required : Z) (ar : option TopologyRequirement)
  : CreateVolumeRequest :=
  {| req_Name := name;
     req_CapacityRange := Some {| RequiredBytes := required; LimitBytes := 0 |};
     req_VolumeCapabilities := Some [];
     req_Parameters := ∅;
     req_AccessibilityRequirements := ar |}.

Definition tenSeconds : Context := {| deadline := 10 |}.

Definition faultyStore : State :=
  storeOf [capacityOf "node-a" "SN1" 50] [Some "connection refused"].

(** The API server fails the second call, the list of capacities. *)
Definition listFaultStore : State :=
  storeOf [capacityOf "node-a" "SN1" 50] [None; Some "connection refused"].

(** The node the scheduler settles on. *)
Definition chosenNode
    (mapRange : gmap string (list AvailableCapacity) → list (string * list AvailableCapacity))
    (preferredNode : string) (items : list AvailableCapacity) : string :=
  if decide (preferredNode = "") then mostCapacities mapRange (acNodeMapping items)
  else preferredNode.

Definition onNode (node : string) (ac : AvailableCapacity) : Prop :=
  ac_NodeId (ac_Spec ac) = node.

#[global] Instance onNode_dec node ac : Decision (onNode node ac).
Proof. unfold onNode. apply _. Defined.

Definition sizeOf (ac : AvailableCapacity) : Z := ac_Size (ac_Spec ac).

(** What the second loop has found after a prefix of the capacities. *)
Definition bestFitStep (requiredBytes : Z)
    (st : Z * option AvailableCapacity) (ac : AvailableCapacity)
  : Z * option AvailableCapacity :=
  let '(allocatedCapacity, foundAC) := st in
  if (ac_Size (ac_Spec ac) <? allocatedCapacity)
     && (requiredBytes <=? ac_Size (ac_Spec ac))
  then (ac_Size (ac_Spec ac), Some ac)
  else (allocatedCapacity, foundAC).

Definition bestFitInv (requiredBytes : Z) (seen : list AvailableCapacity)
    (st : Z * option AvailableCapacity) : Prop :=
  match st.2 with
  | None =>
      st.1 = MaxInt64 ∧
      ∀ x, x ∈ seen → ¬ (requiredBytes ≤ sizeOf x < MaxInt64)
  | Some ac =>
      st.1 = sizeOf ac ∧ ac ∈ seen ∧ requiredBytes ≤ sizeOf ac < MaxInt64 ∧
      ∀ x, x ∈ seen → requiredBytes ≤ sizeOf x → sizeOf ac ≤ sizeOf x
  end.


(** One free disk whose size is the largest an [int64] holds. *)
Definition hugeDisk : State :=
  storeOf [capacityOf "node-a" "SN1" MaxInt64] [].

(** The status annotation of a volume is the text of its status. *)
Definition volumeInSync (v : Volume) : Prop :=
  ∃ annotations,
    Annotations (vol_ObjectMeta v) = Some annotations ∧
    annotations !! VolumeStatusAnnotationKey
    = Some (OperationalStatus_name (vol_Status (vol_Spec v))).

(** The volume a call hands to the store to be written, if any. *)
Definition writtenVolume (e : Entry) : option Volume :=
  match ev_call e with
  | CallCreate (ObjVolume v) | CallUpdate (ObjVolume v) => Some v
  | _ => None
  end.

Definition entryInSync (e : Entry) : Prop :=
  ∀ v, writtenVolume e = Some v → volumeInSync v.

(** [s'] comes after [s]: the log has grown, and every volume written in
    between had its annotation in step with its status. *)
Definition Sync : relation State :=
  λ s s', ∃ l, calls s' = (l ++ calls s)%list ∧ Forall entryInSync l.

(** The resources and the detached tasks are the same in both states. *)
Definition SameStore : relation State :=
  λ s s', volumes s' = volumes s ∧ capacities s' = capacities s ∧
          goroutines s' = goroutines s.

(** [twoDisks] once ["v1"] has reserved the 50-byte disk. *)
Definition reservedStore : State :=
  {| volumes := {[ ("default", "v1") := newVolumeCR "v1" (capacityOf "node-a" "SN1" 50) ]};
     capacities := list_to_map [(keyOf (capacityOf "node-a" "SN2" 100),
                                 capacityOf "node-a" "SN2" 100)];
     faults := []; calls := []; goroutines := [] |}.

(** ** The data model of the store *)

(** Every volume is stored under its own namespace and name. *)
Definition volumesKeyed (s : State) : Prop :=
  ∀ k v, volumes s !! k = Some v → keyOf v = k.

(** Every capacity is stored under its own namespace and name, and the
    name is [node_id + "-" + lowercase(location)]. *)
Definition capacitiesKeyed (ToLower : string → string) (s : State) : Prop :=
  ∀ k a, capacities s !! k = Some a →
    keyOf a = k ∧
    Name (ac_ObjectMeta a)
    = ac_NodeId (ac_Spec a) +:+ "-" +:+ ToLower (ac_Location (ac_Spec a)).

(** What a status change leaves alone: where the volume is stored, its
    owner, its size, its location. *)
Definition identity (v : Volume) : ObjectKey * string * Z * string :=
  (keyOf v, vol_Owner (vol_Spec v), vol_Size (vol_Spec v), vol_Location (vol_Spec v)).

(** What the background tasks and the polls do to the store: nothing to
    the capacities, and a named volume of the later state was there
    before, with the same identity. *)
Definition Background : relation State :=
  λ s s',
    capacities s' = capacities s ∧
    (volumesKeyed s →
     volumesKeyed s' ∧
     ∀ k v', k.2 ≠ "" → volumes s' !! k = Some v' →
             ∃ v, volumes s !! k = Some v ∧ identity v' = identity v).

(** The two sets of capacities hold the same keys with the same sizes. *)
Definition sameCapacities (s s' : State) : Prop :=
  ∀ k, sizeOf <$> capacities s' !! k = sizeOf <$> capacities s !! k.

(** The agent's answer to [DeleteLocalVolume] carries the size and the
    location recorded for the volume, those of the disk it reserved. *)
Definition agentReportsDisk (c : CSIControllerService) (name : string) (s : State) : Prop :=
  ∀ v mgr resp localVolume,
    volumes s !! (namespace c, name) = Some v →
    communicators c !! vol_Owner (vol_Spec v) = Some mgr →
    answer (DeleteLocalVolume mgr {| dlv_PvcUUID := name |}) = inr resp →
    dlv_Volume resp = Some localVolume →
    vol_Size localVolume = vol_Size (vol_Spec v) ∧
    vol_Location localVolume = vol_Location (vol_Spec v).

(** The last call that left the controller succeeded. *)
Definition lastCallOk (s : State) : Prop :=
  match calls s with
  | e :: _ => ev_ok e = true
  | [] => False
  end.

(** The round trip with no condition on the store: whenever
    [CreateVolume] and then [DeleteVolume] succeed for a name and the agent
    reports the disk, the capacities are those of the start, key by key
    and size by size. *)
Definition roundTrip (c : CSIControllerService) (ToLower : string → string)
    (mapRange : gmap string (list AvailableCapacity) → list (string * list AvailableCapacity))
    (ctx ctx' : Context) (req : CreateVolumeRequest) (s : State) : Prop :=
  let created := CreateVolume c mapRange ctx req s in
  let deleted := DeleteVolume c ToLower ctx' {| del_VolumeId := req_Name req |} created.2 in
  ∀ resp resp',
    created.1 = Returned resp →
    deleted.1 = Returned resp' →
    agentReportsDisk c (req_Name req) created.2 →
    sameCapacities s deleted.2.

(** ["v1"] is already there, created on the 50-byte disk of [node-a]. *)
Definition createdStore : State :=
  {| volumes :=
       {[ ("default", "v1") :=
            setStatus OperationalStatus_Created
              (newVolumeCR "v1" (capacityOf "node-a" "SN1" 50)) ]};
     capacities := list_to_map [(keyOf (capacityOf "node-a" "SN2" 100),
                                 capacityOf "node-a" "SN2" 100)];
     faults := []; calls := []; goroutines := [] |}.

(** [twoDisks] behind an API server that fails the thirteenth call, the
    read that opens the re-creation of the capacity in [DeleteVolume]. *)
Definition flakyStore : State :=
  storeOf [capacityOf "node-a" "SN1" 50; capacityOf "node-a" "SN2" 100]
    (replicate 12 None ++ [Some "connection refused"])%list.

(** The record of ["v1"] on the 50-byte disk once it is [Created]. *)
Definition createdV1 : Volume :=
  setStatus OperationalStatus_Created (newVolumeCR "v1" (capacityOf "node-a" "SN1" 50)).

(** An agent whose [CreateLocalVolume] fails after a second. *)
Definition agentFailing : VolumeManagerClient :=
  {| CreateLocalVolume := λ _, {| elapsed := 1; answer := inl "no such drive" |};
     DeleteLocalVolume := DeleteLocalVolume agentA |}.

Definition controllerFailing : CSIControllerService :=
  {| namespace := "default"; communicators := {[ "node-a" := agentFailing ]} |}.

(** What is left of a store: the keys of the capacities with their sizes,
    the keys of the volumes with their specs. *)
Definition capacitySizes (s : State) : list (ObjectKey * Z) :=
  prod_map id sizeOf <$> map_to_list (capacities s).

Definition volumeSpecs (s : State) : list (ObjectKey * api_Volume) :=
  prod_map id vol_Spec <$> map_to_list (volumes s).

(** ** The background task *)

(** A detached task for a request and the capacity reserved for it, with
    [after] seconds to go until its agent call is over. *)
Definition pendingTask (after : nat) (req : CreateVolumeRequest) (ac : AvailableCapacity)
  : Goroutine :=
  {| go_after := after; go_req := req; go_ac := ac |}.

(** The agent answers the task's call without error and within the
    timeout. *)
Definition taskInTime (mgr : VolumeManagerClient) (req : CreateVolumeRequest)
    (ac : AvailableCapacity) : bool :=
  let reply := CreateLocalVolume mgr (createLocalVolumeRequest req ac) in
  answered (answer reply) && (elapsed reply <? CreateLocalVolumeRequestTimeout)%nat.


(** The entry the task's agent call leaves in the log. *)
Definition agentEntry (mgr : VolumeManagerClient) (req : CreateVolumeRequest)
    (ac : AvailableCapacity) : Entry :=
  Ev (CallCreateLocalVolume (ac_NodeId (ac_Spec ac)) CreateLocalVolumeRequestTimeout
        (createLocalVolumeRequest req ac))
     (taskInTime mgr req ac).

(** The task is not lost: it is pending, or it has made its agent call. *)
Definition taskTracked (mgr : VolumeManagerClient) (req : CreateVolumeRequest)
    (ac : AvailableCapacity) (s : State) : Prop :=
  (∃ after, pendingTask after req ac ∈ goroutines s) ∨
  agentEntry mgr req ac ∈ calls s.

Definition Tracks (mgr : VolumeManagerClient) (req : CreateVolumeRequest)
    (ac : AvailableCapacity) : relation State :=
  λ s s', taskTracked mgr req ac s → taskTracked mgr req ac s'.



(** ** Vocabulary of the further properties *)

(** One round of the first loop of [searchAvailableCapacity]. *)
Definition mostCapacitiesStep (st : string * nat) (entry : string * list AvailableCapacity)
  : string * nat :=
  let '(preferredNode, maxLen) := st in
  let '(nodeID, acs) := entry in
  if (maxLen <? length acs)%nat then (nodeID, length acs) else (preferredNode, maxLen).

(** How many of the coming calls the API server is going to fail. *)
Definition failures (fs : list (option string)) : nat :=
  length (filter (λ f, is_Some f) fs).

(** An API server that fails the next nine calls and then serves. *)
Definition nineFailures : State :=
  {| volumes := volumes reservedStore; capacities := capacities reservedStore;
     faults := replicate 9 (Some "etcd leader changed"); calls := []; goroutines := [] |}.

(** The response [CreateVolume] builds from a volume record. *)
Definition responseFor (req : CreateVolumeRequest) (volumeCR : Volume) : CreateVolumeResponse :=
  {| resp_Volume :=
       {| VolumeId := req_Name req;
          CapacityBytes := vol_Size (vol_Spec volumeCR);
          VolumeContext := req_Parameters req;
          AccessibleTopology :=
            [ {| Segments := {[ NodeIDTopologyKey := vol_Owner (vol_Spec volumeCR) ]} |} ] |} |}.

(** A controller of the namespace ["storage"], with the agent of
    [controllerA]. *)
Definition controllerStorage : CSIControllerService :=
  {| namespace := "storage"; communicators := {[ "node-a" := agentA ]} |}.

(** [twoDisks] laid out in the namespace ["storage"]. *)
Definition storageDisks : State :=
  {| volumes := ∅;
     capacities :=
       list_to_map
         ((λ a, (keyOf a, a)) <$>
            [constructAvailableCapacityCR controllerStorage "node-a-sn1"
               {| ac_Size := 50; ac_Type := StorageClass_ANY;
                  ac_Location := "SN1"; ac_NodeId := "node-a" |}]);
     faults := []; calls := []; goroutines := [] |}.

(** What the agent confirms to [DeleteVolume]: the volume of an answer
    that came in time, is ok and carries a volume. *)
Definition deletionConfirmed (c : CSIControllerService) (ctx : Context)
    (req : DeleteVolumeRequest) (mgr : VolumeManagerClient) : option api_Volume :=
  match invoke (WithTimeout ctx CreateLocalVolumeRequestTimeout)
          (DeleteLocalVolume mgr {| dlv_PvcUUID := del_VolumeId req |}) with
  | inl _ => None
  | inr resp => if dlv_Ok resp then dlv_Volume resp else None
  end.

(** An agent that answers a deletion with "not ok". *)
Definition agentRefusing : VolumeManagerClient :=
  {| CreateLocalVolume := CreateLocalVolume agentA;
     DeleteLocalVolume := λ _, {| elapsed := 1;
                                  answer := inr {| dlv_Ok := false; dlv_Volume := None |} |} |}.

Definition controllerRefusing : CSIControllerService :=
  {| namespace := "default"; communicators := {[ "node-a" := agentRefusing ]} |}.

(** The name under which a reported capacity is stored. *)
Definition capacityName (ToLower : string → string) (ac : api_AvailableCapacity)
  : string :=
  ac_NodeId ac +:+ "-" +:+ ToLower (ac_Location ac).

(** What initialisation does to the store: no volume and no task changes,
    every capacity stays as it is, and the keying of the capacities is
    kept. *)
Definition Adds (ToLower : string → string) : relation State :=
  λ s s',
    volumes s' = volumes s ∧ goroutines s' = goroutines s ∧
    (∀ k a, capacities s !! k = Some a → capacities s' !! k = Some a) ∧
    (capacitiesKeyed ToLower s → capacitiesKeyed ToLower s').

(** The inventory of the agents of the fixtures: [node-a] reports its two
    disks. *)
Definition inventoryA (mgr : VolumeManagerClient) (r : AvailableCapacityRequest)
  : Reply (list api_AvailableCapacity) :=
  {| elapsed := 1;
     answer := inr [ {| ac_Size := 50; ac_Type := StorageClass_ANY;
                        ac_Location := "SN1"; ac_NodeId := acr_NodeId r |};
                     {| ac_Size := 100; ac_Type := StorageClass_ANY;
                        ac_Location := "SN2"; ac_NodeId := acr_NodeId r |} ] |}.

Definition communicatorsOrder (m : gmap string VolumeManagerClient) := map_to_list m.

(** One agent pod on [node-a], one pod of another kind, one agent pod of
    another namespace. *)
Definition podsA : list Pod :=
  [ {| pod_Name := "baremetal-csi-node-x7k2p"; pod_Namespace := "default";
       pod_NodeName := "node-a"; pod_PodIP := "10.0.0.7" |};
    {| pod_Name := "baremetal-csi-controller-0"; pod_Namespace := "default";
       pod_NodeName := "node-b"; pod_PodIP := "10.0.0.8" |};
    {| pod_Name := "baremetal-csi-node-q1w2e"; pod_Namespace := "kube-system";
       pod_NodeName := "node-c"; pod_PodIP := "10.0.0.9" |} ].

Definition dialA (endpoint : string) : string + VolumeManagerClient := inr agentA.

Definition endpointOf (port : string) (pod : Pod) : string :=
  "tcp://" +:+ pod_PodIP pod +:+ ":" +:+ port.

(** A pod of the node service in the controller's namespace: its name has
    [mask] somewhere inside. *)
Definition named (mask : string) (pod : Pod) : Prop :=
  ∃ pre post, pod_Name pod = pre +:+ mask +:+ post.

Definition agentPod (c : CSIControllerService) (pod : Pod) : Prop :=
  pod_Namespace pod = namespace c ∧ named NodeSvcPodsMask pod.

(** The seconds the agents take to report, one after the other. *)
Definition reportingTime
    (GetAvailableCapacity :
       VolumeManagerClient → AvailableCapacityRequest → Reply (list api_AvailableCapacity))
    (nodes : list (string * VolumeManagerClient)) : nat :=
  sum_list (map (λ node, elapsed (GetAvailableCapacity node.2 {| acr_NodeId := node.1 |}))
              nodes).

(** * Reasoning about runs *)

Lemma bind_run {A B} (m : M A) (f : A → M B) (s : State) :
  (m ≫= f) s = f (m s).1 (m s).2.
Proof. unfold mbind, M_bind. destruct (m s); reflexivity. Qed.

Lemma ret_run {A} (a : A) (s : State) : (mret a : M A) s = (a, s).
Proof. reflexivity. Qed.

Section Preserves.

Context (R : relation State) `{!PreOrder R}.

Lemma Preserves_ret {A} (a : A) : Preserves R (mret a : M A).
Proof. intros s. reflexivity. Qed.

Lemma Preserves_bind {A B} (m : M A) (f : A → M B) :
  Preserves R m → (∀ a, Preserves R (f a)) → Preserves R (m ≫= f).
Proof.
  intros Hm Hf s. rewrite bind_run.
  etransitivity; [apply Hm | apply Hf].
Qed.

End Preserves.

(** Runs one client call on a symbolic state, by cases on the API server's
    verdict and on the presence of the key. *)
Ltac client_cases s :=
  unfold CreateCR, ReadCR, ReadList, UpdateCR, DeleteCR,
    client_Get, client_List, client_Create, client_Update, client_Delete,
    nextFault, logCall;
  rewrite ?bind_run; cbn [fst snd];
  destruct (faults s) as [|[?|] ?]; cbn;
  repeat match goal with
         | |- context [match ?m !! ?k with _ => _ end] => destruct (m !! k) eqn:?; cbn
         end.

(** ** The end-to-end scenarios *)

(** Two free disks of 50 and 100 bytes on [node-a]; a request for 40 bytes
    is created on the 50-byte disk, and the 100-byte disk is what remains. *)
Example scenario_best_fit :
  let r := CreateVolume controllerA mapOrder tenSeconds (requestFor "v1" 40 None) twoDisks in
  (CapacityBytes ∘ resp_Volume <$> (match r.1 with Returned a => Some a | _ => None end))
  = Some 50 ∧
  capacitySizes r.2 = [(("default", "node-a-sn2"), 100)] ∧
  volumeSpecs r.2
  = [(("default", "v1"),
      {| vol_Id := "v1"; vol_Owner := "node-a"; vol_Size := 50; vol_Location := "SN1";
         vol_Status := OperationalStatus_Created |})].
Proof. vm_compute. auto. Qed.

(** Then a request for 60 bytes gets the 100-byte disk, and no capacity
    remains. *)
Example scenario_second_volume :
  let r1 := CreateVolume controllerA mapOrder tenSeconds (requestFor "v1" 40 None) twoDisks in
  let r2 := CreateVolume controllerA mapOrder tenSeconds (requestFor "v2" 60 None) r1.2 in
  (CapacityBytes ∘ resp_Volume <$> (match r2.1 with Returned a => Some a | _ => None end))
  = Some 100 ∧
  capacitySizes r2.2 = [].
Proof. vm_compute. auto. Qed.

(** Nothing fits in an empty store. *)
Example scenario_empty_store :
  (CreateVolume controllerA mapOrder tenSeconds (requestFor "v3" 10 None) emptyStore).1
  = Failed (StatusError ResourceExhausted "there is no suitable drive for request v3").
Proof. vm_compute. reflexivity. Qed.

(** When the agent fails, the volume is left [FailedToCreate], the caller
    gets [Internal], and a following [DeleteVolume] succeeds and puts the
    capacity of the reserved disk back. *)
Example scenario_agent_error :
  let r := CreateVolume controllerFailing mapOrder tenSeconds
             (requestFor "v4" 20 None) twoDisks in
  let d := DeleteVolume controllerFailing lowerASCII tenSeconds {| del_VolumeId := "v4" |} r.2 in
  r.1 = Failed (StatusError Internal "Unable to create volume on local node.") ∧
  (vol_Status ∘ snd <$> volumeSpecs r.2) = [OperationalStatus_FailedToCreate] ∧
  d.1 = Returned Build_DeleteVolumeResponse ∧
  volumeSpecs d.2 = [] ∧
  capacitySizes d.2 = capacitySizes twoDisks.
Proof. vm_compute. auto. Qed.

(** ** Validation comes before any store access (C5) *)

(** C5.  A [CreateVolume] request with an empty name, or with no volume
    capabilities, fails with [InvalidArgument], and the state is the one it
    started from: no resource was read or written, no call left the
    controller. *)
Theorem CreateVolume_validates_first c mapRange ctx req s :
  req_Name req = "" ∨ req_VolumeCapabilities req = None →
  ∃ msg,
    CreateVolume c mapRange ctx req s = (Failed (StatusError InvalidArgument msg), s).
Proof.
  intros Hbad. unfold CreateVolume.
  destruct (decide (req_Name req = "")) as [|Hname]; [eauto|].
  destruct (decide (req_VolumeCapabilities req = None)) as [|Hcaps]; [eauto|].
  destruct Hbad; contradiction.
Qed.

Example CreateVolume_validates_first_witness :
  ∃ msg,
    CreateVolume controllerA mapOrder tenSeconds (requestFor "" 40 None) twoDisks
    = (Failed (StatusError InvalidArgument msg), twoDisks).
Proof.
  apply (CreateVolume_validates_first controllerA mapOrder tenSeconds
           (requestFor "" 40 None) twoDisks).
  left. reflexivity.
Defined.

(** ** The preferred topology entry (C9) *)

(** The only panic of a background task is the call on a missing
    communicator. *)
Lemma createLocalVolume_panic c req ac s p :
  (createLocalVolume c req ac s).1 = Some p → p = NilDereference.
Proof.
  unfold createLocalVolume.
  destruct (communicators c !! ac_NodeId (ac_Spec ac)); cbn.
  - rewrite !bind_run. cbn. discriminate.
  - congruence.
Qed.

Lemma runDue_panic c tasks : ∀ s p,
  (runDue c tasks s).1.1 = Some p → p = NilDereference.
Proof.
  induction tasks as [|g rest IH]; intros s p; cbn.
  - discriminate.
  - destruct (go_after g).
    + rewrite bind_run.
      destruct (createLocalVolume c (go_req g) (go_ac g) s) as [[q|] s'] eqn:E; cbn.
      * intros [= <-]. apply (createLocalVolume_panic c (go_req g) (go_ac g) s).
        rewrite E. reflexivity.
      * apply IH.
    + rewrite bind_run.
      destruct (runDue c rest s) as [[q rest'] s'] eqn:E; cbn.
      intros ->. apply (IH s). rewrite E. reflexivity.
Qed.

Lemma sleepSecond_panic c s p :
  (sleepSecond c s).1 = Some p → p = NilDereference.
Proof.
  unfold sleepSecond.
  destruct (runDue c (goroutines s) (set_goroutines [] s)) as [[q rest] s'] eqn:E; cbn.
  intros ->. apply (runDue_panic c (goroutines s) (set_goroutines [] s)).
  rewrite E. reflexivity.
Qed.

Lemma waitVCRStatus_panic c polls volumeID statuses : ∀ s p,
  (waitVCRStatus c polls volumeID statuses s).1 = inl p → p = NilDereference.
Proof.
  induction polls as [|n IH]; intros s p; cbn.
  - discriminate.
  - rewrite bind_run.
    destruct (sleepSecond c s) as [[q|] s'] eqn:E; cbn.
    + intros [= <-]. apply (sleepSecond_panic c s). rewrite E. reflexivity.
    + rewrite bind_run.
      destruct (ReadCR c volumeID s') as [[e|v] s''] eqn:E'; cbn.
      * apply IH.
      * destruct (find _ statuses); cbn; [discriminate | apply IH].
Qed.

Lemma awaitCreated_panic c ctx req volumeCR s p :
  (awaitCreated c ctx req volumeCR s).1 = Panicked p → p = NilDereference.
Proof.
  unfold awaitCreated. rewrite bind_run.
  destruct (waitVCRStatus c (deadline ctx) (req_Name req) _ s)
    as [[q|[reached st]] s'] eqn:E; cbn.
  - intros [= <-]. eapply waitVCRStatus_panic. rewrite E. reflexivity.
  - destruct reached; [destruct (decide _)|]; discriminate.
Qed.

(** Where an index panic can come from. *)
Lemma CreateVolume_index_panic c mapRange ctx req s :
  (CreateVolume c mapRange ctx req s).1 = Panicked IndexOutOfRange →
  ∃ ar, req_AccessibilityRequirements req = Some ar ∧ Preferred ar = [].
Proof.
  unfold CreateVolume.
  destruct (decide (req_Name req = "")); [discriminate|].
  destruct (decide (req_VolumeCapabilities req = None)); [discriminate|].
  rewrite bind_run.
  destruct (ReadCR c (req_Name req) s) as [[err|volumeCR] s1]; cbn.
  2:{ intros H. apply awaitCreated_panic in H. discriminate. }
  destruct (IsNotFound err); cbn; [|discriminate].
  unfold preferredNodeOf.
  destruct (req_AccessibilityRequirements req) as [ar|]; cbn.
  - destruct (Preferred ar) eqn:Hp; cbn; [eauto|].
    rewrite bind_run. destruct (searchAvailableCapacity _ _ _ _ _).1; cbn; [|discriminate].
    rewrite bind_run. destruct (CreateCR _ _ _ _) as [[[e|] v] s2]; cbn; [discriminate|].
    rewrite !bind_run. intros H. apply awaitCreated_panic in H. discriminate.
  - rewrite bind_run. destruct (searchAvailableCapacity _ _ _ _ _).1; cbn; [|discriminate].
    rewrite bind_run. destruct (CreateCR _ _ _ _) as [[[e|] v] s2]; cbn; [discriminate|].
    rewrite !bind_run. intros H. apply awaitCreated_panic in H. discriminate.
Qed.

(** C9.  [CreateVolume] is not total: there is a request with
    accessibility requirements and an empty [Preferred] list on which it
    panics with an index out of range.  Every request that passes
    validation, finds no volume of its name and has requirements with an
    empty [Preferred] list panics so, and no request panics so unless its
    requirements are present with an empty [Preferred] list. *)
Theorem CreateVolume_preferred_unchecked :
  (∃ c mapRange ctx req s ar,
      req_AccessibilityRequirements req = Some ar ∧ Preferred ar = [] ∧
      (CreateVolume c mapRange ctx req s).1 = Panicked IndexOutOfRange) ∧
  (∀ c mapRange ctx req s ar,
      req_Name req ≠ "" →
      req_VolumeCapabilities req ≠ None →
      (ReadCR c (T:=Volume) (req_Name req) s).1 = inl NotFound →
      req_AccessibilityRequirements req = Some ar →
      Preferred ar = [] →
      (CreateVolume c mapRange ctx req s).1 = Panicked IndexOutOfRange) ∧
  (∀ c mapRange ctx req s,
      (CreateVolume c mapRange ctx req s).1 = Panicked IndexOutOfRange →
      ∃ ar, req_AccessibilityRequirements req = Some ar ∧ Preferred ar = []).
Proof.
  assert (Hall : ∀ c mapRange ctx req s ar,
      req_Name req ≠ "" →
      req_VolumeCapabilities req ≠ None →
      (ReadCR c (T:=Volume) (req_Name req) s).1 = inl NotFound →
      req_AccessibilityRequirements req = Some ar →
      Preferred ar = [] →
      (CreateVolume c mapRange ctx req s).1 = Panicked IndexOutOfRange).
  { intros c mapRange ctx req s ar Hname Hcaps Hread Har Hpref.
    unfold CreateVolume.
    destruct (decide (req_Name req = "")); [contradiction|].
    destruct (decide (req_VolumeCapabilities req = None)); [contradiction|].
    rewrite bind_run, Hread. cbn.
    unfold preferredNodeOf. rewrite Har, Hpref. reflexivity. }
  split; [|split; [exact Hall | exact CreateVolume_index_panic]].
  exists controllerA, mapOrder, tenSeconds,
    (requestFor "v1" 40 (Some {| Requisite := []; Preferred := [] |})), twoDisks,
    {| Requisite := []; Preferred := [] |}.
  split; [reflexivity|]. split; [reflexivity|].
  apply (Hall _ _ _ _ _ {| Requisite := []; Preferred := [] |});
    [discriminate | discriminate | reflexivity | reflexivity | reflexivity].
Qed.

Example CreateVolume_preferred_unchecked_witness :
  (CreateVolume controllerA mapOrder tenSeconds
     (requestFor "v1" 40 (Some {| Requisite := []; Preferred := [] |})) twoDisks).1
  = Panicked IndexOutOfRange.
Proof.
  apply (proj1 (proj2 CreateVolume_preferred_unchecked)
           controllerA mapOrder tenSeconds
           (requestFor "v1" 40 (Some {| Requisite := []; Preferred := [] |}))
           twoDisks {| Requisite := []; Preferred := [] |}).
  - discriminate.
  - discriminate.
  - reflexivity.
  - reflexivity.
  - reflexivity.
Defined.

(** ** Reads *)

(** A read of a volume changes nothing but the log and the pending
    faults, and reports what the store holds. *)
Lemma ReadCR_Volume_spec c name s :
  let r := ReadCR c (T:=Volume) name s in
  volumes r.2 = volumes s ∧ capacities r.2 = capacities s ∧
  goroutines r.2 = goroutines s ∧
  calls r.2 = Ev (CallGet (namespace c, name)) (match r.1 with inr _ => true | inl _ => false end) :: calls s ∧
  match r.1 with
  | inr v => volumes s !! (namespace c, name) = Some v
  | inl NotFound => volumes s !! (namespace c, name) = None
  | inl AlreadyExists => False
  | inl (ServerError msg) => head (faults s) = Some (Some msg)
  end.
Proof.
  client_cases s; repeat split; auto.
Qed.

(** ** A failed read in DeleteVolume (C1) *)

Lemma DeleteVolume_read_error ToLower c ctx req s err :
  del_VolumeId req ≠ "" →
  (ReadCR c (T:=Volume) (del_VolumeId req) s).1 = inl err →
  IsNotFound err = false →
  let r := DeleteVolume c ToLower ctx req s in
  r.1 = Failed (PlainError ("unable to find volume with ID " +:+ del_VolumeId req)) ∧
  volumes r.2 = volumes s ∧ capacities r.2 = capacities s ∧
  calls r.2 = Ev (CallGet (namespace c, del_VolumeId req)) false :: calls s.
Proof.
  intros Hid Hread Hnf.
  pose proof (ReadCR_Volume_spec c (del_VolumeId req) s) as Hspec.
  unfold DeleteVolume.
  destruct (decide (del_VolumeId req = "")); [contradiction|].
  rewrite bind_run.
  destruct (ReadCR c (del_VolumeId req) s) as [r s1]. cbn in *.
  subst r. rewrite Hnf. cbn. tauto.
Qed.

(** C1.  At a [DeleteVolume] for ["v1"] whose read of the volume fails
    with a server error, the handler returns a plain error, not a status
    error: the RPC peer sees the code [Unknown], not [Internal].  The store
    is left as it was. *)
Theorem DeleteVolume_read_error_code ToLower :
  let r := DeleteVolume controllerA ToLower tenSeconds {| del_VolumeId := "v1" |} faultyStore in
  (ReadCR controllerA (T:=Volume) "v1" faultyStore).1
    = inl (ServerError "connection refused") ∧
  r.1 = Failed (PlainError "unable to find volume with ID v1") ∧
  (∀ e, r.1 = Failed e → status_Code e = Unknown ∧ status_Code e ≠ Internal) ∧
  volumes r.2 = volumes faultyStore ∧ capacities r.2 = capacities faultyStore.
Proof.
  cbn zeta.
  destruct (DeleteVolume_read_error ToLower controllerA tenSeconds {| del_VolumeId := "v1" |}
              faultyStore (ServerError "connection refused"))
    as (Hout & Hvol & Hcap & _); [discriminate | reflexivity | reflexivity |].
  split; [reflexivity|]. split; [exact Hout|].
  split; [|split; assumption].
  intros e He. rewrite Hout in He. injection He as <-. cbn. split; [reflexivity|discriminate].
Qed.

(** ** Deleting what is not there (C6) *)

(** No record of ["vX"] exists, but the API server fails the read:
    [DeleteVolume] cannot tell, and returns an error instead of success. *)
Lemma DeleteVolume_absent_read_fault :
  volumes faultyStore !! (namespace controllerA, "vX") = None ∧
  (DeleteVolume controllerA lowerASCII tenSeconds {| del_VolumeId := "vX" |} faultyStore).1
  = Failed (PlainError "unable to find volume with ID vX").
Proof. split; reflexivity. Qed.

(** A served read of a name the store does not hold reports that nothing
    was found. *)
Lemma ReadCR_Volume_absent c name s :
  volumes s !! (namespace c, name) = None →
  head (faults s) = None ∨ head (faults s) = Some None →
  (ReadCR c (T:=Volume) name s).1 = inl NotFound.
Proof.
  intros Habsent Hserved. unfold ReadCR, client_Get, nextFault. rewrite bind_run.
  destruct (faults s) as [|[msg|] rest]; cbn in *.
  - rewrite Habsent. reflexivity.
  - destruct Hserved; discriminate.
  - rewrite Habsent. reflexivity.
Qed.

(** C6, amended.  For every non-empty volume id under which the store
    holds no volume and whose read the API server serves, [DeleteVolume]
    returns success; the volumes and the capacities are what they were,
    and the one call made is the read, which reports that nothing was
    found. *)
Theorem DeleteVolume_absent_is_noop ToLower c ctx req s :
  del_VolumeId req ≠ "" →
  volumes s !! (namespace c, del_VolumeId req) = None →
  head (faults s) = None ∨ head (faults s) = Some None →
  let r := DeleteVolume c ToLower ctx req s in
  r.1 = Returned Build_DeleteVolumeResponse ∧
  volumes r.2 = volumes s ∧ capacities r.2 = capacities s ∧
  calls r.2 = Ev (CallGet (namespace c, del_VolumeId req)) false :: calls s.
Proof.
  intros Hid Habsent Hserved.
  pose proof (ReadCR_Volume_absent c (del_VolumeId req) s Habsent Hserved) as Hread.
  pose proof (ReadCR_Volume_spec c (del_VolumeId req) s) as Hspec.
  unfold DeleteVolume.
  destruct (decide (del_VolumeId req = "")); [contradiction|].
  rewrite bind_run.
  destruct (ReadCR c (del_VolumeId req) s) as [r s1]. cbn in *.
  subst r. cbn. tauto.
Qed.

Example DeleteVolume_absent_is_noop_witness :
  let r := DeleteVolume controllerA lowerASCII tenSeconds {| del_VolumeId := "vX" |} twoDisks in
  r.1 = Returned Build_DeleteVolumeResponse ∧
  volumes r.2 = volumes twoDisks ∧ capacities r.2 = capacities twoDisks ∧
  calls r.2 = Ev (CallGet (namespace controllerA, "vX")) false :: calls twoDisks.
Proof.
  apply (DeleteVolume_absent_is_noop lowerASCII controllerA tenSeconds
           {| del_VolumeId := "vX" |} twoDisks).
  - discriminate.
  - reflexivity.
  - left. reflexivity.
Defined.

(** ** A failed list is reported as exhaustion (C10) *)

Lemma searchAvailableCapacity_list_error c mapRange preferredNode requiredBytes s err :
  (ReadList c (T:=AvailableCapacity) s).1 = inl err →
  (searchAvailableCapacity c mapRange preferredNode requiredBytes s).1 = None.
Proof.
  intros Hlist. unfold searchAvailableCapacity. rewrite bind_run, Hlist. reflexivity.
Qed.

(** Whatever the reason the scheduler returns nothing, the caller gets
    the same error. *)
Lemma CreateVolume_no_fit c mapRange ctx req s preferredNode :
  reachesScheduling c req s preferredNode →
  (searchAvailableCapacity c mapRange preferredNode
     (GetRequiredBytes (req_CapacityRange req)) (afterRead c req s)).1 = None →
  (CreateVolume c mapRange ctx req s).1 = Failed (noSuitableDrive req).
Proof.
  intros (Hname & Hcaps & Hread & Hpref) Hsearch.
  unfold CreateVolume, afterRead in *.
  destruct (decide (req_Name req = "")); [contradiction|].
  destruct (decide (req_VolumeCapabilities req = None)); [contradiction|].
  rewrite bind_run, Hread. cbn. rewrite Hpref, bind_run, Hsearch. reflexivity.
Qed.

(** C10.  When a [CreateVolume] reaches the scheduling step and the list
    of capacities fails, the scheduler returns nothing and the call fails
    with [ResourceExhausted]; the error is the very one returned when the
    list succeeds and no capacity fits. *)
Theorem CreateVolume_list_failure_is_exhaustion c mapRange ctx req s preferredNode err :
  reachesScheduling c req s preferredNode →
  (ReadList c (T:=AvailableCapacity) (afterRead c req s)).1 = inl err →
  (searchAvailableCapacity c mapRange preferredNode
     (GetRequiredBytes (req_CapacityRange req)) (afterRead c req s)).1 = None ∧
  (CreateVolume c mapRange ctx req s).1 = Failed (noSuitableDrive req) ∧
  status_Code (noSuitableDrive req) = ResourceExhausted ∧
  (∀ ctx' s' preferredNode' items,
      reachesScheduling c req s' preferredNode' →
      (ReadList c (T:=AvailableCapacity) (afterRead c req s')).1 = inr items →
      (searchAvailableCapacity c mapRange preferredNode'
         (GetRequiredBytes (req_CapacityRange req)) (afterRead c req s')).1 = None →
      (CreateVolume c mapRange ctx' req s').1 = (CreateVolume c mapRange ctx req s).1).
Proof.
  intros Hreach Hlist.
  assert (Hnone := searchAvailableCapacity_list_error c mapRange preferredNode
                     (GetRequiredBytes (req_CapacityRange req)) _ err Hlist).
  assert (Hout := CreateVolume_no_fit c mapRange ctx req s preferredNode Hreach Hnone).
  split; [exact Hnone|]. split; [exact Hout|]. split; [reflexivity|].
  intros ctx' s' preferredNode' items Hreach' _ Hnone'.
  rewrite Hout. eapply CreateVolume_no_fit; eassumption.
Qed.

Example CreateVolume_list_failure_is_exhaustion_witness :
  (CreateVolume controllerA mapOrder tenSeconds (requestFor "v1" 40 None) listFaultStore).1
  = Failed (noSuitableDrive (requestFor "v1" 40 None)).
Proof.
  apply (CreateVolume_list_failure_is_exhaustion controllerA mapOrder tenSeconds
           (requestFor "v1" 40 None) listFaultStore "" (ServerError "connection refused")).
  - repeat split; discriminate.
  - reflexivity.
Defined.

(** ** The scheduler (C2) *)

Lemma acNodeMapping_fold node acs : ∀ m : gmap string (list AvailableCapacity),
  default [] (fold_left
                (λ acNodeMap ac,
                   <[ac_NodeId (ac_Spec ac) :=
                       (default [] (acNodeMap !! ac_NodeId (ac_Spec ac)) ++ [ac])%list]>
                     acNodeMap)
                acs m !! node)
  = (default [] (m !! node) ++ filter (onNode node) acs)%list.
Proof.
  induction acs as [|ac acs IH]; intros m.
  - cbn. rewrite app_nil_r. reflexivity.
  - rewrite filter_cons. cbn [fold_left]. rewrite IH.
    destruct (decide (onNode node ac)) as [Heq|Hne]; unfold onNode in *.
    + rewrite Heq, lookup_insert_eq. cbn. rewrite <- app_assoc. reflexivity.
    + rewrite lookup_insert_ne by exact Hne. reflexivity.
Qed.

(** The group of a node holds the capacities of that node, in the order
    of the list. *)
Lemma acNodeMapping_lookup node acs :
  default [] (acNodeMapping acs !! node) = filter (onNode node) acs.
Proof.
  unfold acNodeMapping. rewrite acNodeMapping_fold, lookup_empty. reflexivity.
Qed.

Lemma bestFit_loop requiredBytes acs :
  bestFitInv requiredBytes acs
    (fold_left (bestFitStep requiredBytes) acs (MaxInt64, None)).
Proof.
  induction acs as [|ac acs IH] using rev_ind.
  - cbn. split; [reflexivity|]. intros x Hx. inversion Hx.
  - rewrite fold_left_app. cbn [fold_left].
    destruct (fold_left _ acs _) as [allocated found].
    unfold bestFitInv, bestFitStep, sizeOf in *. cbn [fst snd] in *.
    assert (Hsnoc : ∀ x, x ∈ (acs ++ [ac])%list → x ∈ acs ∨ x = ac).
    { intros x Hx. apply elem_of_app in Hx as [Hx|Hx]; [left; exact Hx|].
      right. apply list_elem_of_singleton in Hx. exact Hx. }
    destruct (Z.ltb_spec (ac_Size (ac_Spec ac)) allocated) as [Hlt|Hge];
      destruct (Z.leb_spec requiredBytes (ac_Size (ac_Spec ac))) as [Hle|Hgt];
      cbn [andb fst snd];
      destruct found as [best|];
      [ destruct IH as (Heq & Hin & [Hlo Hhi] & Hmin)
      | destruct IH as (Heq & Hnone)
      | destruct IH as (Heq & Hin & [Hlo Hhi] & Hmin)
      | destruct IH as (Heq & Hnone)
      | destruct IH as (Heq & Hin & [Hlo Hhi] & Hmin)
      | destruct IH as (Heq & Hnone)
      | destruct IH as (Heq & Hin & [Hlo Hhi] & Hmin)
      | destruct IH as (Heq & Hnone) ];
      subst allocated;
      repeat match goal with
             | |- _ ∧ _ => split
             | |- _ = _ => reflexivity
             | |- _ ∈ (_ ++ [_])%list => set_solver
             end;
      try lia;
      intros x Hx; destruct (Hsnoc x Hx) as [Hold| ->];
      try (specialize (Hmin x Hold)); try (specialize (Hnone x Hold)); lia.
Qed.

Lemma fold_left_pointwise {A B} (f g : A → B → A) (l : list B) :
  (∀ a b, f a b = g a b) → ∀ a, fold_left f l a = fold_left g l a.
Proof.
  intros Hfg. induction l as [|b l IH]; intros a; cbn; [reflexivity|].
  rewrite Hfg. apply IH.
Qed.

Lemma bestFit_unfold acs requiredBytes :
  bestFit acs requiredBytes
  = (fold_left (bestFitStep requiredBytes) acs (MaxInt64, None)).2.
Proof.
  unfold bestFit. f_equal. apply fold_left_pointwise.
  intros [allocated found] ac. reflexivity.
Qed.

(** Best fit among the capacities below [MaxInt64]: what is returned
    fits and is a smallest one that fits; nothing is returned only when no
    capacity below [MaxInt64] fits. *)
Lemma bestFit_spec acs requiredBytes :
  match bestFit acs requiredBytes with
  | Some ac =>
      ac ∈ acs ∧ requiredBytes ≤ sizeOf ac ∧
      ∀ x, x ∈ acs → requiredBytes ≤ sizeOf x → sizeOf ac ≤ sizeOf x
  | None => ∀ x, x ∈ acs → ¬ (requiredBytes ≤ sizeOf x < MaxInt64)
  end.
Proof.
  rewrite bestFit_unfold.
  pose proof (bestFit_loop requiredBytes acs) as H. unfold bestFitInv in H.
  destruct (fold_left _ acs _).2 as [ac|]; [|tauto].
  destruct H as (_ & Hin & [Hlo Hhi] & Hmin). split; [exact Hin|]. split; [lia|exact Hmin].
Qed.

(** The scheduler on the node it settles on, when the list succeeds. *)
Lemma searchAvailableCapacity_best_fit c mapRange preferredNode requiredBytes s items :
  (ReadList c (T:=AvailableCapacity) s).1 = inr items →
  let node := chosenNode mapRange preferredNode items in
  match (searchAvailableCapacity c mapRange preferredNode requiredBytes s).1 with
  | Some ac =>
      ac ∈ items ∧ onNode node ac ∧ requiredBytes ≤ sizeOf ac ∧
      ∀ x, x ∈ items → onNode node x → requiredBytes ≤ sizeOf x → sizeOf ac ≤ sizeOf x
  | None =>
      ∀ x, x ∈ items → onNode node x → ¬ (requiredBytes ≤ sizeOf x < MaxInt64)
  end.
Proof.
  intros Hlist node. unfold searchAvailableCapacity.
  rewrite bind_run, Hlist. cbn. fold (chosenNode mapRange preferredNode items). fold node.
  rewrite acNodeMapping_lookup.
  pose proof (bestFit_spec (filter (onNode node) items) requiredBytes) as H.
  destruct (bestFit _ _) as [ac|].
  - destruct H as (Hin & Hfit & Hmin). apply list_elem_of_filter in Hin as [Hnode Hin].
    repeat split; try assumption.
    intros x Hx Hxn. apply Hmin. apply list_elem_of_filter. split; assumption.
  - intros x Hx Hxn. apply H. apply list_elem_of_filter. split; assumption.
Qed.

(** C2.  With one free disk of [MaxInt64] bytes on [node-a] and a request
    for one byte on [node-a], a capacity that fits exists and the scheduler
    returns none; [CreateVolume] then reports [ResourceExhausted]. *)
Theorem searchAvailableCapacity_misses_MaxInt64 :
  (ReadList controllerA (T:=AvailableCapacity) hugeDisk).1
    = inr [capacityOf "node-a" "SN1" MaxInt64] ∧
  onNode "node-a" (capacityOf "node-a" "SN1" MaxInt64) ∧
  1 ≤ sizeOf (capacityOf "node-a" "SN1" MaxInt64) ∧
  (searchAvailableCapacity controllerA mapOrder "node-a" 1 hugeDisk).1 = None ∧
  (CreateVolume controllerA mapOrder tenSeconds
     (requestFor "v1" 1
        (Some {| Requisite := [];
                 Preferred := [ {| Segments := {[ NodeIDTopologyKey := "node-a" ]} |} ] |}))
     hugeDisk).1
  = Failed (StatusError ResourceExhausted "there is no suitable drive for request v1").
Proof.
  split; [vm_compute; reflexivity|].
  split; [reflexivity|].
  split; [vm_compute; discriminate|].
  split; vm_compute; reflexivity.
Qed.

(** ** The status annotation follows the status (C8) *)

#[global] Instance Sync_preorder : PreOrder Sync.
Proof.
  split.
  - intros s. exists []. split; [reflexivity | constructor].
  - intros s1 s2 s3 (l1 & H1 & F1) (l2 & H2 & F2). exists (l2 ++ l1)%list.
    split; [rewrite H2, H1, app_assoc; reflexivity | apply Forall_app; split; assumption].
Qed.

Lemma Sync_same s s' : calls s' = calls s → Sync s s'.
Proof. intros H. exists []. split; [exact H | constructor]. Qed.

Lemma Sync_one s s' e : calls s' = e :: calls s → entryInSync e → Sync s s'.
Proof. intros H He. exists [e]. split; [exact H | repeat constructor; exact He]. Qed.

Ltac sync_call :=
  first [ apply Sync_same; reflexivity
        | eapply Sync_one; [reflexivity | intros ? [=]; subst; try assumption ] ].

Lemma setStatus_in_sync newStatus v : volumeInSync (setStatus newStatus v).
Proof.
  eexists. split; [reflexivity|]. apply lookup_insert_eq.
Qed.

Lemma newVolumeCR_in_sync reqName ac : volumeInSync (newVolumeCR reqName ac).
Proof.
  eexists. split; [reflexivity|]. apply lookup_singleton_eq.
Qed.

Lemma ReadCR_Volume_Sync c name : Preserves Sync (ReadCR c (T:=Volume) name).
Proof. intros s. client_cases s; sync_call. Qed.

Lemma ReadList_Sync c : Preserves Sync (ReadList c (T:=AvailableCapacity)).
Proof. intros s. client_cases s; sync_call. Qed.

Lemma UpdateCR_Volume_Sync v : volumeInSync v → Preserves Sync (UpdateCR (T:=Volume) v).
Proof. intros Hv s. client_cases s; sync_call. Qed.

Lemma DeleteCR_Volume_Sync v : Preserves Sync (DeleteCR (T:=Volume) v).
Proof. intros s. client_cases s; sync_call. Qed.

Lemma DeleteCR_AvailableCapacity_Sync a :
  Preserves Sync (DeleteCR (T:=AvailableCapacity) a).
Proof. intros s. client_cases s; sync_call. Qed.

Lemma CreateCR_Volume_Sync c v name :
  volumeInSync v → Preserves Sync (CreateCR c (T:=Volume) v name).
Proof.
  intros Hv s. unfold CreateCR. rewrite bind_run.
  transitivity (client_Get (T:=Volume) (namespace c, name) s).2.
  { apply (ReadCR_Volume_Sync c name). }
  destruct (client_Get (namespace c, name) s) as [[err|found] s1]; cbn;
    [|reflexivity].
  destruct (IsNotFound err); cbn; [|reflexivity].
  rewrite bind_run. cbn. client_cases s1; sync_call.
Qed.

Lemma CreateCR_AvailableCapacity_Sync c a name :
  Preserves Sync (CreateCR c (T:=AvailableCapacity) a name).
Proof.
  intros s. unfold CreateCR. rewrite bind_run.
  transitivity (client_Get (T:=AvailableCapacity) (namespace c, name) s).2.
  { client_cases s; sync_call. }
  destruct (client_Get (namespace c, name) s) as [[err|found] s1]; cbn;
    [|reflexivity].
  destruct (IsNotFound err); cbn; [|reflexivity].
  rewrite bind_run. cbn. client_cases s1; sync_call.
Qed.

Lemma logCall_agent_Sync call ok :
  writtenVolume (Ev call ok) = None → Preserves Sync (logCall call ok).
Proof.
  intros Hw s. eapply Sync_one; [reflexivity|]. intros v Hv. congruence.
Qed.

Lemma readAttempts_Sync c attempts volumeID : ∀ v,
  Preserves Sync (readAttempts c attempts volumeID v).
Proof.
  induction attempts as [|n IH]; intros v; cbn.
  - apply Preserves_ret; apply _.
  - apply Preserves_bind; [apply _ | apply ReadCR_Volume_Sync |].
    intros [e|v']; [apply IH | apply Preserves_ret; apply _].
Qed.

Lemma updateAttempts_Sync attempts v :
  volumeInSync v → Preserves Sync (updateAttempts attempts v).
Proof.
  intros Hv. induction attempts as [|n IH]; cbn.
  - apply Preserves_ret; apply _.
  - apply Preserves_bind; [apply _ | apply UpdateCR_Volume_Sync; exact Hv |].
    intros [e|]; [apply IH | apply Preserves_ret; apply _].
Qed.

Lemma changeVolumeStatus_Sync c volumeID newStatus :
  Preserves Sync (changeVolumeStatus c volumeID newStatus).
Proof.
  unfold changeVolumeStatus.
  apply Preserves_bind; [apply _ | apply readAttempts_Sync |]. intros v.
  apply Preserves_bind; [apply _ | apply updateAttempts_Sync, setStatus_in_sync |].
  intros [|]; apply Preserves_ret; apply _.
Qed.

Lemma createLocalVolume_Sync c req ac : Preserves Sync (createLocalVolume c req ac).
Proof.
  unfold createLocalVolume.
  destruct (communicators c !! ac_NodeId (ac_Spec ac)) as [mgr|];
    [|apply Preserves_ret; apply _].
  apply Preserves_bind; [apply _ | apply logCall_agent_Sync; reflexivity |]. intros _.
  apply Preserves_bind; [apply _ | apply changeVolumeStatus_Sync |]. intros _.
  apply Preserves_ret; apply _.
Qed.

Lemma runDue_Sync c tasks : Preserves Sync (runDue c tasks).
Proof.
  induction tasks as [|g rest IH]; cbn.
  - apply Preserves_ret; apply _.
  - destruct (go_after g).
    + apply Preserves_bind; [apply _ | apply createLocalVolume_Sync |].
      intros [p|]; [apply Preserves_ret; apply _ | apply IH].
    + apply Preserves_bind; [apply _ | apply IH |].
      intros [p rest']. apply Preserves_ret; apply _.
Qed.

Lemma sleepSecond_Sync c : Preserves Sync (sleepSecond c).
Proof.
  intros s. unfold sleepSecond.
  pose proof (runDue_Sync c (goroutines s) (set_goroutines [] s)) as H.
  destruct (runDue c (goroutines s) (set_goroutines [] s)) as [[p rest] s']. cbn in *.
  destruct H as (l & Hl & Fl). exists l. split; assumption.
Qed.

Lemma waitVCRStatus_Sync c polls volumeID statuses :
  Preserves Sync (waitVCRStatus c polls volumeID statuses).
Proof.
  induction polls as [|n IH]; cbn.
  - apply Preserves_ret; apply _.
  - apply Preserves_bind; [apply _ | apply sleepSecond_Sync |].
    intros [p|]; [apply Preserves_ret; apply _|].
    apply Preserves_bind; [apply _ | apply ReadCR_Volume_Sync |].
    intros [e|v]; [apply IH|].
    destruct (find _ statuses); [apply Preserves_ret; apply _ | apply IH].
Qed.

Lemma awaitCreated_Sync c ctx req volumeCR :
  Preserves Sync (awaitCreated c ctx req volumeCR).
Proof.
  unfold awaitCreated.
  apply Preserves_bind; [apply _ | apply waitVCRStatus_Sync |].
  intros [p|[[|] st]]; [| destruct (decide _) |]; apply Preserves_ret; apply _.
Qed.

Lemma searchAvailableCapacity_Sync c mapRange preferredNode requiredBytes :
  Preserves Sync (searchAvailableCapacity c mapRange preferredNode requiredBytes).
Proof.
  unfold searchAvailableCapacity.
  apply Preserves_bind; [apply _ | apply ReadList_Sync |].
  intros [e|items]; apply Preserves_ret; apply _.
Qed.

Lemma spawn_Sync c req ac : Preserves Sync (spawn c req ac).
Proof. intros s. apply Sync_same. reflexivity. Qed.

Lemma CreateVolume_Sync c mapRange ctx req :
  Preserves Sync (CreateVolume c mapRange ctx req).
Proof.
  unfold CreateVolume.
  destruct (decide (req_Name req = "")); [apply Preserves_ret; apply _|].
  destruct (decide (req_VolumeCapabilities req = None)); [apply Preserves_ret; apply _|].
  apply Preserves_bind; [apply _ | apply ReadCR_Volume_Sync |].
  intros [err|volumeCR]; [|apply awaitCreated_Sync].
  destruct (negb (IsNotFound err)); [apply Preserves_ret; apply _|].
  destruct (preferredNodeOf req) as [p|preferredNode]; [apply Preserves_ret; apply _|].
  apply Preserves_bind; [apply _ | apply searchAvailableCapacity_Sync |].
  intros [ac|]; [|apply Preserves_ret; apply _].
  apply Preserves_bind;
    [apply _ | apply CreateCR_Volume_Sync, newVolumeCR_in_sync |].
  intros [[e|] volumeCR]; [apply Preserves_ret; apply _|].
  apply Preserves_bind; [apply _ | apply DeleteCR_AvailableCapacity_Sync |]. intros _.
  apply Preserves_bind; [apply _ | apply spawn_Sync |]. intros _.
  apply awaitCreated_Sync.
Qed.

(** [DeleteVolume] writes no volume at all. *)
Lemma DeleteVolume_Sync ToLower c ctx req : Preserves Sync (DeleteVolume c ToLower ctx req).
Proof.
  unfold DeleteVolume.
  destruct (decide (del_VolumeId req = "")); [apply Preserves_ret; apply _|].
  cbn zeta.
  apply Preserves_bind; [apply _ | apply ReadCR_Volume_Sync |].
  intros [err|volume]; [destruct (IsNotFound err); apply Preserves_ret; apply _|].
  destruct (communicators c !! vol_Owner (vol_Spec volume)) as [mgr|];
    [|apply Preserves_ret; apply _].
  apply Preserves_bind; [apply _ | apply logCall_agent_Sync; reflexivity |]. intros _.
  destruct (invoke _ _) as [e|reply]; [apply Preserves_ret; apply _|].
  destruct (negb (dlv_Ok reply)); [apply Preserves_ret; apply _|].
  destruct (dlv_Volume reply) as [localVolume|]; [|apply Preserves_ret; apply _].
  apply Preserves_bind; [apply _ | apply DeleteCR_Volume_Sync |].
  intros [e|]; [apply Preserves_ret; apply _|].
  apply Preserves_bind; [apply _ | apply CreateCR_AvailableCapacity_Sync |]. intros _.
  apply Preserves_ret; apply _.
Qed.

(** C8.  Every volume the controller hands to the store, in the creation
    of [CreateVolume] and in each status change of [changeVolumeStatus]
    (run on its own, or by the background tasks during a [CreateVolume]),
    carries a status annotation equal to the text of its status. *)
Theorem volume_writes_in_sync c mapRange :
  (∀ volumeID newStatus s,
      ∃ l, calls (changeVolumeStatus c volumeID newStatus s).2 = (l ++ calls s)%list ∧
           ∀ e v, e ∈ l → writtenVolume e = Some v →
                  Annotations (vol_ObjectMeta v) ≫= (.!! VolumeStatusAnnotationKey)
                  = Some (OperationalStatus_name (vol_Status (vol_Spec v)))) ∧
  (∀ ctx req s,
      ∃ l, calls (CreateVolume c mapRange ctx req s).2 = (l ++ calls s)%list ∧
           ∀ e v, e ∈ l → writtenVolume e = Some v →
                  Annotations (vol_ObjectMeta v) ≫= (.!! VolumeStatusAnnotationKey)
                  = Some (OperationalStatus_name (vol_Status (vol_Spec v)))).
Proof.
  assert (Hsync : ∀ s s', Sync s s' →
      ∃ l, calls s' = (l ++ calls s)%list ∧
           ∀ e v, e ∈ l → writtenVolume e = Some v →
                  Annotations (vol_ObjectMeta v) ≫= (.!! VolumeStatusAnnotationKey)
                  = Some (OperationalStatus_name (vol_Status (vol_Spec v)))).
  { intros s s' (l & Hl & Fl). exists l. split; [exact Hl|].
    intros e v He Hv. rewrite Forall_forall in Fl.
    destruct (Fl e He v Hv) as (a & Ha & Hk). rewrite Ha. exact Hk. }
  split.
  - intros volumeID newStatus s. apply Hsync, changeVolumeStatus_Sync.
  - intros ctx req s. apply Hsync, CreateVolume_Sync.
Qed.

Example volume_writes_in_sync_witness :
  Ev (CallUpdate (ObjVolume createdV1)) true
    ∈ calls (CreateVolume controllerA mapOrder tenSeconds
               (requestFor "v1" 40 None) twoDisks).2 ∧
  Annotations (vol_ObjectMeta createdV1) ≫= (.!! VolumeStatusAnnotationKey)
  = Some "Created".
Proof.
  destruct (proj2 (volume_writes_in_sync controllerA mapOrder) tenSeconds
              (requestFor "v1" 40 None) twoDisks) as (l & Hl & Hsync).
  assert (Hlog : calls (CreateVolume controllerA mapOrder tenSeconds
                          (requestFor "v1" 40 None) twoDisks).2 !! 1%nat
                 = Some (Ev (CallUpdate (ObjVolume createdV1)) true)).
  { vm_compute. reflexivity. }
  apply list_elem_of_lookup_2 in Hlog.
  split; [exact Hlog|].
  apply (Hsync (Ev (CallUpdate (ObjVolume createdV1)) true) createdV1).
  - change (calls twoDisks) with (@nil Entry) in Hl. rewrite app_nil_r in Hl.
    rewrite <- Hl. exact Hlog.
  - reflexivity.
Defined.

(** ** The background task (C4) *)

Lemma invoke_late {A} timeout (r : Reply A) :
  (timeout ≤ elapsed r)%nat → invoke timeout r = inl "context deadline exceeded".
Proof.
  intros H. unfold invoke. destruct (Nat.leb_spec timeout (elapsed r)); [reflexivity|lia].
Qed.

Lemma invoke_in_time {A} timeout (r : Reply A) :
  (elapsed r < timeout)%nat → invoke timeout r = answer r.
Proof.
  intros H. unfold invoke. destruct (Nat.leb_spec timeout (elapsed r)); [lia|reflexivity].
Qed.



(** ** The reservation (C3) *)

#[global] Instance SameStore_preorder : PreOrder SameStore.
Proof.
  split.
  - intros s. repeat split.
  - intros s1 s2 s3 (Hv1 & Hc1 & Hg1) (Hv2 & Hc2 & Hg2).
    repeat split; congruence.
Qed.

Lemma ReadCR_Volume_SameStore c name : Preserves SameStore (ReadCR c (T:=Volume) name).
Proof. intros s. client_cases s; repeat split. Qed.

Lemma ReadList_SameStore c : Preserves SameStore (ReadList c (T:=AvailableCapacity)).
Proof. intros s. client_cases s; repeat split. Qed.

Lemma searchAvailableCapacity_SameStore c mapRange preferredNode requiredBytes :
  Preserves SameStore (searchAvailableCapacity c mapRange preferredNode requiredBytes).
Proof.
  unfold searchAvailableCapacity.
  apply Preserves_bind; [apply _ | apply ReadList_SameStore |].
  intros [e|items]; apply Preserves_ret; apply _.
Qed.

(** Creating a volume whose name is free in the controller's namespace:
    either the store refuses and nothing is written, or the volume is
    stored under its own namespace and name. *)
Lemma client_Create_Volume_spec v s :
  let r := client_Create (T:=Volume) v s in
  capacities r.2 = capacities s ∧ goroutines r.2 = goroutines s ∧
  ((∃ e, r.1 = Some e ∧ volumes r.2 = volumes s) ∨
   (r.1 = None ∧ volumes s !! keyOf v = None ∧
    volumes r.2 = <[keyOf v := v]> (volumes s) ∧
    calls r.2 = Ev (CallCreate (ObjVolume v)) true :: calls s)).
Proof.
  client_cases s; repeat split; eauto 10.
Qed.

Lemma CreateCR_Volume_spec c v name s :
  volumes s !! (namespace c, name) = None →
  let r := CreateCR c (T:=Volume) v name s in
  capacities r.2 = capacities s ∧ goroutines r.2 = goroutines s ∧
  ((∃ e, r.1 = (Some e, v) ∧ volumes r.2 = volumes s) ∨
   (r.1 = (None, v) ∧ volumes s !! keyOf v = None ∧
    volumes r.2 = <[keyOf v := v]> (volumes s) ∧
    calls r.2 = Ev (CallCreate (ObjVolume v)) true
                :: Ev (CallGet (namespace c, name)) false :: calls s)).
Proof.
  intros Hfree.
  pose proof (ReadCR_Volume_spec c name s) as Hget.
  unfold CreateCR. unfold ReadCR in Hget. rewrite bind_run.
  destruct (client_Get (namespace c, name) s) as [[err|found] s1];
    simpl in Hget; destruct Hget as (Hv1 & Hc1 & Hg1 & Hl1 & Hres); cbn [fst snd].
  2:{ congruence. }
  destruct err as [| |msg]; cbn [IsNotFound].
  - rewrite bind_run.
    pose proof (client_Create_Volume_spec v s1) as Hcreate.
    destruct (client_Create v s1) as [e s2]; simpl in Hcreate;
      rewrite ret_run; cbn [fst snd].
    destruct Hcreate as (Hc2 & Hg2 & Hcases).
    split; [congruence|]. split; [congruence|].
    destruct Hcases as [(e' & -> & Hv2)|(-> & Hfree' & Hv2 & Hl2)].
    + left. exists e'. split; [reflexivity | congruence].
    + right. rewrite Hv1 in *. rewrite Hl2, Hl1. auto.
  - contradiction.
  - cbn. split; [congruence|]. split; [congruence|]. left. eauto.
Qed.

Lemma Sync_calls_mono s s' e : Sync s s' → e ∈ calls s → e ∈ calls s'.
Proof.
  intros (l & Hl & _) He. rewrite Hl. apply elem_of_app. right. exact He.
Qed.

(** What follows the creation of the volume record in [CreateVolume]. *)
Lemma CreateVolume_tail_Sync c ctx req ac volumeCR :
  Preserves Sync
    (_ ← DeleteCR (T:=AvailableCapacity) ac; _ ← spawn c req ac;
     awaitCreated c ctx req volumeCR).
Proof.
  apply Preserves_bind; [apply _ | apply DeleteCR_AvailableCapacity_Sync |]. intros _.
  apply Preserves_bind; [apply _ | apply spawn_Sync |]. intros _.
  apply awaitCreated_Sync.
Qed.

(** [CreateCR] of a volume whose name is free in the controller's
    namespace, by cases on whether the store takes the record. *)
Lemma CreateCR_Volume_verdict c v name s :
  volumes s !! (namespace c, name) = None →
  let r := CreateCR c (T:=Volume) v name s in
  capacities r.2 = capacities s ∧ goroutines r.2 = goroutines s ∧
  ((storeAccepts v s ∧ r.1 = (None, v) ∧
    volumes r.2 = <[keyOf v := v]> (volumes s) ∧
    faults r.2 = drop 2 (faults s) ∧
    calls r.2 = Ev (CallCreate (ObjVolume v)) true
                :: Ev (CallGet (namespace c, name)) false :: calls s) ∨
   (¬ storeAccepts v s ∧ ∃ e, r.1 = (Some e, v) ∧ volumes r.2 = volumes s)).
Proof.
  intros Hfree. unfold storeAccepts, CreateCR, client_Get, client_Create, nextFault, logCall.
  unfold mbind, mret, M_bind, M_ret.
  destruct (faults s) as [|[msg|] [|[msg'|] rest]] eqn:Hf; cbn; rewrite ?Hfree; cbn;
    rewrite ?Hf; cbn;
    destruct (volumes s !! keyOf v) eqn:Hkey; cbn; rewrite ?Hf; cbn.
  all: (split; [reflexivity|]); (split; [reflexivity|]).
  all: first [ left; split; [split; [exact I | reflexivity]|];
               repeat split; reflexivity
             | right; split;
               [ intros [Hs Hk]; first [contradiction | discriminate]
               | eexists; split; reflexivity ] ].
Qed.

(** What [awaitCreated] fails with is not the error of a refused record. *)
Lemma awaitCreated_not_refused c ctx req volumeCR s :
  (awaitCreated c ctx req volumeCR s).1
  ≠ Failed (StatusError Internal "unable to create volume CR").
Proof.
  unfold awaitCreated. rewrite bind_run.
  destruct (waitVCRStatus c (deadline ctx) (req_Name req) _ s) as [[p|[reached st]] s1];
    cbn [fst snd]; [discriminate|].
  destruct reached; [destruct (decide _)|]; rewrite ret_run; discriminate.
Qed.

(** C3.  When a [CreateVolume] request finds no volume of its name and the
    scheduler returns a capacity, the record handed to the store is in the
    namespace ["default"] under the name of the request, with status
    [Creating], the node of the capacity as owner, its location, and its
    size (not the bytes the request asked for).  When the store takes the
    record, its creation is in the log of calls as a success and the call
    does not fail with the error of a refused record; when the store does
    not take it, which is the create error of the same step, the call
    fails with [Internal] and the volumes and the capacities are what they
    were. *)
Theorem CreateVolume_records_reservation c mapRange ctx req s preferredNode ac :
  reachesScheduling c req s preferredNode →
  (searchAvailableCapacity c mapRange preferredNode
     (GetRequiredBytes (req_CapacityRange req)) (afterRead c req s)).1 = Some ac →
  let r := CreateVolume c mapRange ctx req s in
  ∃ v,
    Namespace (vol_ObjectMeta v) = "default" ∧
    Name (vol_ObjectMeta v) = req_Name req ∧
    vol_Id (vol_Spec v) = req_Name req ∧
    vol_Status (vol_Spec v) = OperationalStatus_Creating ∧
    vol_Owner (vol_Spec v) = ac_NodeId (ac_Spec ac) ∧
    vol_Location (vol_Spec v) = ac_Location (ac_Spec ac) ∧
    vol_Size (vol_Spec v) = ac_Size (ac_Spec ac) ∧
    ((storeAccepts v (afterSearch c mapRange req s preferredNode) ∧
      Ev (CallCreate (ObjVolume v)) true ∈ calls r.2 ∧
      r.1 ≠ Failed (StatusError Internal "unable to create volume CR"))
     ∨
     (¬ storeAccepts v (afterSearch c mapRange req s preferredNode) ∧
      r.1 = Failed (StatusError Internal "unable to create volume CR") ∧
      volumes r.2 = volumes s ∧ capacities r.2 = capacities s)).
Proof.
  intros (Hname & Hcaps & Hread & Hpref) Hsearch.
  unfold CreateVolume, afterSearch, afterRead in *.
  destruct (decide (req_Name req = "")); [contradiction|].
  destruct (decide (req_VolumeCapabilities req = None)); [contradiction|].
  pose proof (ReadCR_Volume_spec c (req_Name req) s) as Hget.
  cbn zeta. rewrite bind_run.
  destruct (ReadCR c (req_Name req) s) as [res s1]; simpl in Hget, Hread, Hsearch.
  subst res. destruct Hget as (Hv1 & Hc1 & _ & _ & Hfree).
  cbn [fst snd negb IsNotFound]. rewrite Hpref, bind_run.
  pose proof (searchAvailableCapacity_SameStore c mapRange preferredNode
                (GetRequiredBytes (req_CapacityRange req)) s1) as (Hv2 & Hc2 & _).
  destruct (searchAvailableCapacity c mapRange preferredNode _ s1) as [found s2];
    simpl in Hsearch, Hv2, Hc2. subst found. cbn [fst snd]. rewrite bind_run.
  assert (Hfree2 : volumes s2 !! (namespace c, req_Name req) = None) by congruence.
  pose proof (CreateCR_Volume_verdict c (newVolumeCR (req_Name req) ac) (req_Name req) s2
                Hfree2) as Hcreate.
  destruct (CreateCR c (newVolumeCR (req_Name req) ac) (req_Name req) s2)
    as [[e volumeCR] s3]; simpl in Hcreate.
  exists (newVolumeCR (req_Name req) ac).
  do 7 (split; [reflexivity|]).
  destruct Hcreate as (Hc3 & _ & [(Hacc & [= -> ->] & _ & _ & Hl3)
                                 |(Hrej & e' & [= -> ->] & Hv3)]);
    cbn [fst snd].
  - left. split; [exact Hacc|]. split.
    + eapply Sync_calls_mono; [apply CreateVolume_tail_Sync|].
      rewrite Hl3. apply elem_of_cons. left. reflexivity.
    + rewrite !bind_run. apply awaitCreated_not_refused.
  - right. rewrite ret_run. cbn [fst snd].
    split; [exact Hrej|]. split; [reflexivity|]. split; congruence.
Qed.

Example CreateVolume_records_reservation_witness :
  let r := CreateVolume controllerA mapOrder tenSeconds (requestFor "v1" 40 None) twoDisks in
  ∃ v, Ev (CallCreate (ObjVolume v)) true ∈ calls r.2 ∧
       Namespace (vol_ObjectMeta v) = "default" ∧
       Name (vol_ObjectMeta v) = "v1" ∧
       vol_Id (vol_Spec v) = "v1" ∧
       vol_Status (vol_Spec v) = OperationalStatus_Creating ∧
       vol_Owner (vol_Spec v) = "node-a" ∧
       vol_Location (vol_Spec v) = "SN1" ∧
       vol_Size (vol_Spec v) = 50.
Proof.
  destruct (CreateVolume_records_reservation controllerA mapOrder tenSeconds
              (requestFor "v1" 40 None) twoDisks "" (capacityOf "node-a" "SN1" 50))
    as (v & Hns & Hn & Hid & Hst & Ho & Hl & Hsz & Hcases).
  - repeat split; discriminate.
  - vm_compute. reflexivity.
  - exists v. destruct Hcases as [(_ & Hlog & _)|(Hrej & _)].
    + repeat split; assumption.
    + exfalso. apply Hrej. unfold storeAccepts, keyOf. cbn [meta Volume_Resource].
      rewrite Hns, Hn. split; [exact I | reflexivity].
Defined.

(** ** What the background tasks leave alone *)

#[global] Instance Background_preorder : PreOrder Background.
Proof.
  split.
  - intros s. split; [reflexivity|]. intros Hk. split; [exact Hk|]. eauto.
  - intros s1 s2 s3 (Hc1 & H1) (Hc2 & H2). split; [congruence|].
    intros Hk1. destruct (H1 Hk1) as (Hk2 & Hid1).
    destruct (H2 Hk2) as (Hk3 & Hid2). split; [exact Hk3|].
    intros k v3 Hne Hv3. destruct (Hid2 k v3 Hne Hv3) as (v2 & Hv2 & E2).
    destruct (Hid1 k v2 Hne Hv2) as (v1 & Hv1 & E1). exists v1.
    split; [exact Hv1 | congruence].
Qed.

Lemma Background_same s s' :
  volumes s' = volumes s → capacities s' = capacities s → Background s s'.
Proof.
  intros Hv Hc. split; [exact Hc|]. intros Hk. split.
  - intros k v. rewrite Hv. apply Hk.
  - intros k v' _. rewrite Hv. eauto.
Qed.

Lemma SameStore_Background s s' : SameStore s s' → Background s s'.
Proof. intros (Hv & Hc & _). apply Background_same; assumption. Qed.

Lemma client_Update_Volume_spec v s :
  let r := client_Update (T:=Volume) v s in
  capacities r.2 = capacities s ∧ goroutines r.2 = goroutines s ∧
  ((∃ e, r.1 = Some e ∧ volumes r.2 = volumes s) ∨
   (r.1 = None ∧ is_Some (volumes s !! keyOf v) ∧
    volumes r.2 = <[keyOf v := v]> (volumes s))).
Proof.
  client_cases s; repeat split; eauto 10.
Qed.

(** Writing [v] over a volume it agrees with in identity. *)
Lemma Background_update s s' v :
  capacities s' = capacities s →
  volumes s' = <[keyOf v := v]> (volumes s) →
  (volumesKeyed s → (keyOf v).2 ≠ "" →
   ∃ old, volumes s !! keyOf v = Some old ∧ identity v = identity old) →
  Background s s'.
Proof.
  intros Hc Hv Hold. split; [exact Hc|]. intros Hk. split.
  - intros k w. rewrite Hv. destruct (decide (keyOf v = k)) as [<-|Hne].
    + rewrite lookup_insert_eq. intros [= <-]. reflexivity.
    + rewrite lookup_insert_ne by exact Hne. apply Hk.
  - intros k w Hname. rewrite Hv. destruct (decide (keyOf v = k)) as [<-|Hne].
    + rewrite lookup_insert_eq. intros [= <-]. apply Hold; assumption.
    + rewrite lookup_insert_ne by exact Hne. eauto.
Qed.

Lemma updateAttempts_Background attempts v : ∀ s,
  (volumesKeyed s → (keyOf v).2 ≠ "" → ∀ old, volumes s !! keyOf v = Some old →
   identity v = identity old) →
  Background s (updateAttempts attempts v s).2.
Proof.
  induction attempts as [|n IH]; intros s Hold; cbn.
  - reflexivity.
  - rewrite bind_run. unfold UpdateCR.
    pose proof (client_Update_Volume_spec v s) as Hupd.
    destruct (client_Update v s) as [e s1]; simpl in Hupd; cbn [fst snd].
    destruct Hupd as (Hc & _ & [(e' & -> & Hv)|(-> & [old Hsome] & Hv)]).
    + etransitivity; [apply Background_same; eassumption|].
      apply IH. intros Hk Hname old. rewrite Hv. apply Hold; [|exact Hname].
      intros k w. rewrite <- Hv. apply Hk.
    + rewrite ret_run. cbn [snd]. eapply Background_update; [eassumption..|].
      intros Hk Hname. exists old. split; [exact Hsome|]. eapply Hold; eassumption.
Qed.

Lemma readAttempts_spec c attempts volumeID v0 : ∀ s,
  let r := readAttempts c attempts volumeID v0 s in
  SameStore s r.2 ∧ (r.1 = v0 ∨ volumes s !! (namespace c, volumeID) = Some r.1).
Proof.
  induction attempts as [|n IH]; intros s; cbn.
  - split; [reflexivity | left; reflexivity].
  - rewrite bind_run.
    pose proof (ReadCR_Volume_spec c volumeID s) as Hget.
    pose proof (ReadCR_Volume_SameStore c volumeID s) as Hsame.
    destruct (ReadCR c volumeID s) as [[e|v] s1]; simpl in Hget, Hsame; cbn [fst snd].
    + destruct (IH s1) as (Hsame' & Hres). split; [etransitivity; eassumption|].
      destruct Hres as [Hres|Hres]; [left; exact Hres|].
      right. destruct Hsame as (Hv & _). rewrite <- Hv. exact Hres.
    + rewrite ret_run. cbn [fst snd]. split; [exact Hsame|]. right. tauto.
Qed.

Lemma changeVolumeStatus_Background c volumeID newStatus :
  Preserves Background (changeVolumeStatus c volumeID newStatus).
Proof.
  intros s. unfold changeVolumeStatus. rewrite bind_run.
  destruct (readAttempts_spec c 10 volumeID Volume_zero s) as (Hsame & Hres).
  destruct (readAttempts c 10 volumeID Volume_zero s) as [v s1]; cbn [fst snd] in *.
  etransitivity; [apply SameStore_Background; exact Hsame|].
  rewrite bind_run.
  pose proof (updateAttempts_Background 10 (setStatus newStatus v) s1) as Hupd.
  destruct (updateAttempts 10 (setStatus newStatus v) s1) as [ok s2]; cbn [fst snd] in *.
  assert (Hs2 : Background s1 s2).
  { apply Hupd. intros Hk Hname old Hold.
    destruct Hres as [->|Hv]; [contradiction Hname; reflexivity|].
    destruct Hsame as (Hvol & _). rewrite Hvol in Hold.
    change (keyOf (setStatus newStatus v)) with (keyOf v) in Hold.
    assert (Hkey : keyOf v = (namespace c, volumeID)).
    { apply Hk. rewrite Hvol. exact Hv. }
    rewrite Hkey, Hv in Hold. injection Hold as <-. reflexivity. }
  destruct ok; rewrite ret_run; exact Hs2.
Qed.

Lemma logCall_SameStore call ok : Preserves SameStore (logCall call ok).
Proof. intros s. repeat split. Qed.

Lemma createLocalVolume_Background c req ac :
  Preserves Background (createLocalVolume c req ac).
Proof.
  unfold createLocalVolume.
  destruct (communicators c !! ac_NodeId (ac_Spec ac)) as [mgr|];
    [|apply Preserves_ret; apply _].
  apply Preserves_bind; [apply _ | | intros _].
  { intros s. apply SameStore_Background, logCall_SameStore. }
  apply Preserves_bind; [apply _ | apply changeVolumeStatus_Background | intros _].
  apply Preserves_ret; apply _.
Qed.

Lemma runDue_Background c tasks : Preserves Background (runDue c tasks).
Proof.
  induction tasks as [|g rest IH]; cbn.
  - apply Preserves_ret; apply _.
  - destruct (go_after g).
    + apply Preserves_bind; [apply _ | apply createLocalVolume_Background |].
      intros [p|]; [apply Preserves_ret; apply _ | apply IH].
    + apply Preserves_bind; [apply _ | apply IH |].
      intros [p rest']. apply Preserves_ret; apply _.
Qed.

Lemma sleepSecond_Background c : Preserves Background (sleepSecond c).
Proof.
  intros s. unfold sleepSecond.
  pose proof (runDue_Background c (goroutines s) (set_goroutines [] s)) as H.
  destruct (runDue c (goroutines s) (set_goroutines [] s)) as [[p rest] s']. cbn in *.
  exact H.
Qed.

Lemma waitVCRStatus_Background c polls volumeID statuses :
  Preserves Background (waitVCRStatus c polls volumeID statuses).
Proof.
  induction polls as [|n IH]; cbn.
  - apply Preserves_ret; apply _.
  - apply Preserves_bind; [apply _ | apply sleepSecond_Background |].
    intros [p|]; [apply Preserves_ret; apply _|].
    apply Preserves_bind; [apply _ | |].
    { intros s. apply SameStore_Background, ReadCR_Volume_SameStore. }
    intros [e|v]; [apply IH|].
    destruct (find _ statuses); [apply Preserves_ret; apply _ | apply IH].
Qed.

Lemma awaitCreated_Background c ctx req volumeCR :
  Preserves Background (awaitCreated c ctx req volumeCR).
Proof.
  unfold awaitCreated.
  apply Preserves_bind; [apply _ | apply waitVCRStatus_Background |].
  intros [p|[[|] st]]; [| destruct (decide _) |]; apply Preserves_ret; apply _.
Qed.

(** ** A volume that is reported created is in the store *)

Lemma waitVCRStatus_reached c polls volumeID statuses : ∀ s st,
  (waitVCRStatus c polls volumeID statuses s).1 = inr (true, st) →
  is_Some (volumes (waitVCRStatus c polls volumeID statuses s).2
             !! (namespace c, volumeID)).
Proof.
  induction polls as [|n IH]; intros s st; cbn.
  - discriminate.
  - rewrite bind_run.
    destruct (sleepSecond c s) as [[p|] s1]; cbn [fst snd]; [discriminate|].
    rewrite bind_run.
    pose proof (ReadCR_Volume_spec c volumeID s1) as Hget.
    destruct (ReadCR c volumeID s1) as [[e|v] s2]; simpl in Hget; cbn [fst snd].
    + apply IH.
    + destruct (find _ statuses); [|apply IH].
      rewrite ret_run. cbn [fst snd]. intros _.
      destruct Hget as (Hv & _ & _ & _ & Hsome). rewrite Hv, Hsome. eauto.
Qed.

Lemma awaitCreated_returned c ctx req volumeCR s resp :
  (awaitCreated c ctx req volumeCR s).1 = Returned resp →
  is_Some (volumes (awaitCreated c ctx req volumeCR s).2 !! (namespace c, req_Name req)).
Proof.
  unfold awaitCreated. rewrite bind_run.
  pose proof (waitVCRStatus_reached c (deadline ctx) (req_Name req)
                [OperationalStatus_Created; OperationalStatus_FailedToCreate] s) as Hw.
  destruct (waitVCRStatus c (deadline ctx) (req_Name req) _ s)
    as [[p|[reached st]] s1]; cbn [fst snd] in *.
  - discriminate.
  - destruct reached; [|discriminate].
    destruct (decide _); [discriminate|]. rewrite ret_run. cbn [fst snd].
    intros _. apply (Hw st). reflexivity.
Qed.

(** ** The capacities through a reservation *)

Lemma ReadList_spec c s items a :
  (ReadList c (T:=AvailableCapacity) s).1 = inr items → a ∈ items →
  ∃ k, k.1 = namespace c ∧ capacities s !! k = Some a.
Proof.
  client_cases s; intros [= <-] Ha.
  all: apply list_elem_of_fmap in Ha as ([k a'] & -> & Ha);
    apply list_elem_of_filter in Ha as [Hns Ha];
    apply elem_of_map_to_list in Ha; exists k; split; [exact Hns | exact Ha].
Qed.

Lemma searchAvailableCapacity_found c mapRange preferredNode requiredBytes s ac :
  (searchAvailableCapacity c mapRange preferredNode requiredBytes s).1 = Some ac →
  ∃ k, k.1 = namespace c ∧ capacities s !! k = Some ac.
Proof.
  intros Hsearch.
  destruct (ReadList c (T:=AvailableCapacity) s).1 as [e|items] eqn:Hlist.
  - erewrite searchAvailableCapacity_list_error in Hsearch by exact Hlist. discriminate.
  - pose proof (searchAvailableCapacity_best_fit c mapRange preferredNode
                  requiredBytes s items Hlist) as Hfit.
    cbn zeta in Hfit. rewrite Hsearch in Hfit. destruct Hfit as (Hin & _).
    eapply ReadList_spec; eassumption.
Qed.

Lemma client_Delete_AvailableCapacity_spec a s :
  let r := client_Delete (T:=AvailableCapacity) a s in
  volumes r.2 = volumes s ∧
  (capacities r.2 = capacities s ∨
   capacities r.2 = delete (keyOf a) (capacities s)).
Proof.
  client_cases s; repeat split; eauto.
Qed.

Lemma client_Delete_Volume_spec v s :
  let r := client_Delete (T:=Volume) v s in
  capacities r.2 = capacities s ∧
  ((∃ e, r.1 = Some e) ∨ (r.1 = None ∧ volumes r.2 = delete (keyOf v) (volumes s))).
Proof.
  client_cases s; repeat split; eauto.
Qed.

Lemma client_Get_AvailableCapacity_spec key s :
  let r := client_Get (T:=AvailableCapacity) key s in
  volumes r.2 = volumes s ∧ capacities r.2 = capacities s ∧
  calls r.2 = Ev (CallGet key) (match r.1 with inr _ => true | inl _ => false end)
              :: calls s ∧
  match r.1 with
  | inr a => capacities s !! key = Some a
  | inl NotFound => capacities s !! key = None
  | inl AlreadyExists => False
  | inl (ServerError _) => True
  end.
Proof.
  client_cases s; repeat split; auto.
Qed.

Lemma client_Create_AvailableCapacity_spec a s :
  let r := client_Create (T:=AvailableCapacity) a s in
  volumes r.2 = volumes s ∧
  ((capacities r.2 = capacities s ∧
    calls r.2 = Ev (CallCreate (ObjAvailableCapacity a)) false :: calls s) ∨
   (capacities r.2 = <[keyOf a := a]> (capacities s))).
Proof.
  client_cases s; repeat split; eauto.
Qed.

(** Re-creating a capacity: it was there already, or it is stored now, or
    the last call failed. *)
Lemma CreateCR_AvailableCapacity_spec c cr name s :
  let r := CreateCR c (T:=AvailableCapacity) cr name s in
  volumes r.2 = volumes s ∧
  ((∃ found, capacities s !! (namespace c, name) = Some found ∧
             capacities r.2 = capacities s) ∨
   (capacities s !! (namespace c, name) = None ∧
    capacities r.2 = <[keyOf cr := cr]> (capacities s)) ∨
   ¬ lastCallOk r.2).
Proof.
  unfold CreateCR. rewrite bind_run.
  pose proof (client_Get_AvailableCapacity_spec (namespace c, name) s) as Hget.
  destruct (client_Get (namespace c, name) s) as [[err|found] s1];
    simpl in Hget; cbn [fst snd]; destruct Hget as (Hv1 & Hc1 & Hl1 & Hres).
  2:{ rewrite ret_run. cbn [snd]. split; [exact Hv1|]. left. eauto. }
  destruct err as [| |msg]; cbn [IsNotFound].
  - rewrite bind_run.
    pose proof (client_Create_AvailableCapacity_spec cr s1) as Hcreate.
    destruct (client_Create cr s1) as [e s2]; simpl in Hcreate;
      rewrite ret_run; cbn [fst snd].
    destruct Hcreate as (Hv2 & [(Hc2 & Hl2)|Hc2]).
    + split; [congruence|]. right. right.
      unfold lastCallOk. rewrite Hl2. discriminate.
    + split; [congruence|]. right. left. rewrite Hc2, Hc1. auto.
  - contradiction.
  - rewrite ret_run. cbn [snd]. split; [exact Hv1|]. right. right.
    unfold lastCallOk. rewrite Hl1. discriminate.
Qed.

Lemma spawn_store c req ac s :
  volumes (spawn c req ac s).2 = volumes s ∧
  capacities (spawn c req ac s).2 = capacities s.
Proof. split; reflexivity. Qed.

(** A [CreateVolume] that succeeds for a name the store did not hold has
    reserved a capacity of the store: the capacity is gone (or still
    there, when its deletion failed), and the volume carries its owner,
    size and location. *)
Lemma CreateVolume_fresh_returned c mapRange ctx req s resp :
  volumesKeyed s →
  volumes s !! (namespace c, req_Name req) = None →
  (CreateVolume c mapRange ctx req s).1 = Returned resp →
  let s' := (CreateVolume c mapRange ctx req s).2 in
  ∃ k ac v,
    k.1 = namespace c ∧ capacities s !! k = Some ac ∧
    (capacities s' = capacities s ∨ capacities s' = delete (keyOf ac) (capacities s)) ∧
    volumes s' !! (namespace c, req_Name req) = Some v ∧
    vol_Owner (vol_Spec v) = ac_NodeId (ac_Spec ac) ∧
    vol_Size (vol_Spec v) = ac_Size (ac_Spec ac) ∧
    vol_Location (vol_Spec v) = ac_Location (ac_Spec ac).
Proof.
  intros Hkeyed Hfree. unfold CreateVolume.
  destruct (decide (req_Name req = "")) as [|Hname]; [discriminate|].
  destruct (decide (req_VolumeCapabilities req = None)); [discriminate|].
  cbn zeta. rewrite bind_run.
  pose proof (ReadCR_Volume_spec c (req_Name req) s) as Hget.
  destruct (ReadCR c (req_Name req) s) as [[err|found] s1]; simpl in Hget;
    cbn [fst snd]; destruct Hget as (Hv1 & Hc1 & _ & _ & Hres); [|congruence].
  destruct err as [| |msg]; cbn [negb IsNotFound]; [|contradiction|discriminate].
  destruct (preferredNodeOf req) as [p|preferredNode]; [discriminate|].
  rewrite bind_run.
  pose proof (searchAvailableCapacity_SameStore c mapRange preferredNode
                (GetRequiredBytes (req_CapacityRange req)) s1) as (Hv2 & Hc2 & _).
  pose proof (searchAvailableCapacity_found c mapRange preferredNode
                (GetRequiredBytes (req_CapacityRange req)) s1) as Hfound.
  destruct (searchAvailableCapacity c mapRange preferredNode _ s1) as [[ac|] s2];
    simpl in Hv2, Hc2, Hfound; cbn [fst snd]; [|discriminate].
  destruct (Hfound ac eq_refl) as (k & Hns & Hac). rewrite Hc1 in Hac.
  rewrite bind_run.
  assert (Hfree2 : volumes s2 !! (namespace c, req_Name req) = None) by congruence.
  pose proof (CreateCR_Volume_spec c (newVolumeCR (req_Name req) ac) (req_Name req) s2
                Hfree2) as Hcreate.
  destruct (CreateCR c (newVolumeCR (req_Name req) ac) (req_Name req) s2)
    as [[e volumeCR] s3]; simpl in Hcreate; cbn [fst snd].
  destruct Hcreate as (Hc3 & _ & [(e' & [= -> ->] & _)|([= -> ->] & _ & Hv3 & _)]);
    [discriminate|].
  rewrite !bind_run.
  pose proof (client_Delete_AvailableCapacity_spec ac s3) as (Hv4 & Hc4).
  unfold DeleteCR. set (s4 := (client_Delete ac s3).2) in *.
  pose proof (spawn_store c req ac s4) as (Hv5 & Hc5).
  set (s5 := (spawn c req ac s4).2) in *.
  intros Hret.
  pose proof (awaitCreated_returned c ctx req _ s5 resp Hret) as [v Hv].
  pose proof (awaitCreated_Background c ctx req (newVolumeCR (req_Name req) ac) s5)
    as (Hc6 & Hbg).
  set (s6 := (awaitCreated c ctx req _ s5).2) in *.
  assert (Hvol5 : volumes s5
                  = <[keyOf (newVolumeCR (req_Name req) ac)
                      := newVolumeCR (req_Name req) ac]> (volumes s)) by congruence.
  assert (Hkeyed5 : volumesKeyed s5).
  { intros k' w. rewrite Hvol5.
    destruct (decide (keyOf (newVolumeCR (req_Name req) ac) = k')) as [<-|Hne].
    - rewrite lookup_insert_eq. intros [= <-]. reflexivity.
    - rewrite lookup_insert_ne by exact Hne. apply Hkeyed. }
  destruct (Hbg Hkeyed5) as (_ & Hid).
  destruct (Hid (namespace c, req_Name req) v Hname Hv) as (v0 & Hv0 & Hident).
  rewrite Hvol5 in Hv0.
  destruct (decide (keyOf (newVolumeCR (req_Name req) ac) = (namespace c, req_Name req)))
    as [Heq|Hne].
  2:{ rewrite lookup_insert_ne in Hv0 by exact Hne. congruence. }
  rewrite Heq, lookup_insert_eq in Hv0. injection Hv0 as <-.
  assert (Ho := f_equal (λ x, x.1.1.2) Hident).
  assert (Hs := f_equal (λ x, x.1.2) Hident).
  assert (Hl := f_equal (λ x, x.2) Hident). cbn in Ho, Hs, Hl.
  exists k, ac, v. split; [exact Hns|]. split; [exact Hac|].
  split; [|split; [exact Hv|]; split; [exact Ho|]; split; [exact Hs | exact Hl]].
  rewrite Hc6, Hc5. destruct Hc4 as [Hc4|Hc4]; rewrite Hc4, Hc3, Hc2, Hc1; auto.
Qed.

(** A [DeleteVolume] that succeeds on a stored volume, with its last call
    a success: the agent answered with a volume, and the capacity named
    after the owner and the answered location is in the store, found
    there or put there. *)
Lemma DeleteVolume_returned ToLower c ctx req s v resp :
  volumes s !! (namespace c, del_VolumeId req) = Some v →
  (DeleteVolume c ToLower ctx req s).1 = Returned resp →
  lastCallOk (DeleteVolume c ToLower ctx req s).2 →
  let s' := (DeleteVolume c ToLower ctx req s).2 in
  ∃ mgr reply localVolume,
    communicators c !! vol_Owner (vol_Spec v) = Some mgr ∧
    answer (DeleteLocalVolume mgr {| dlv_PvcUUID := del_VolumeId req |}) = inr reply ∧
    dlv_Volume reply = Some localVolume ∧
    let name := vol_Owner (vol_Spec v) +:+ "-" +:+ ToLower (vol_Location localVolume) in
    (∃ found, capacities s !! (namespace c, name) = Some found ∧
              capacities s' = capacities s) ∨
    (∃ cr, capacities s !! (namespace c, name) = None ∧
           capacities s' = <[(namespace c, name) := cr]> (capacities s) ∧
           sizeOf cr = vol_Size localVolume).
Proof.
  intros Hv. unfold DeleteVolume.
  destruct (decide (del_VolumeId req = "")); [discriminate|].
  cbn zeta. rewrite bind_run.
  pose proof (ReadCR_Volume_spec c (del_VolumeId req) s) as Hget.
  destruct (ReadCR c (del_VolumeId req) s) as [[err|volume] s1]; simpl in Hget;
    cbn [fst snd]; destruct Hget as (Hv1 & Hc1 & _ & _ & Hres).
  { destruct (IsNotFound err) eqn:Hnf; [|discriminate].
    destruct err; try discriminate. congruence. }
  assert (volume = v) as -> by congruence.
  destruct (communicators c !! vol_Owner (vol_Spec v)) as [mgr|]; [|discriminate].
  rewrite bind_run. cbn [fst snd].
  set (s2 := (logCall _ _ s1).2).
  assert (Hc2 : capacities s2 = capacities s) by exact Hc1.
  unfold invoke.
  destruct (WithTimeout ctx CreateLocalVolumeRequestTimeout
            <=? elapsed (DeleteLocalVolume mgr {| dlv_PvcUUID := del_VolumeId req |}))%nat;
    [discriminate|].
  destruct (answer (DeleteLocalVolume mgr {| dlv_PvcUUID := del_VolumeId req |}))
    as [e|reply] eqn:Hanswer; [discriminate|].
  destruct (dlv_Ok reply); cbn [negb]; [|discriminate].
  destruct (dlv_Volume reply) as [localVolume|] eqn:Hlocal; [|discriminate].
  rewrite bind_run. unfold DeleteCR.
  pose proof (client_Delete_Volume_spec v s2) as (Hc3 & Hdel).
  destruct (client_Delete v s2) as [e s3]; cbn [fst snd] in *.
  destruct e as [e|]; [discriminate|].
  cbn zeta. rewrite bind_run.
  set (name := vol_Owner (vol_Spec v) +:+ "-" +:+ ToLower (vol_Location localVolume)).
  match goal with
  | |- context [CreateCR c ?x name s3] => set (cr := x)
  end.
  pose proof (CreateCR_AvailableCapacity_spec c cr name s3) as (_ & Hcreate).
  destruct (CreateCR c cr name s3) as [res s4]; cbn [fst snd] in *.
  rewrite ret_run. cbn [fst snd].
  intros _ Hlast. exists mgr, reply, localVolume.
  split; [reflexivity|]. split; [exact Hanswer|]. split; [exact Hlocal|].
  fold name. rewrite Hc3, Hc2 in Hcreate.
  destruct Hcreate as [(found & Hfound & Hc4)|[(Hnone & Hc4)|Hfail]].
  - left. exists found. split; assumption.
  - right. exists cr. split; [exact Hnone|]. split; [exact Hc4 | reflexivity].
  - contradiction.
Qed.

(** After a successful [DeleteVolume] on a store keyed by name no record
    of the volume is left: a second [DeleteVolume] finds nothing to delete. *)
Lemma DeleteVolume_removes_record ToLower c ctx req s resp :
  volumesKeyed s →
  (DeleteVolume c ToLower ctx req s).1 = Returned resp →
  volumes (DeleteVolume c ToLower ctx req s).2 !! (namespace c, del_VolumeId req) = None.
Proof.
  intros Hkeyed. unfold DeleteVolume.
  destruct (decide (del_VolumeId req = "")); [discriminate|].
  cbn zeta. rewrite bind_run.
  pose proof (ReadCR_Volume_spec c (del_VolumeId req) s) as Hget.
  destruct (ReadCR c (del_VolumeId req) s) as [[err|v] s1]; simpl in Hget;
    cbn [fst snd]; destruct Hget as (Hv1 & _ & _ & _ & Hres).
  { destruct err; cbn [IsNotFound]; try discriminate.
    rewrite ret_run. cbn [fst snd]. intros _. rewrite Hv1. exact Hres. }
  destruct (communicators c !! vol_Owner (vol_Spec v)) as [mgr|]; [|discriminate].
  rewrite bind_run. cbn [fst snd].
  set (s2 := (logCall _ _ s1).2).
  assert (Hv2 : volumes s2 = volumes s) by exact Hv1.
  destruct (invoke _ _) as [e|reply]; [discriminate|].
  destruct (dlv_Ok reply); cbn [negb]; [|discriminate].
  destruct (dlv_Volume reply) as [localVolume|]; [|discriminate].
  rewrite bind_run. unfold DeleteCR.
  pose proof (client_Delete_Volume_spec v s2) as (_ & Hdel).
  destruct (client_Delete v s2) as [e s3]; cbn [fst snd] in *.
  destruct e as [e|]; [discriminate|].
  destruct Hdel as [[e [=]]|(_ & Hv3)].
  cbn zeta. rewrite bind_run.
  match goal with
  | |- context [CreateCR c ?x ?name s3] =>
      pose proof (CreateCR_AvailableCapacity_spec c x name s3) as (Hv4 & _);
      destruct (CreateCR c x name s3) as [res s4]
  end.
  cbn [fst snd] in *. rewrite ret_run. cbn [fst snd]. intros _.
  rewrite Hv4, Hv3, Hv2, <- (Hkeyed _ _ Hres). apply lookup_delete_eq.
Qed.

(** ** Create, then delete (C7) *)

(** Settles [agentReportsDisk] on a concrete state by running it. *)
Ltac agent_reports :=
  let Hv := fresh in let Hm := fresh in let Ha := fresh in let Hl := fresh in
  intros ? ? ? ? Hv Hm Ha Hl;
  vm_compute in Hv; injection Hv as <-;
  vm_compute in Hm; injection Hm as <-;
  vm_compute in Ha; injection Ha as <-;
  vm_compute in Hl; injection Hl as <-;
  split; reflexivity.

(** The round trip fails on a store that already holds the volume (the
    request resumes and reserves nothing, the deletion creates a capacity
    that was not there), and on a store whose API server fails the
    re-creation of the capacity (the deletion still succeeds, the capacity
    is lost). *)
Lemma roundTrip_fails :
  ¬ roundTrip controllerA lowerASCII mapOrder tenSeconds tenSeconds
      (requestFor "v1" 40 None) createdStore ∧
  ¬ roundTrip controllerA lowerASCII mapOrder tenSeconds tenSeconds
      (requestFor "v1" 40 None) flakyStore.
Proof.
  split; intros H; unfold roundTrip in H; cbn zeta in H.
  - specialize (H {| resp_Volume :=
                       {| CapacityBytes := 50; VolumeId := "v1"; VolumeContext := ∅;
                          AccessibleTopology :=
                            [ {| Segments := {[ NodeIDTopologyKey := "node-a" ]} |} ] |} |}
                  Build_DeleteVolumeResponse).
    assert (Hs := H ltac:(vm_compute; reflexivity) ltac:(vm_compute; reflexivity)
                    ltac:(agent_reports) ("default", "node-a-sn1")).
    vm_compute in Hs. discriminate.
  - specialize (H {| resp_Volume :=
                       {| CapacityBytes := 50; VolumeId := "v1"; VolumeContext := ∅;
                          AccessibleTopology :=
                            [ {| Segments := {[ NodeIDTopologyKey := "node-a" ]} |} ] |} |}
                  Build_DeleteVolumeResponse).
    assert (Hs := H ltac:(vm_compute; reflexivity) ltac:(vm_compute; reflexivity)
                    ltac:(agent_reports) ("default", "node-a-sn1")).
    vm_compute in Hs. discriminate.
Qed.

(** C7, amended.  On a store keyed as the data model has it and holding
    no volume of the request's name, a successful [CreateVolume] followed
    by a successful [DeleteVolume] of that name whose last call, the
    re-creation of the capacity, succeeds leaves the capacities with the
    keys and the sizes of the start, provided the agent's answer to the
    deletion carries the size and the location of the reserved disk. *)
Theorem create_delete_restores_capacities ToLower c mapRange ctx ctx' req s resp resp' :
  volumesKeyed s →
  capacitiesKeyed ToLower s →
  volumes s !! (namespace c, req_Name req) = None →
  let created := CreateVolume c mapRange ctx req s in
  let deleted := DeleteVolume c ToLower ctx' {| del_VolumeId := req_Name req |} created.2 in
  created.1 = Returned resp →
  deleted.1 = Returned resp' →
  agentReportsDisk c (req_Name req) created.2 →
  lastCallOk deleted.2 →
  sameCapacities s deleted.2.
Proof.
  intros Hvk Hck Hfree created deleted Hcreated Hdeleted Hagent Hlast.
  destruct (CreateVolume_fresh_returned c mapRange ctx req s resp Hvk Hfree Hcreated)
    as (k & ac & v & Hns & Hac & Hcaps & Hv & Ho & Hs & Hl).
  fold created in Hcaps, Hv.
  destruct (DeleteVolume_returned ToLower c ctx' {| del_VolumeId := req_Name req |}
              created.2 v resp' Hv Hdeleted Hlast)
    as (mgr & reply & localVolume & Hmgr & Hreply & Hlocal & Hre).
  fold deleted in Hre. cbn [del_VolumeId] in *.
  destruct (Hagent v mgr reply localVolume Hv Hmgr Hreply Hlocal) as (Hsize & Hloc).
  destruct (Hck k ac Hac) as (Hkey & Hconv).
  assert (Hk : (namespace c,
                vol_Owner (vol_Spec v) +:+ "-" +:+ ToLower (vol_Location localVolume)) = k).
  { rewrite Ho, Hloc, Hl, <- Hconv, <- Hns, <- Hkey. reflexivity. }
  cbn zeta in Hre. rewrite Hk in Hre. rewrite Hkey in Hcaps.
  intros k'.
  destruct Hre as [(found & Hfound & Hsame)|(cr & Hnone & Hput & Hcr)].
  - destruct Hcaps as [Hcaps|Hcaps].
    + rewrite Hsame, Hcaps. reflexivity.
    + rewrite Hcaps, lookup_delete_eq in Hfound. discriminate.
  - destruct Hcaps as [Hcaps|Hcaps].
    + rewrite Hcaps, Hac in Hnone. discriminate.
    + rewrite Hput, Hcaps. destruct (decide (k = k')) as [<-|Hne].
      * rewrite lookup_insert_eq, Hac. cbn. f_equal. unfold sizeOf in *. congruence.
      * rewrite lookup_insert_ne, lookup_delete_ne by exact Hne. reflexivity.
Qed.

Lemma twoDisks_capacitiesKeyed : capacitiesKeyed lowerASCII twoDisks.
Proof.
  intros k a Ha. apply elem_of_list_to_map_2 in Ha.
  cbn in Ha. rewrite !elem_of_cons in Ha.
  destruct Ha as [[= -> ->]|[[= -> ->]|Ha]]; [split; reflexivity..|].
  inversion Ha.
Qed.

Example create_delete_restores_capacities_witness :
  sameCapacities twoDisks
    (DeleteVolume controllerA lowerASCII tenSeconds {| del_VolumeId := "v1" |}
       (CreateVolume controllerA mapOrder tenSeconds (requestFor "v1" 40 None) twoDisks).2).2.
Proof.
  apply (create_delete_restores_capacities lowerASCII controllerA mapOrder tenSeconds tenSeconds
           (requestFor "v1" 40 None) twoDisks
           {| resp_Volume :=
                {| CapacityBytes := 50; VolumeId := "v1"; VolumeContext := ∅;
                   AccessibleTopology :=
                     [ {| Segments := {[ NodeIDTopologyKey := "node-a" ]} |} ] |} |}
           Build_DeleteVolumeResponse).
  - intros k v Hv. vm_compute in Hv. discriminate.
  - exact twoDisks_capacitiesKeyed.
  - reflexivity.
  - vm_compute. reflexivity.
  - vm_compute. reflexivity.
  - agent_reports.
  - vm_compute. reflexivity.
Defined.

(** * Further properties of the code *)

(** ** The scheduler *)

(** X1.  When the list of capacities succeeds, the capacity the scheduler
    returns is one of the listed capacities of the node it settles on,
    holds the required bytes, is smaller than [MaxInt64], and no listed
    capacity of that node that holds the required bytes is smaller; it
    returns none only when no capacity of that node below [MaxInt64] holds
    the required bytes. *)
Theorem searchAvailableCapacity_smallest_fit
    c mapRange preferredNode requiredBytes s items :
  (ReadList c (T:=AvailableCapacity) s).1 = inr items →
  let node := chosenNode mapRange preferredNode items in
  match (searchAvailableCapacity c mapRange preferredNode requiredBytes s).1 with
  | Some ac =>
      ac ∈ items ∧ onNode node ac ∧ requiredBytes ≤ sizeOf ac < MaxInt64 ∧
      ∀ x, x ∈ items → onNode node x → requiredBytes ≤ sizeOf x → sizeOf ac ≤ sizeOf x
  | None =>
      ∀ x, x ∈ items → onNode node x → ¬ (requiredBytes ≤ sizeOf x < MaxInt64)
  end.
Proof.
  intros Hlist node. unfold searchAvailableCapacity.
  rewrite bind_run, Hlist. cbn. fold (chosenNode mapRange preferredNode items). fold node.
  rewrite acNodeMapping_lookup, bestFit_unfold.
  pose proof (bestFit_loop requiredBytes (filter (onNode node) items)) as H.
  unfold bestFitInv in H.
  destruct (fold_left _ (filter (onNode node) items) _).2 as [ac|].
  - destruct H as (_ & Hin & Hfit & Hmin). apply list_elem_of_filter in Hin as [Hnode Hin].
    repeat split; try assumption; try apply Hfit.
    intros x Hx Hxn. apply Hmin. apply list_elem_of_filter. split; assumption.
  - destruct H as (_ & Hnone). intros x Hx Hxn. apply Hnone.
    apply list_elem_of_filter. split; assumption.
Qed.

Example searchAvailableCapacity_smallest_fit_witness :
  match (searchAvailableCapacity controllerA mapOrder "node-a" 40 twoDisks).1 with
  | Some ac => sizeOf ac < MaxInt64
  | None => True
  end.
Proof.
  pose proof (searchAvailableCapacity_smallest_fit controllerA mapOrder "node-a" 40
                twoDisks
                [capacityOf "node-a" "SN1" 50; capacityOf "node-a" "SN2" 100]
                ltac:(vm_compute; reflexivity)) as H.
  cbn zeta in H.
  destruct (searchAvailableCapacity controllerA mapOrder "node-a" 40 twoDisks).1;
    [|exact I].
  destruct H as (_ & _ & [_ H] & _). exact H.
Defined.

(** X2.  The scheduler only reads: it makes one call, the list of the
    capacities of the controller's namespace, changes no volume, no
    capacity and no task, and what it returns is a capacity stored in that
    namespace. *)
Theorem searchAvailableCapacity_reads_only c mapRange preferredNode requiredBytes s :
  let r := searchAvailableCapacity c mapRange preferredNode requiredBytes s in
  volumes r.2 = volumes s ∧ capacities r.2 = capacities s ∧
  goroutines r.2 = goroutines s ∧
  (∃ ok, calls r.2 = Ev (CallList (namespace c)) ok :: calls s) ∧
  (∀ ac, r.1 = Some ac → ∃ k, k.1 = namespace c ∧ capacities s !! k = Some ac).
Proof.
  cbn zeta.
  pose proof (searchAvailableCapacity_SameStore c mapRange preferredNode requiredBytes s)
    as (Hv & Hc & Hg).
  split; [exact Hv|]. split; [exact Hc|]. split; [exact Hg|]. split.
  - unfold searchAvailableCapacity. rewrite bind_run.
    assert (Hlog : ∃ ok, calls (ReadList c (T:=AvailableCapacity) s).2
                         = Ev (CallList (namespace c)) ok :: calls s).
    { client_cases s; eauto. }
    destruct (ReadList c s) as [[e|items] s1]; cbn [fst snd] in *; exact Hlog.
  - intros ac Hac. eapply searchAvailableCapacity_found. exact Hac.
Qed.

Lemma acNodeMapping_fold_lookup node acs : ∀ m : gmap string (list AvailableCapacity),
  fold_left
    (λ acNodeMap ac,
       <[ac_NodeId (ac_Spec ac) :=
           (default [] (acNodeMap !! ac_NodeId (ac_Spec ac)) ++ [ac])%list]> acNodeMap)
    acs m !! node
  = match filter (onNode node) acs with
    | [] => m !! node
    | group => Some (default [] (m !! node) ++ group)%list
    end.
Proof.
  induction acs as [|ac acs IH]; intros m.
  - reflexivity.
  - cbn [fold_left]. rewrite IH, filter_cons.
    destruct (decide (onNode node ac)) as [Hon|Hoff]; unfold onNode in *.
    + rewrite Hon, lookup_insert_eq. cbn [default].
      destruct (filter _ acs); unfold id; rewrite <- ?app_assoc; reflexivity.
    + rewrite lookup_insert_ne by exact Hoff. reflexivity.
Qed.

(** X3.  [acNodeMapping] groups by node: the group of a node is the list
    of the capacities of that node, in the order of the list, and a node
    without a capacity has no group. *)
Theorem acNodeMapping_groups node acs :
  acNodeMapping acs !! node
  = match filter (onNode node) acs with
    | [] => None
    | group => Some group
    end.
Proof.
  unfold acNodeMapping. rewrite acNodeMapping_fold_lookup, lookup_empty. reflexivity.
Qed.

Lemma mostCapacitiesStep_cases n0 len0 n (acs : list AvailableCapacity) :
  ((len0 < length acs)%nat ∧ mostCapacitiesStep (n0, len0) (n, acs) = (n, length acs)) ∨
  ((length acs ≤ len0)%nat ∧ mostCapacitiesStep (n0, len0) (n, acs) = (n0, len0)).
Proof.
  unfold mostCapacitiesStep.
  destruct (Nat.ltb_spec len0 (length acs)); [left | right]; split; auto.
Qed.

Lemma mostCapacities_fold l : ∀ n0 len0,
  let r := fold_left mostCapacitiesStep l (n0, len0) in
  (len0 ≤ r.2)%nat ∧
  (∀ n acs, (n, acs) ∈ l → (length acs ≤ r.2)%nat) ∧
  (r = (n0, len0) ∨ ∃ acs, (r.1, acs) ∈ l ∧ length acs = r.2).
Proof.
  induction l as [|[n acs] l IH]; intros n0 len0; cbn [fold_left].
  - cbn. split; [lia|]. split; [|left; reflexivity]. intros n acs H. inversion H.
  - destruct (mostCapacitiesStep_cases n0 len0 n acs) as [[Hlt ->]|[Hge ->]].
    + destruct (IH n (length acs)) as (Hle & Hall & Hres). cbn zeta.
      split; [lia|]. split.
      * intros n' acs' Hin. apply elem_of_cons in Hin as [[= -> ->]|Hin]; [exact Hle|].
        eapply Hall; exact Hin.
      * right. destruct Hres as [->|(acs' & Hin & Hlen)].
        -- exists acs. split; [apply elem_of_cons; left; reflexivity | reflexivity].
        -- exists acs'. split; [apply elem_of_cons; right; exact Hin | exact Hlen].
    + destruct (IH n0 len0) as (Hle & Hall & Hres). cbn zeta.
      split; [exact Hle|]. split.
      * intros n' acs' Hin. apply elem_of_cons in Hin as [[= -> ->]|Hin]; [lia|].
        eapply Hall; exact Hin.
      * destruct Hres as [Hres|(acs' & Hin & Hlen)]; [left; exact Hres|].
        right. exists acs'. split; [apply elem_of_cons; right; exact Hin | exact Hlen].
Qed.

Lemma mostCapacities_unfold mapRange m :
  mostCapacities mapRange m = (fold_left mostCapacitiesStep (mapRange m) ("", 0%nat)).1.
Proof.
  unfold mostCapacities. f_equal. apply fold_left_pointwise.
  intros [n len] [n' acs]. reflexivity.
Qed.

(** X4.  When the range visits every entry of the node map, the node
    picked for a request without a preferred node holds at least as many
    of the listed capacities as any other node. *)
Theorem mostCapacities_is_largest mapRange items node :
  (∀ m, mapRange m ≡ₚ map_to_list m) →
  let chosen := chosenNode mapRange "" items in
  (length (filter (onNode node) items) ≤ length (filter (onNode chosen) items))%nat.
Proof.
  intros Hrange chosen.
  assert (Hchosen : chosen = mostCapacities mapRange (acNodeMapping items)) by reflexivity.
  rewrite mostCapacities_unfold in Hchosen.
  set (m := acNodeMapping items) in *.
  destruct (mostCapacities_fold (mapRange m) "" 0%nat) as (_ & Hall & Hres).
  cbn zeta in Hall, Hres.
  set (r := fold_left mostCapacitiesStep (mapRange m) ("", 0%nat)) in *.
  assert (Hle : ∀ n, (length (default [] (m !! n)) ≤ r.2)%nat).
  { intros n. destruct (m !! n) as [acs|] eqn:Hn; [|cbn; lia].
    apply (Hall n acs). rewrite Hrange. apply elem_of_map_to_list. exact Hn. }
  assert (Heq : length (default [] (m !! chosen)) = r.2).
  { destruct Hres as [Hres|(acs & Hin & Hlen)].
    - specialize (Hle chosen). rewrite Hres in *. cbn in *. lia.
    - rewrite Hrange in Hin. apply elem_of_map_to_list in Hin.
      rewrite Hchosen, Hin. exact Hlen. }
  specialize (Hle node). unfold m in Hle, Heq.
  rewrite acNodeMapping_lookup in Hle, Heq. lia.
Qed.

Example mostCapacities_is_largest_witness :
  (length (filter (onNode "node-a")
             [capacityOf "node-a" "SN1" 50; capacityOf "node-b" "SN7" 70;
              capacityOf "node-a" "SN2" 100])
   ≤ length (filter (onNode (chosenNode mapOrder ""
                               [capacityOf "node-a" "SN1" 50; capacityOf "node-b" "SN7" 70;
                                capacityOf "node-a" "SN2" 100]))
               [capacityOf "node-a" "SN1" 50; capacityOf "node-b" "SN7" 70;
                capacityOf "node-a" "SN2" 100]))%nat.
Proof.
  apply (mostCapacities_is_largest mapOrder
           [capacityOf "node-a" "SN1" 50; capacityOf "node-b" "SN7" 70;
            capacityOf "node-a" "SN2" 100] "node-a").
  intros m. reflexivity.
Defined.

(** ** changeVolumeStatus *)

Lemma failures_cons f fs :
  failures (f :: fs) = ((if f is Some _ then 1 else 0) + failures fs)%nat.
Proof.
  unfold failures. rewrite filter_cons.
  destruct f as [msg|]; destruct (decide _) as [H|H]; cbn.
  - reflexivity.
  - contradiction H. eauto.
  - destruct H as [? [=]].
  - reflexivity.
Qed.

(** As [client_cases], keeping what the pending faults were. *)
Ltac client_verdict s :=
  let Hf := fresh "Hf" in
  unfold CreateCR, ReadCR, ReadList, UpdateCR, DeleteCR,
    client_Get, client_List, client_Create, client_Update, client_Delete,
    nextFault, logCall;
  rewrite ?bind_run; cbn [fst snd];
  destruct (faults s) as [|[?|] ?] eqn:Hf; cbn;
  repeat match goal with
         | |- context [match ?m !! ?k with _ => _ end] => destruct (m !! k) eqn:?; cbn
         end;
  rewrite ?Hf.

(** A read of a volume by cases on the API server's verdict. *)
Lemma client_Get_Volume_verdict key s :
  let r := client_Get (T:=Volume) key s in
  SameStore s r.2 ∧ faults r.2 = tail (faults s) ∧
  (∃ ok, calls r.2 = Ev (CallGet key) ok :: calls s) ∧
  match head (faults s) with
  | Some (Some msg) => r.1 = inl (ServerError msg)
  | _ => r.1 = match volumes s !! key with Some v => inr v | None => inl NotFound end
  end.
Proof.
  client_verdict s; repeat split; eauto.
Qed.

(** An update of a volume by cases on the API server's verdict. *)
Lemma client_Update_Volume_verdict v s :
  let r := client_Update (T:=Volume) v s in
  capacities r.2 = capacities s ∧ goroutines r.2 = goroutines s ∧
  faults r.2 = tail (faults s) ∧
  ((∃ e, r.1 = Some e ∧ volumes r.2 = volumes s ∧
         calls r.2 = Ev (CallUpdate (ObjVolume v)) false :: calls s ∧
         (head (faults s) = None ∨ head (faults s) = Some None →
          volumes s !! keyOf v = None)) ∨
   (r.1 = None ∧ volumes r.2 = <[keyOf v := v]> (volumes s) ∧
    calls r.2 = Ev (CallUpdate (ObjVolume v)) true :: calls s)).
Proof.
  client_verdict s; repeat split; eauto 10.
  all: left; eexists; repeat split; eauto; intros [[=]|[=]].
Qed.

Lemma readAttempts_calls c attempts volumeID v0 : ∀ s,
  ∃ l, calls (readAttempts c attempts volumeID v0 s).2 = (l ++ calls s)%list ∧
       (length l ≤ attempts)%nat.
Proof.
  induction attempts as [|n IH]; intros s; cbn.
  - exists []. split; [reflexivity | cbn; lia].
  - rewrite bind_run. unfold ReadCR.
    destruct (client_Get_Volume_verdict (namespace c, volumeID) s)
      as (_ & _ & [ok Hl] & _).
    destruct (client_Get (namespace c, volumeID) s) as [[e|v] s1]; cbn [fst snd] in *.
    + destruct (IH s1) as (l & Hl1 & Hlen). exists (l ++ [Ev (CallGet (namespace c, volumeID)) ok])%list.
      split; [rewrite Hl1, Hl, <- app_assoc; reflexivity|].
      rewrite length_app. cbn. lia.
    + exists [Ev (CallGet (namespace c, volumeID)) ok]. split; [exact Hl | cbn; lia].
Qed.

Lemma updateAttempts_calls attempts v : ∀ s,
  let r := updateAttempts attempts v s in
  capacities r.2 = capacities s ∧ goroutines r.2 = goroutines s ∧
  ∃ l, calls r.2 = (l ++ calls s)%list ∧ (length l ≤ attempts)%nat ∧
       if r.1 then
         volumes r.2 = <[keyOf v := v]> (volumes r.2) ∧ volumes r.2 !! keyOf v = Some v ∧
         ∃ rest, l = Ev (CallUpdate (ObjVolume v)) true :: rest
       else volumes r.2 = volumes s ∧ length l = attempts.
Proof.
  induction attempts as [|n IH]; intros s; cbn.
  - repeat split. exists []. repeat split. cbn. lia.
  - rewrite bind_run. unfold UpdateCR.
    destruct (client_Update_Volume_verdict v s) as (Hc & Hg & _ & Hcases).
    destruct (client_Update v s) as [e s1]; cbn [fst snd] in *.
    destruct Hcases as [(e' & -> & Hv & Hl & _)|(-> & Hv & Hl)].
    + destruct (IH s1) as (Hc1 & Hg1 & l & Hl1 & Hlen & Hres).
      split; [congruence|]. split; [congruence|].
      exists (l ++ [Ev (CallUpdate (ObjVolume v)) false])%list.
      split; [rewrite Hl1, Hl, <- app_assoc; reflexivity|].
      split; [rewrite length_app; cbn; lia|].
      destruct (updateAttempts n v s1).1.
      * destruct Hres as (H1 & H2 & rest & ->). split; [exact H1|]. split; [exact H2|].
        eexists. reflexivity.
      * destruct Hres as (H1 & H2). split; [congruence|]. rewrite length_app. cbn. lia.
    + rewrite ret_run. cbn [fst snd]. split; [exact Hc|]. split; [exact Hg|].
      exists [Ev (CallUpdate (ObjVolume v)) true]. split; [exact Hl|]. split; [cbn; lia|].
      split; [rewrite Hv, insert_insert_eq; reflexivity|].
      split; [rewrite Hv; apply lookup_insert_eq|]. exists []. reflexivity.
Qed.

(** X5.  [changeVolumeStatus] is bounded: it makes at most twenty store
    calls and never touches a capacity.  It returns an error only when no
    update went through, and then the volumes are what they were; when it
    returns none, its last call is the successful update of a volume that
    carries the new status and is now stored under its own name. *)
Theorem changeVolumeStatus_bounded c volumeID newStatus s :
  let r := changeVolumeStatus c volumeID newStatus s in
  capacities r.2 = capacities s ∧
  ∃ l, calls r.2 = (l ++ calls s)%list ∧ (length l ≤ 20)%nat ∧
       match r.1 with
       | Some e =>
           volumes r.2 = volumes s ∧
           e = PlainError ("unable to persist status to "
                           +:+ OperationalStatus_name newStatus
                           +:+ " for volume " +:+ volumeID)
       | None =>
           ∃ v rest, l = Ev (CallUpdate (ObjVolume v)) true :: rest ∧
                     vol_Status (vol_Spec v) = newStatus ∧
                     volumes r.2 !! keyOf v = Some v
       end.
Proof.
  cbn zeta. unfold changeVolumeStatus. rewrite bind_run.
  destruct (readAttempts_spec c 10 volumeID Volume_zero s) as ((Hv0 & Hc0 & _) & _).
  destruct (readAttempts_calls c 10 volumeID Volume_zero s) as (l0 & Hl0 & Hlen0).
  destruct (readAttempts c 10 volumeID Volume_zero s) as [v s1]; cbn [fst snd] in *.
  rewrite bind_run.
  destruct (updateAttempts_calls 10 (setStatus newStatus v) s1)
    as (Hc1 & _ & l1 & Hl1 & Hlen1 & Hres).
  destruct (updateAttempts 10 (setStatus newStatus v) s1) as [ok s2]; cbn [fst snd] in *.
  destruct ok; rewrite ret_run; cbn [fst snd].
  - split; [congruence|]. exists (l1 ++ l0)%list.
    split; [rewrite Hl1, Hl0, app_assoc; reflexivity|].
    split; [rewrite length_app; lia|].
    destruct Hres as (_ & Hstored & rest & ->).
    exists (setStatus newStatus v), (rest ++ l0)%list.
    split; [reflexivity|]. split; [reflexivity | exact Hstored].
  - split; [congruence|]. exists (l1 ++ l0)%list.
    split; [rewrite Hl1, Hl0, app_assoc; reflexivity|].
    split; [rewrite length_app; lia|].
    destruct Hres as (Hv1 & _). split; [congruence | reflexivity].
Qed.

Lemma failures_tail fs : (failures (tail fs) ≤ failures fs)%nat.
Proof.
  destruct fs as [|f fs]; [reflexivity|]. rewrite failures_cons. cbn [tail].
  destruct f; lia.
Qed.

Lemma readAttempts_rides c attempts volumeID v0 v : ∀ s,
  (failures (faults s) < attempts)%nat →
  volumes s !! (namespace c, volumeID) = Some v →
  let r := readAttempts c attempts volumeID v0 s in
  r.1 = v ∧ SameStore s r.2 ∧ (failures (faults r.2) ≤ failures (faults s))%nat.
Proof.
  induction attempts as [|n IH]; intros s Hfail Hv; [lia|].
  cbn. rewrite bind_run. unfold ReadCR.
  destruct (client_Get_Volume_verdict (namespace c, volumeID) s)
    as (Hsame & Hf & _ & Hres).
  destruct (client_Get (namespace c, volumeID) s) as [res s1]; cbn [fst snd] in *.
  pose proof (failures_tail (faults s)) as Htail. rewrite <- Hf in Htail.
  destruct (faults s) as [|[msg|] rest] eqn:Hfs; cbn [head] in Hres; subst res;
    rewrite ?Hv; cbn [fst snd].
  - rewrite ret_run. cbn. auto.
  - rewrite failures_cons in Hfail. cbn [tail] in Hf.
    destruct (IH s1) as (Hr & Hsame1 & Hf1).
    + rewrite Hf. lia.
    + destruct Hsame as (Hvol & _). rewrite Hvol. exact Hv.
    + split; [exact Hr|]. split; [etransitivity; eassumption | lia].
  - rewrite ret_run. cbn. auto.
Qed.

Lemma updateAttempts_rides attempts v : ∀ s,
  (failures (faults s) < attempts)%nat →
  is_Some (volumes s !! keyOf v) →
  let r := updateAttempts attempts v s in
  r.1 = true ∧ volumes r.2 = <[keyOf v := v]> (volumes s) ∧
  capacities r.2 = capacities s.
Proof.
  induction attempts as [|n IH]; intros s Hfail [old Hold]; [lia|].
  cbn. rewrite bind_run. unfold UpdateCR.
  destruct (client_Update_Volume_verdict v s) as (Hc & _ & Hf & Hcases).
  destruct (client_Update v s) as [e s1]; cbn [fst snd] in *.
  destruct Hcases as [(e' & -> & Hv & _ & Hserved)|(-> & Hv & _)].
  - destruct (faults s) as [|[msg|] rest] eqn:Hfs; cbn [head tail] in *.
    + rewrite Hserved in Hold by auto. discriminate.
    + rewrite failures_cons in Hfail.
      destruct (IH s1) as (Hr & Hv1 & Hc1).
      * rewrite Hf. lia.
      * rewrite Hv. eauto.
      * split; [exact Hr|]. split; congruence.
    + rewrite Hserved in Hold by auto. discriminate.
  - rewrite ret_run. cbn. auto.
Qed.

(** X6.  The retries of [changeVolumeStatus] ride out nine failures: when
    the volume is stored under its own name and the API server fails at
    most nine of the coming calls, the status change goes through: no
    error, and the stored volume is the old one with the new status and
    annotation. *)
Theorem changeVolumeStatus_rides_out_failures c volumeID newStatus s v :
  volumes s !! (namespace c, volumeID) = Some v →
  keyOf v = (namespace c, volumeID) →
  (failures (faults s) ≤ 9)%nat →
  let r := changeVolumeStatus c volumeID newStatus s in
  r.1 = None ∧
  volumes r.2 = <[(namespace c, volumeID) := setStatus newStatus v]> (volumes s) ∧
  capacities r.2 = capacities s.
Proof.
  intros Hv Hkey Hfail. cbn zeta. unfold changeVolumeStatus. rewrite bind_run.
  destruct (readAttempts_rides c 10 volumeID Volume_zero v s)
    as (Hr & (Hv1 & Hc1 & _) & Hf1); [lia | exact Hv |].
  destruct (readAttempts c 10 volumeID Volume_zero s) as [v' s1]; cbn [fst snd] in *.
  subst v'. rewrite bind_run.
  destruct (updateAttempts_rides 10 (setStatus newStatus v) s1) as (Hok & Hv2 & Hc2).
  - lia.
  - change (keyOf (setStatus newStatus v)) with (keyOf v). rewrite Hkey, Hv1. eauto.
  - destruct (updateAttempts 10 (setStatus newStatus v) s1) as [ok s2];
      cbn [fst snd] in *. subst ok. rewrite ret_run. cbn [fst snd].
    change (keyOf (setStatus newStatus v)) with (keyOf v) in Hv2.
    split; [reflexivity|]. split; congruence.
Qed.

Example changeVolumeStatus_rides_out_failures_witness :
  (changeVolumeStatus controllerA "v1" OperationalStatus_Created nineFailures).1 = None.
Proof.
  apply (changeVolumeStatus_rides_out_failures controllerA "v1"
           OperationalStatus_Created nineFailures
           (newVolumeCR "v1" (capacityOf "node-a" "SN1" 50))).
  - reflexivity.
  - reflexivity.
  - vm_compute. lia.
Defined.



(** ** waitVCRStatus *)

Lemma find_status_spec (statuses : list OperationalStatus) (current st : OperationalStatus) :
  find (λ s, bool_decide (current = s)) statuses = Some st →
  st = current ∧ current ∈ statuses.
Proof.
  induction statuses as [|x rest IH]; cbn; [discriminate|].
  destruct (bool_decide_reflect (current = x)) as [->|Hne].
  - intros [= ->]. split; [reflexivity | apply elem_of_cons; left; reflexivity].
  - intros H. destruct (IH H) as (-> & Hin). split; [reflexivity|].
    apply elem_of_cons. right. exact Hin.
Qed.

Lemma waitVCRStatus_status c polls volumeID statuses : ∀ s reached st,
  (waitVCRStatus c polls volumeID statuses s).1 = inr (reached, st) →
  if reached then
    ∃ status v,
      st = Some status ∧ status ∈ statuses ∧
      volumes (waitVCRStatus c polls volumeID statuses s).2 !! (namespace c, volumeID)
      = Some v ∧
      vol_Status (vol_Spec v) = status
  else st = None.
Proof.
  induction polls as [|n IH]; intros s reached st; cbn.
  - intros [= <- <-]. reflexivity.
  - rewrite bind_run.
    destruct (sleepSecond c s) as [[p|] s1]; cbn [fst snd]; [discriminate|].
    rewrite bind_run.
    pose proof (ReadCR_Volume_spec c volumeID s1) as Hget.
    destruct (ReadCR c volumeID s1) as [[e|v] s2]; simpl in Hget; cbn [fst snd].
    + apply IH.
    + destruct (find _ statuses) as [status|] eqn:Hfind; [|apply IH].
      rewrite ret_run. cbn [fst snd]. intros [= <- <-].
      apply find_status_spec in Hfind as (-> & Hin).
      destruct Hget as (Hv & _ & _ & _ & Hsome).
      exists (vol_Status (vol_Spec v)), v. rewrite Hv. auto.
Qed.

(** X8.  What the status waiter reports is true when it returns: a
    reported status is one of the statuses asked for and is the status of
    the volume stored under the name at that moment; when the polls run
    out it reports no status. *)
Theorem waitVCRStatus_reports_stored c polls volumeID statuses s reached st :
  (waitVCRStatus c polls volumeID statuses s).1 = inr (reached, st) →
  if reached then
    ∃ status v,
      st = Some status ∧ status ∈ statuses ∧
      volumes (waitVCRStatus c polls volumeID statuses s).2 !! (namespace c, volumeID)
      = Some v ∧
      vol_Status (vol_Spec v) = status
  else st = None.
Proof. apply waitVCRStatus_status. Qed.

Example waitVCRStatus_reports_stored_witness :
  ∃ v, volumes (waitVCRStatus controllerA 3 "v1" [OperationalStatus_Created] createdStore).2
         !! ("default", "v1") = Some v ∧
       vol_Status (vol_Spec v) = OperationalStatus_Created.
Proof.
  destruct (waitVCRStatus_reports_stored controllerA 3 "v1" [OperationalStatus_Created]
              createdStore true (Some OperationalStatus_Created) eq_refl)
    as (status & v & Hst & _ & Hv & Hstatus).
  injection Hst as <-. exists v. split; assumption.
Defined.

(** ** CreateVolume *)

(** How the wait for the volume ends. *)
Lemma awaitCreated_cases c ctx req volumeCR s :
  let r := awaitCreated c ctx req volumeCR s in
  match r.1 with
  | Returned resp =>
      resp = responseFor req volumeCR ∧
      ∃ v, volumes r.2 !! (namespace c, req_Name req) = Some v ∧
           vol_Status (vol_Spec v) = OperationalStatus_Created
  | Failed e =>
      e = StatusError Internal "Unable to create volume on local node." ∨
      e = StatusError Aborted "CreateVolume is in progress"
  | Panicked p => p = NilDereference
  end.
Proof.
  cbn zeta. unfold awaitCreated. rewrite bind_run.
  pose proof (waitVCRStatus_status c (deadline ctx) (req_Name req)
                [OperationalStatus_Created; OperationalStatus_FailedToCreate] s) as Hw.
  pose proof (waitVCRStatus_panic c (deadline ctx) (req_Name req)
                [OperationalStatus_Created; OperationalStatus_FailedToCreate] s) as Hp.
  destruct (waitVCRStatus c (deadline ctx) (req_Name req) _ s)
    as [[p|[reached st]] s1]; cbn [fst snd] in *.
  - rewrite ret_run. cbn. apply Hp. reflexivity.
  - destruct reached; [|rewrite ret_run; cbn; auto].
    destruct (decide (st = Some OperationalStatus_FailedToCreate)) as [->|Hne];
      rewrite ret_run; cbn [fst snd]; [auto|].
    split; [reflexivity|].
    destruct (Hw true st eq_refl) as (status & v & -> & Hin & Hv & Hst).
    exists v. split; [exact Hv|]. rewrite Hst.
    rewrite !elem_of_cons in Hin. destruct Hin as [->|[->|Hin]];
      [reflexivity | contradiction Hne; reflexivity | inversion Hin].
Qed.

Lemma searchAvailableCapacity_some c mapRange preferredNode requiredBytes s ac :
  (searchAvailableCapacity c mapRange preferredNode requiredBytes s).1 = Some ac →
  requiredBytes ≤ sizeOf ac ∧ ∃ k, k.1 = namespace c ∧ capacities s !! k = Some ac.
Proof.
  intros Hsearch. split; [|eapply searchAvailableCapacity_found; exact Hsearch].
  destruct (ReadList c (T:=AvailableCapacity) s).1 as [e|items] eqn:Hlist.
  - erewrite searchAvailableCapacity_list_error in Hsearch by exact Hlist. discriminate.
  - pose proof (searchAvailableCapacity_best_fit c mapRange preferredNode
                  requiredBytes s items Hlist) as Hfit.
    cbn zeta in Hfit. rewrite Hsearch in Hfit. tauto.
Qed.

(** X9.  The errors of [CreateVolume] are status errors of four codes:
    [InvalidArgument], exactly when the name is empty or the capabilities
    are missing, and otherwise [Aborted], [ResourceExhausted] or
    [Internal]. *)
Theorem CreateVolume_error_codes c mapRange ctx req s e :
  (CreateVolume c mapRange ctx req s).1 = Failed e →
  ∃ code msg,
    e = StatusError code msg ∧
    ((code = InvalidArgument ∧
      (req_Name req = "" ∨ req_VolumeCapabilities req = None)) ∨
     ((code = Aborted ∨ code = ResourceExhausted ∨ code = Internal) ∧
      req_Name req ≠ "" ∧ req_VolumeCapabilities req ≠ None)).
Proof.
  assert (Hwait : ∀ volumeCR s0,
            (awaitCreated c ctx req volumeCR s0).1 = Failed e →
            ∃ code msg, e = StatusError code msg ∧
                        (code = Aborted ∨ code = ResourceExhausted ∨ code = Internal)).
  { intros volumeCR s0 H. pose proof (awaitCreated_cases c ctx req volumeCR s0) as Hc.
    cbn zeta in Hc. rewrite H in Hc. destruct Hc as [->| ->]; eauto 10. }
  unfold CreateVolume.
  destruct (decide (req_Name req = "")) as [Hname|Hname].
  { intros [= <-]. eauto 10. }
  destruct (decide (req_VolumeCapabilities req = None)) as [Hcaps|Hcaps].
  { intros [= <-]. eauto 10. }
  cbn zeta. rewrite bind_run.
  destruct (ReadCR c (req_Name req) s) as [[err|volumeCR] s1]; cbn [fst snd].
  2:{ intros H. destruct (Hwait _ _ H) as (code & msg & -> & Hcode). eauto 10. }
  destruct (negb (IsNotFound err)).
  { intros [= <-]. eauto 10. }
  destruct (preferredNodeOf req) as [p|preferredNode]; [discriminate|].
  rewrite bind_run.
  destruct (searchAvailableCapacity c mapRange preferredNode _ s1) as [[ac|] s2];
    cbn [fst snd].
  2:{ intros [= <-]. eauto 10. }
  rewrite bind_run.
  destruct (CreateCR c (newVolumeCR (req_Name req) ac) (req_Name req) s2)
    as [[[e'|] volumeCR] s3]; cbn [fst snd].
  { intros [= <-]. eauto 10. }
  rewrite !bind_run.
  intros H. destruct (Hwait _ _ H) as (code & msg & -> & Hcode). eauto 10.
Qed.

Example CreateVolume_error_codes_witness :
  ∃ code msg,
    noSuitableDrive (requestFor "v3" 10 None) = StatusError code msg ∧
    ((code = InvalidArgument ∧
      (req_Name (requestFor "v3" 10 None) = ""
       ∨ req_VolumeCapabilities (requestFor "v3" 10 None) = None)) ∨
     ((code = Aborted ∨ code = ResourceExhausted ∨ code = Internal) ∧
      req_Name (requestFor "v3" 10 None) ≠ "" ∧
      req_VolumeCapabilities (requestFor "v3" 10 None) ≠ None)).
Proof.
  apply (CreateVolume_error_codes controllerA mapOrder tenSeconds
           (requestFor "v3" 10 None) emptyStore).
  vm_compute. reflexivity.
Defined.

(** X10.  A request that [CreateVolume] turns down with [InvalidArgument]
    or [ResourceExhausted] leaves every volume, every capacity and every
    background task as it was: nothing is reserved for it. *)
Theorem CreateVolume_rejection_reserves_nothing c mapRange ctx req s e :
  (CreateVolume c mapRange ctx req s).1 = Failed e →
  status_Code e = InvalidArgument ∨ status_Code e = ResourceExhausted →
  let s' := (CreateVolume c mapRange ctx req s).2 in
  volumes s' = volumes s ∧ capacities s' = capacities s ∧ goroutines s' = goroutines s.
Proof.
  assert (Hwait : ∀ volumeCR s0,
            (awaitCreated c ctx req volumeCR s0).1 = Failed e →
            status_Code e = InvalidArgument ∨ status_Code e = ResourceExhausted → False).
  { intros volumeCR s0 H. pose proof (awaitCreated_cases c ctx req volumeCR s0) as Hc.
    cbn zeta in Hc. rewrite H in Hc. destruct Hc as [->| ->]; intros [[=]|[=]]. }
  unfold CreateVolume.
  destruct (decide (req_Name req = "")) as [Hname|Hname].
  { intros _ _. repeat split. }
  destruct (decide (req_VolumeCapabilities req = None)) as [Hcaps|Hcaps].
  { intros _ _. repeat split. }
  cbn zeta. rewrite bind_run.
  pose proof (ReadCR_Volume_SameStore c (req_Name req) s) as Hs1.
  destruct (ReadCR c (req_Name req) s) as [[err|volumeCR] s1]; cbn [fst snd] in *.
  2:{ intros H Hcode. destruct (Hwait _ _ H Hcode). }
  destruct (negb (IsNotFound err)).
  { intros [= <-] [[=]|[=]]. }
  destruct (preferredNodeOf req) as [p|preferredNode]; [discriminate|].
  rewrite bind_run.
  pose proof (searchAvailableCapacity_SameStore c mapRange preferredNode
                (GetRequiredBytes (req_CapacityRange req)) s1) as Hs2.
  destruct (searchAvailableCapacity c mapRange preferredNode _ s1) as [[ac|] s2];
    cbn [fst snd] in *.
  2:{ intros _ _. rewrite ret_run. cbn [snd].
      destruct Hs1 as (? & ? & ?), Hs2 as (? & ? & ?). repeat split; congruence. }
  rewrite bind_run.
  destruct (CreateCR c (newVolumeCR (req_Name req) ac) (req_Name req) s2)
    as [[[e'|] volumeCR] s3]; cbn [fst snd].
  { intros [= <-] [[=]|[=]]. }
  rewrite !bind_run.
  intros H Hcode. destruct (Hwait _ _ H Hcode).
Qed.

Example CreateVolume_rejection_reserves_nothing_witness :
  capacities (CreateVolume controllerA mapOrder tenSeconds
                (requestFor "v9" 500 None) twoDisks).2
  = capacities twoDisks.
Proof.
  apply (CreateVolume_rejection_reserves_nothing controllerA mapOrder tenSeconds
           (requestFor "v9" 500 None) twoDisks (noSuitableDrive (requestFor "v9" 500 None))).
  - vm_compute. reflexivity.
  - right. reflexivity.
Defined.

(** A wait that ends in success: the volume is stored, [Created], and is
    in identity the volume that was stored when the wait began. *)
Lemma awaitCreated_success c ctx req volumeCR s resp :
  volumesKeyed s → req_Name req ≠ "" →
  (awaitCreated c ctx req volumeCR s).1 = Returned resp →
  let s' := (awaitCreated c ctx req volumeCR s).2 in
  capacities s' = capacities s ∧ resp = responseFor req volumeCR ∧
  ∃ v v0, volumes s' !! (namespace c, req_Name req) = Some v ∧
          vol_Status (vol_Spec v) = OperationalStatus_Created ∧
          volumes s !! (namespace c, req_Name req) = Some v0 ∧
          identity v = identity v0.
Proof.
  intros Hkeyed Hname Hret. cbn zeta.
  pose proof (awaitCreated_cases c ctx req volumeCR s) as Hcases.
  cbn zeta in Hcases. rewrite Hret in Hcases. destruct Hcases as (-> & v & Hv & Hst).
  destruct (awaitCreated_Background c ctx req volumeCR s) as (Hc & Hbg).
  destruct (Hbg Hkeyed) as (_ & Hid).
  destruct (Hid (namespace c, req_Name req) v Hname Hv) as (v0 & Hv0 & Hident).
  split; [exact Hc|]. split; [reflexivity|]. exists v, v0. auto.
Qed.

Lemma responseFor_identity req v v0 :
  identity v = identity v0 → responseFor req v = responseFor req v0.
Proof.
  intros H. unfold responseFor.
  assert (Ho := f_equal (λ x, x.1.1.2) H). assert (Hs := f_equal (λ x, x.1.2) H).
  cbn in Ho, Hs. rewrite Ho, Hs. reflexivity.
Qed.

(** The scheduler takes one verdict of the API server, for its list. *)
Lemma searchAvailableCapacity_faults c mapRange preferredNode requiredBytes s :
  faults (searchAvailableCapacity c mapRange preferredNode requiredBytes s).2
  = tail (faults s).
Proof.
  unfold searchAvailableCapacity, ReadList, client_List, nextFault, logCall.
  unfold mbind, mret, M_bind, M_ret.
  destruct (faults s) as [|[msg|] rest] eqn:Hf; cbn; rewrite ?Hf; reflexivity.
Qed.

(** The deletion of a capacity by cases: it goes through exactly when the
    API server serves it and a capacity is stored under the key. *)
Lemma client_Delete_AvailableCapacity_verdict a s :
  let r := client_Delete (T:=AvailableCapacity) a s in
  volumes r.2 = volumes s ∧
  ∃ ok, calls r.2 = Ev (CallDelete (ObjAvailableCapacity a)) ok :: calls s ∧
        (ok = true ↔
           (head (faults s) = None ∨ head (faults s) = Some None) ∧
           is_Some (capacities s !! keyOf a)) ∧
        capacities r.2 = if ok then delete (keyOf a) (capacities s) else capacities s.
Proof.
  unfold client_Delete, nextFault, logCall. unfold mbind, mret, M_bind, M_ret.
  destruct (faults s) as [|[msg|] rest] eqn:Hf; cbn;
    try destruct (capacities s !! keyOf a) eqn:Hkey; cbn;
    (split; [reflexivity|]); eexists; (split; [reflexivity|]); (split; [|reflexivity]).
  all: split; [try discriminate; intros _; split; eauto|].
  all: try (intros [[H|H] [x Hx]]; congruence).
  all: try reflexivity.
Qed.

Lemma fifth_verdict (fs : list (option string)) :
  head (drop 2 (tail (tail fs))) = fs !! 4%nat.
Proof. destruct fs as [|? [|? [|? [|? [|? ?]]]]]; reflexivity. Qed.

(** A successful [CreateVolume] for a name the store did not hold, step
    by step. *)
Lemma CreateVolume_fresh_success c mapRange ctx req s resp :
  volumesKeyed s →
  volumes s !! (namespace c, req_Name req) = None →
  (CreateVolume c mapRange ctx req s).1 = Returned resp →
  let s' := (CreateVolume c mapRange ctx req s).2 in
  ∃ k ac v,
    namespace c = "default" ∧
    k.1 = namespace c ∧ capacities s !! k = Some ac ∧
    GetRequiredBytes (req_CapacityRange req) ≤ sizeOf ac ∧
    (capacities s' = capacities s ∨ capacities s' = delete (keyOf ac) (capacities s)) ∧
    volumes s' !! (namespace c, req_Name req) = Some v ∧
    vol_Status (vol_Spec v) = OperationalStatus_Created ∧
    identity v = identity (newVolumeCR (req_Name req) ac) ∧
    resp = responseFor req (newVolumeCR (req_Name req) ac) ∧
    ∃ ok, Ev (CallDelete (ObjAvailableCapacity ac)) ok ∈ calls s' ∧
          (ok = true ↔
             (faults s !! 4%nat = None ∨ faults s !! 4%nat = Some None) ∧
             is_Some (capacities s !! keyOf ac)) ∧
          capacities s' = if ok then delete (keyOf ac) (capacities s) else capacities s.
Proof.
  intros Hkeyed Hfree. unfold CreateVolume.
  destruct (decide (req_Name req = "")) as [|Hname]; [discriminate|].
  destruct (decide (req_VolumeCapabilities req = None)); [discriminate|].
  cbn zeta. rewrite bind_run.
  pose proof (ReadCR_Volume_spec c (req_Name req) s) as Hget.
  pose proof (client_Get_Volume_verdict (namespace c, req_Name req) s) as (_ & Hf1 & _).
  fold (ReadCR c (T:=Volume) (req_Name req)) in Hf1.
  destruct (ReadCR c (req_Name req) s) as [[err|found] s1]; simpl in Hget, Hf1;
    cbn [fst snd]; destruct Hget as (Hv1 & Hc1 & _ & _ & Hres); [|congruence].
  destruct err as [| |msg]; cbn [negb IsNotFound]; [|contradiction|discriminate].
  destruct (preferredNodeOf req) as [p|preferredNode]; [discriminate|].
  rewrite bind_run.
  pose proof (searchAvailableCapacity_SameStore c mapRange preferredNode
                (GetRequiredBytes (req_CapacityRange req)) s1) as (Hv2 & Hc2 & _).
  pose proof (searchAvailableCapacity_some c mapRange preferredNode
                (GetRequiredBytes (req_CapacityRange req)) s1) as Hfound.
  pose proof (searchAvailableCapacity_faults c mapRange preferredNode
                (GetRequiredBytes (req_CapacityRange req)) s1) as Hf2.
  destruct (searchAvailableCapacity c mapRange preferredNode _ s1) as [[ac|] s2];
    simpl in Hv2, Hc2, Hfound, Hf2; cbn [fst snd]; [|discriminate].
  destruct (Hfound ac eq_refl) as (Hfits & k & Hns & Hac). rewrite Hc1 in Hac.
  rewrite bind_run.
  assert (Hfree2 : volumes s2 !! (namespace c, req_Name req) = None) by congruence.
  pose proof (CreateCR_Volume_verdict c (newVolumeCR (req_Name req) ac) (req_Name req) s2
                Hfree2) as Hcreate.
  destruct (CreateCR c (newVolumeCR (req_Name req) ac) (req_Name req) s2)
    as [[e volumeCR] s3]; simpl in Hcreate; cbn [fst snd].
  destruct Hcreate as (Hc3 & _ & [(_ & [= -> ->] & Hv3 & Hf3 & _)|(_ & e' & [= -> ->] & _)]);
    [|discriminate].
  rewrite !bind_run.
  pose proof (client_Delete_AvailableCapacity_spec ac s3) as (Hv4 & Hc4).
  pose proof (client_Delete_AvailableCapacity_verdict ac s3) as (_ & ok & Hl4 & Hok & Hc4').
  unfold DeleteCR. set (s4 := (client_Delete ac s3).2) in *.
  pose proof (spawn_store c req ac s4) as (Hv5 & Hc5).
  set (s5 := (spawn c req ac s4).2) in *.
  intros Hret.
  assert (Hvol5 : volumes s5
                  = <[keyOf (newVolumeCR (req_Name req) ac)
                      := newVolumeCR (req_Name req) ac]> (volumes s)) by congruence.
  assert (Hkeyed5 : volumesKeyed s5).
  { intros k' w. rewrite Hvol5.
    destruct (decide (keyOf (newVolumeCR (req_Name req) ac) = k')) as [<-|Hne].
    - rewrite lookup_insert_eq. intros [= <-]. reflexivity.
    - rewrite lookup_insert_ne by exact Hne. apply Hkeyed. }
  destruct (awaitCreated_success c ctx req _ s5 resp Hkeyed5 Hname Hret)
    as (Hc6 & Hresp & v & v0 & Hv & Hst & Hv0 & Hident).
  set (s6 := (awaitCreated c ctx req _ s5).2) in *.
  rewrite Hvol5 in Hv0.
  destruct (decide (keyOf (newVolumeCR (req_Name req) ac) = (namespace c, req_Name req)))
    as [Heq|Hne].
  2:{ rewrite lookup_insert_ne in Hv0 by exact Hne. congruence. }
  rewrite Heq, lookup_insert_eq in Hv0. injection Hv0 as <-.
  exists k, ac, v.
  split; [injection Heq as Hdef; symmetry; exact Hdef|].
  split; [exact Hns|]. split; [exact Hac|]. split; [exact Hfits|].
  split; [rewrite Hc6, Hc5; destruct Hc4 as [Hc4|Hc4]; rewrite Hc4, Hc3, Hc2, Hc1; auto|].
  do 4 (split; [auto|]).
  exists ok. split; [|split].
  - eapply Sync_calls_mono; [apply awaitCreated_Sync|].
    change (calls s5) with (calls s4). rewrite Hl4. apply elem_of_cons. left. reflexivity.
  - rewrite Hok, Hf3, Hf2, Hf1, fifth_verdict, Hc3, Hc2, Hc1. reflexivity.
  - rewrite Hc6, Hc5, Hc4', Hc3, Hc2, Hc1. reflexivity.
Qed.

(** X11.  A successful [CreateVolume] answers from the record it leaves:
    on a store whose volumes are kept under their own names, a volume is
    stored under the request's name with status [Created], and the
    response carries the request's name and parameters, the size of that
    volume, and one topology entry naming its owner. *)
Theorem CreateVolume_response_matches_record c mapRange ctx req s resp :
  volumesKeyed s →
  (CreateVolume c mapRange ctx req s).1 = Returned resp →
  ∃ v, volumes (CreateVolume c mapRange ctx req s).2 !! (namespace c, req_Name req)
       = Some v ∧
       vol_Status (vol_Spec v) = OperationalStatus_Created ∧
       VolumeId (resp_Volume resp) = req_Name req ∧
       VolumeContext (resp_Volume resp) = req_Parameters req ∧
       CapacityBytes (resp_Volume resp) = vol_Size (vol_Spec v) ∧
       AccessibleTopology (resp_Volume resp)
       = [ {| Segments := {[ NodeIDTopologyKey := vol_Owner (vol_Spec v) ]} |} ].
Proof.
  intros Hkeyed Hret.
  assert (Hgoal : ∃ v, volumes (CreateVolume c mapRange ctx req s).2
                         !! (namespace c, req_Name req) = Some v ∧
                       vol_Status (vol_Spec v) = OperationalStatus_Created ∧
                       resp = responseFor req v).
  { destruct (volumes s !! (namespace c, req_Name req)) as [v0|] eqn:Hstored.
    - revert Hret. unfold CreateVolume.
      destruct (decide (req_Name req = "")) as [|Hname]; [discriminate|].
      destruct (decide (req_VolumeCapabilities req = None)); [discriminate|].
      cbn zeta. rewrite bind_run.
      pose proof (ReadCR_Volume_spec c (req_Name req) s) as Hget.
      destruct (ReadCR c (req_Name req) s) as [[err|found] s1]; simpl in Hget;
        cbn [fst snd]; destruct Hget as (Hv1 & _ & _ & _ & Hres).
      { destruct err as [| |msg]; cbn [negb IsNotFound]; [congruence|contradiction|].
        discriminate. }
      assert (found = v0) as -> by congruence.
      intros Hret.
      assert (Hkeyed1 : volumesKeyed s1) by (intros k w; rewrite Hv1; apply Hkeyed).
      destruct (awaitCreated_success c ctx req v0 s1 resp Hkeyed1 Hname Hret)
        as (_ & -> & v & v0' & Hv & Hst & Hv0 & Hident).
      exists v. split; [exact Hv|]. split; [exact Hst|].
      symmetry. apply responseFor_identity. rewrite Hident.
      rewrite Hv1, Hstored in Hv0. congruence.
    - destruct (CreateVolume_fresh_success c mapRange ctx req s resp Hkeyed Hstored Hret)
        as (k & ac & v & _ & _ & _ & _ & _ & Hv & Hst & Hident & -> & _).
      exists v. split; [exact Hv|]. split; [exact Hst|].
      symmetry. apply responseFor_identity. exact Hident. }
  destruct Hgoal as (v & Hv & Hst & ->). exists v. repeat split; assumption.
Qed.

Example CreateVolume_response_matches_record_witness :
  ∃ v, volumes (CreateVolume controllerA mapOrder tenSeconds
                  (requestFor "v1" 40 None) twoDisks).2 !! ("default", "v1") = Some v ∧
       vol_Status (vol_Spec v) = OperationalStatus_Created.
Proof.
  destruct (CreateVolume_response_matches_record controllerA mapOrder tenSeconds
              (requestFor "v1" 40 None) twoDisks
              (responseFor (requestFor "v1" 40 None)
                 (newVolumeCR "v1" (capacityOf "node-a" "SN1" 50))))
    as (v & Hv & Hst & _).
  - intros k w Hw. vm_compute in Hw. discriminate.
  - vm_compute. reflexivity.
  - exists v. split; assumption.
Defined.

(** X12.  The volume record is always created in the namespace
    ["default"], while it is read in the controller's namespace: a
    [CreateVolume] for a name the store does not hold succeeds only in a
    controller whose namespace is ["default"]. *)
Theorem CreateVolume_fresh_needs_default_namespace c mapRange ctx req s resp :
  volumesKeyed s →
  volumes s !! (namespace c, req_Name req) = None →
  (CreateVolume c mapRange ctx req s).1 = Returned resp →
  namespace c = "default".
Proof.
  intros Hkeyed Hfree Hret.
  destruct (CreateVolume_fresh_success c mapRange ctx req s resp Hkeyed Hfree Hret)
    as (k & ac & v & Hdef & _). exact Hdef.
Qed.

Example CreateVolume_fresh_needs_default_namespace_witness :
  namespace controllerA = "default".
Proof.
  apply (CreateVolume_fresh_needs_default_namespace controllerA mapOrder tenSeconds
           (requestFor "v1" 40 None) twoDisks
           (responseFor (requestFor "v1" 40 None)
              (newVolumeCR "v1" (capacityOf "node-a" "SN1" 50)))).
  - intros k w Hw. vm_compute in Hw. discriminate.
  - reflexivity.
  - vm_compute. reflexivity.
Defined.

(** In the namespace ["storage"] the same request reserves the disk,
    writes the record where it never looks, and ends in [Aborted]. *)
Example CreateVolume_other_namespace_aborts :
  let r := CreateVolume controllerStorage mapOrder tenSeconds
             (requestFor "v1" 40 None) storageDisks in
  r.1 = Failed (StatusError Aborted "CreateVolume is in progress") ∧
  (fst <$> volumeSpecs r.2) = [("default", "v1")] ∧
  capacitySizes r.2 = [].
Proof. vm_compute. auto. Qed.

(** X13.  A successful [CreateVolume] for a name the store did not hold
    has taken one stored capacity of the controller's namespace: the
    capacity holds the required bytes, the response carries its size, the
    volume is owned by its node, and its deletion is in the log of calls.
    The deletion is the fifth call [CreateVolume] makes; it goes through
    exactly when the API server serves that call and a capacity is stored
    under the capacity's own namespace and name, and then the capacities
    afterwards are those of before without it; when it does not go
    through they are what they were. *)
Theorem CreateVolume_fresh_takes_one_capacity c mapRange ctx req s resp :
  volumesKeyed s →
  volumes s !! (namespace c, req_Name req) = None →
  (CreateVolume c mapRange ctx req s).1 = Returned resp →
  let s' := (CreateVolume c mapRange ctx req s).2 in
  ∃ k ac ok,
    k.1 = namespace c ∧ capacities s !! k = Some ac ∧
    GetRequiredBytes (req_CapacityRange req) ≤ CapacityBytes (resp_Volume resp) ∧
    CapacityBytes (resp_Volume resp) = sizeOf ac ∧
    (vol_Owner ∘ vol_Spec <$> volumes s' !! (namespace c, req_Name req))
    = Some (ac_NodeId (ac_Spec ac)) ∧
    Ev (CallDelete (ObjAvailableCapacity ac)) ok ∈ calls s' ∧
    (ok = true ↔
       (faults s !! 4%nat = None ∨ faults s !! 4%nat = Some None) ∧
       is_Some (capacities s !! keyOf ac)) ∧
    capacities s' = if ok then delete (keyOf ac) (capacities s) else capacities s.
Proof.
  intros Hkeyed Hfree Hret.
  destruct (CreateVolume_fresh_success c mapRange ctx req s resp Hkeyed Hfree Hret)
    as (k & ac & v & _ & Hns & Hac & Hfits & _ & Hv & _ & Hident & -> & ok & Hlog & Hok & Hcaps).
  exists k, ac, ok. split; [exact Hns|]. split; [exact Hac|].
  split; [exact Hfits|]. split; [reflexivity|].
  split; [|split; [exact Hlog|]; split; [exact Hok | exact Hcaps]].
  rewrite Hv. cbn. f_equal. exact (f_equal (λ x, x.1.1.2) Hident).
Qed.

Example CreateVolume_fresh_takes_one_capacity_witness :
  ∃ ac,
    sizeOf ac = 50 ∧
    capacities (CreateVolume controllerA mapOrder tenSeconds
                  (requestFor "v1" 40 None) twoDisks).2
    = delete (keyOf ac) (capacities twoDisks).
Proof.
  destruct (CreateVolume_fresh_takes_one_capacity controllerA mapOrder tenSeconds
              (requestFor "v1" 40 None) twoDisks
              (responseFor (requestFor "v1" 40 None)
                 (newVolumeCR "v1" (capacityOf "node-a" "SN1" 50))))
    as (k & ac & ok & _ & Hac & _ & Hsize & _ & _ & Hok & Hcaps).
  - intros k w Hw. vm_compute in Hw. discriminate.
  - reflexivity.
  - vm_compute. reflexivity.
  - exists ac. split; [symmetry; exact Hsize|].
    assert (Htaken : ok = true).
    { apply Hok. split; [left; reflexivity|].
      rewrite (proj1 (twoDisks_capacitiesKeyed k ac Hac)). eauto. }
    rewrite Htaken in Hcaps. exact Hcaps.
Defined.

(** X14.  A [CreateVolume] whose first read finds a volume of the name
    resumes: it reserves nothing (the capacities are untouched), and when
    it succeeds it answers with the size and the owner of the volume it
    read, whatever bytes the request asks for. *)
Theorem CreateVolume_resumes_existing c mapRange ctx req s v0 :
  req_Name req ≠ "" →
  req_VolumeCapabilities req ≠ None →
  (ReadCR c (T:=Volume) (req_Name req) s).1 = inr v0 →
  let r := CreateVolume c mapRange ctx req s in
  capacities r.2 = capacities s ∧
  ∀ resp, r.1 = Returned resp → resp = responseFor req v0.
Proof.
  intros Hname Hcaps Hread. cbn zeta. unfold CreateVolume.
  destruct (decide (req_Name req = "")); [contradiction|].
  destruct (decide (req_VolumeCapabilities req = None)); [contradiction|].
  cbn zeta. rewrite bind_run.
  pose proof (ReadCR_Volume_SameStore c (req_Name req) s) as (_ & Hc1 & _).
  destruct (ReadCR c (req_Name req) s) as [res s1]; cbn [fst snd] in *. subst res.
  destruct (awaitCreated_Background c ctx req v0 s1) as (Hc2 & _).
  split; [congruence|].
  intros resp Hret. pose proof (awaitCreated_cases c ctx req v0 s1) as Hcases.
  cbn zeta in Hcases. rewrite Hret in Hcases. tauto.
Qed.

Example CreateVolume_resumes_existing_witness :
  capacities (CreateVolume controllerA mapOrder tenSeconds
                (requestFor "v1" 4000 None) createdStore).2
  = capacities createdStore.
Proof.
  apply (CreateVolume_resumes_existing controllerA mapOrder tenSeconds
           (requestFor "v1" 4000 None) createdStore createdV1).
  - discriminate.
  - discriminate.
  - reflexivity.
Defined.




(** ** DeleteVolume *)

Lemma client_Delete_Volume_cases v s :
  let r := client_Delete (T:=Volume) v s in
  capacities r.2 = capacities s ∧ goroutines r.2 = goroutines s ∧
  ((∃ e, r.1 = Some e ∧ volumes r.2 = volumes s) ∨
   (r.1 = None ∧ volumes r.2 = delete (keyOf v) (volumes s))).
Proof.
  client_cases s; repeat split; eauto.
Qed.

(** Creating a capacity, in full: it is found, or stored, or the call
    fails; nothing stored is replaced. *)
Lemma CreateCR_AvailableCapacity_cases c cr name s :
  let r := CreateCR c (T:=AvailableCapacity) cr name s in
  volumes r.2 = volumes s ∧ goroutines r.2 = goroutines s ∧
  ((∃ found, r.1 = (None, found) ∧ capacities s !! (namespace c, name) = Some found ∧
             capacities r.2 = capacities s) ∨
   (r.1 = (None, cr) ∧ capacities s !! keyOf cr = None ∧
    capacities s !! (namespace c, name) = None ∧
    capacities r.2 = <[keyOf cr := cr]> (capacities s)) ∨
   (∃ e, r.1 = (Some e, cr) ∧ capacities r.2 = capacities s)).
Proof.
  unfold CreateCR. rewrite bind_run.
  assert (Hget :
    let r := client_Get (T:=AvailableCapacity) (namespace c, name) s in
    volumes r.2 = volumes s ∧ capacities r.2 = capacities s ∧
    goroutines r.2 = goroutines s ∧
    match r.1 with
    | inr a => capacities s !! (namespace c, name) = Some a
    | inl NotFound => capacities s !! (namespace c, name) = None
    | inl AlreadyExists => False
    | inl (ServerError _) => True
    end).
  { client_cases s; repeat split; auto. }
  destruct (client_Get (namespace c, name) s) as [[err|found] s1];
    simpl in Hget; cbn [fst snd]; destruct Hget as (Hv1 & Hc1 & Hg1 & Hres).
  2:{ rewrite ret_run. cbn [fst snd]. split; [exact Hv1|]. split; [exact Hg1|].
      left. eauto. }
  destruct err as [| |msg]; cbn [IsNotFound].
  - rewrite bind_run.
    assert (Hcreate :
      let r := client_Create (T:=AvailableCapacity) cr s1 in
      volumes r.2 = volumes s1 ∧ goroutines r.2 = goroutines s1 ∧
      ((∃ e, r.1 = Some e ∧ capacities r.2 = capacities s1) ∨
       (r.1 = None ∧ capacities s1 !! keyOf cr = None ∧
        capacities r.2 = <[keyOf cr := cr]> (capacities s1)))).
    { client_cases s1; repeat split; eauto 10. }
    destruct (client_Create cr s1) as [e s2]; simpl in Hcreate;
      rewrite ret_run; cbn [fst snd].
    destruct Hcreate as (Hv2 & Hg2 & [(e' & -> & Hc2)|(-> & Hfree & Hc2)]).
    + split; [congruence|]. split; [congruence|]. right. right.
      exists e'. split; [reflexivity | congruence].
    + split; [congruence|]. split; [congruence|]. right. left.
      rewrite Hc1 in *. auto.
  - contradiction.
  - rewrite ret_run. cbn [fst snd]. split; [exact Hv1|]. split; [exact Hg1|].
    right. right. eauto.
Qed.

(** X16.  Without the agent's confirmation nothing is deleted: when the
    agent's answer comes late, is an error, is not ok or carries no
    volume, [DeleteVolume] fails with [Internal] and the volumes and the
    capacities are what they were. *)
Theorem DeleteVolume_needs_confirmation ToLower c ctx req s v mgr :
  del_VolumeId req ≠ "" →
  (ReadCR c (T:=Volume) (del_VolumeId req) s).1 = inr v →
  communicators c !! vol_Owner (vol_Spec v) = Some mgr →
  deletionConfirmed c ctx req mgr = None →
  let r := DeleteVolume c ToLower ctx req s in
  (∃ msg, r.1 = Failed (StatusError Internal msg)) ∧
  volumes r.2 = volumes s ∧ capacities r.2 = capacities s.
Proof.
  intros Hid Hread Hmgr Hconf. cbn zeta. unfold DeleteVolume.
  destruct (decide (del_VolumeId req = "")); [contradiction|].
  cbn zeta. rewrite bind_run.
  pose proof (ReadCR_Volume_SameStore c (del_VolumeId req) s) as (Hv1 & Hc1 & _).
  destruct (ReadCR c (del_VolumeId req) s) as [res s1]; cbn [fst snd] in *. subst res.
  rewrite Hmgr, bind_run. cbn [fst snd]. unfold deletionConfirmed in Hconf.
  destruct (invoke _ _) as [e|reply].
  - rewrite ret_run. cbn. eauto.
  - destruct (dlv_Ok reply); cbn [negb].
    + rewrite Hconf. rewrite ret_run. cbn. eauto.
    + rewrite ret_run. cbn. eauto.
Qed.

Example DeleteVolume_needs_confirmation_witness :
  volumes (DeleteVolume controllerRefusing lowerASCII tenSeconds {| del_VolumeId := "v1" |}
             createdStore).2
  = volumes createdStore.
Proof.
  apply (DeleteVolume_needs_confirmation lowerASCII controllerRefusing tenSeconds
           {| del_VolumeId := "v1" |} createdStore createdV1 agentRefusing).
  - discriminate.
  - reflexivity.
  - reflexivity.
  - reflexivity.
Defined.

(** What [DeleteVolume] does to the store, whatever its outcome. *)
Lemma DeleteVolume_footprint ToLower c ctx req s :
  let s' := (DeleteVolume c ToLower ctx req s).2 in
  goroutines s' = goroutines s ∧
  (volumes s' = volumes s ∨
   ∃ v, volumes s !! (namespace c, del_VolumeId req) = Some v ∧
        volumes s' = delete (keyOf v) (volumes s)) ∧
  (capacities s' = capacities s ∨
   ∃ cr, capacities s !! keyOf cr = None ∧
         capacities s' = <[keyOf cr := cr]> (capacities s)).
Proof.
  cbn zeta. unfold DeleteVolume.
  destruct (decide (del_VolumeId req = "")); [rewrite ret_run; cbn; auto|].
  cbn zeta. rewrite bind_run.
  pose proof (ReadCR_Volume_spec c (del_VolumeId req) s) as Hget.
  destruct (ReadCR c (del_VolumeId req) s) as [[err|v] s1]; simpl in Hget;
    cbn [fst snd]; destruct Hget as (Hv1 & Hc1 & Hg1 & _ & Hres).
  { destruct (IsNotFound err); rewrite ret_run; cbn; auto. }
  destruct (communicators c !! vol_Owner (vol_Spec v)) as [mgr|];
    [|rewrite ret_run; cbn; auto].
  rewrite bind_run. cbn [fst snd].
  set (s2 := (logCall _ _ s1).2).
  assert (Hs2 : volumes s2 = volumes s ∧ capacities s2 = capacities s
                ∧ goroutines s2 = goroutines s) by auto.
  destruct Hs2 as (Hv2 & Hc2 & Hg2).
  destruct (invoke _ _) as [e|reply]; [rewrite ret_run; cbn; auto|].
  destruct (dlv_Ok reply); cbn [negb]; [|rewrite ret_run; cbn; auto].
  destruct (dlv_Volume reply) as [localVolume|]; [|rewrite ret_run; cbn; auto].
  rewrite bind_run. unfold DeleteCR.
  pose proof (client_Delete_Volume_cases v s2) as (Hc3 & Hg3 & Hdel).
  destruct (client_Delete v s2) as [e s3]; cbn [fst snd] in *.
  destruct Hdel as [(e' & -> & Hv3)|(-> & Hv3)].
  { rewrite ret_run. cbn [snd]. split; [congruence|]. split; left; congruence. }
  cbn zeta. rewrite bind_run.
  match goal with
  | |- context [CreateCR c ?x ?name s3] =>
      pose proof (CreateCR_AvailableCapacity_cases c x name s3) as (Hv4 & Hg4 & Hcr);
      destruct (CreateCR c x name s3) as [res s4]; set (cr := x) in *
  end.
  cbn [fst snd] in *. rewrite ret_run. cbn [snd].
  split; [congruence|]. split.
  - right. exists v. split; [exact Hres | congruence].
  - destruct Hcr as [(found & _ & _ & Hc4)|[(_ & Hfree & _ & Hc4)|(e & _ & Hc4)]];
      [left; congruence | | left; congruence].
    right. exists cr. split; [rewrite <- Hc2, <- Hc3; exact Hfree|].
    rewrite Hc4, Hc3, Hc2. reflexivity.
Qed.

(** X17.  [DeleteVolume] touches nothing but its own records: on a store
    whose volumes are kept under their own names, every volume under
    another name is as before, and no capacity is ever removed or
    replaced. *)
Theorem DeleteVolume_touches_only_its_records ToLower c ctx req s :
  volumesKeyed s →
  let s' := (DeleteVolume c ToLower ctx req s).2 in
  (∀ k, k ≠ (namespace c, del_VolumeId req) → volumes s' !! k = volumes s !! k) ∧
  (∀ k a, capacities s !! k = Some a → capacities s' !! k = Some a).
Proof.
  intros Hkeyed. cbn zeta.
  destruct (DeleteVolume_footprint ToLower c ctx req s) as (_ & Hvol & Hcap). split.
  - intros k Hk. destruct Hvol as [->|(v & Hv & ->)]; [reflexivity|].
    rewrite (Hkeyed _ _ Hv). apply lookup_delete_ne. congruence.
  - intros k a Ha. destruct Hcap as [->|(cr & Hfree & ->)]; [exact Ha|].
    rewrite lookup_insert_ne; [exact Ha|]. intros Heq. rewrite Heq in Hfree. congruence.
Qed.

Example DeleteVolume_touches_only_its_records_witness :
  volumes (DeleteVolume controllerA lowerASCII tenSeconds {| del_VolumeId := "v1" |}
             createdStore).2 !! ("default", "v2")
  = volumes createdStore !! ("default", "v2").
Proof.
  refine (proj1 (DeleteVolume_touches_only_its_records lowerASCII controllerA tenSeconds
                   {| del_VolumeId := "v1" |} createdStore _) ("default", "v2") _).
  - intros k v Hv.
    change (volumes createdStore)
      with ({[ ("default", "v1") := createdV1 ]} : gmap ObjectKey Volume) in Hv.
    apply lookup_singleton_Some in Hv as [<- <-]. reflexivity.
  - discriminate.
Defined.

(** X18.  [DeleteVolume] is idempotent: on a store whose volumes are kept
    under their own names, a successful [DeleteVolume] leaves no record
    under the volume id, and a second [DeleteVolume] of the same id whose
    read the API server serves returns success and changes neither the
    volumes nor the capacities. *)
Theorem DeleteVolume_twice ToLower c ctx ctx' req s resp :
  volumesKeyed s →
  (DeleteVolume c ToLower ctx req s).1 = Returned resp →
  let s1 := (DeleteVolume c ToLower ctx req s).2 in
  volumes s1 !! (namespace c, del_VolumeId req) = None ∧
  (head (faults s1) = None ∨ head (faults s1) = Some None →
   let r := DeleteVolume c ToLower ctx' req s1 in
   r.1 = Returned Build_DeleteVolumeResponse ∧
   volumes r.2 = volumes s1 ∧ capacities r.2 = capacities s1).
Proof.
  intros Hkeyed Hret. cbn zeta.
  pose proof (DeleteVolume_removes_record ToLower c ctx req s resp Hkeyed Hret) as Hgone.
  split; [exact Hgone|].
  set (s1 := (DeleteVolume c ToLower ctx req s).2) in *.
  intros Hserved.
  assert (Hid : del_VolumeId req ≠ "").
  { intros Hid. revert Hret. unfold DeleteVolume.
    destruct (decide (del_VolumeId req = "")); [discriminate | contradiction]. }
  clearbody s1. unfold DeleteVolume.
  destruct (decide (del_VolumeId req = "")); [contradiction|].
  cbn zeta. rewrite bind_run. unfold ReadCR.
  destruct (client_Get_Volume_verdict (namespace c, del_VolumeId req) s1)
    as ((Hv & Hc & _) & _ & _ & Hres).
  destruct (client_Get (namespace c, del_VolumeId req) s1) as [res s2];
    cbn [fst snd] in *.
  assert (res = inl NotFound) as ->.
  { rewrite Hgone in Hres. destruct Hserved as [H|H]; rewrite H in Hres; exact Hres. }
  cbn [IsNotFound]. rewrite ret_run. cbn [fst snd]. auto.
Qed.

Example DeleteVolume_twice_witness :
  volumes (DeleteVolume controllerA lowerASCII tenSeconds {| del_VolumeId := "v1" |} createdStore).2
    !! ("default", "v1") = None.
Proof.
  apply (DeleteVolume_twice lowerASCII controllerA tenSeconds tenSeconds {| del_VolumeId := "v1" |}
           createdStore Build_DeleteVolumeResponse).
  - intros k v Hv.
    change (volumes createdStore)
      with ({[ ("default", "v1") := createdV1 ]} : gmap ObjectKey Volume) in Hv.
    apply lookup_singleton_Some in Hv as [<- <-]. reflexivity.
  - vm_compute. reflexivity.
Defined.

(** X19.  After a successful [DeleteVolume] of a stored volume whose last
    call succeeded, a capacity is stored in the controller's namespace
    under the owner, a dash and the lower-cased location the agent
    answered: the one that was there already, left as it was, or else a
    new one of the answered size. *)
Theorem DeleteVolume_restores_capacity ToLower c ctx req s v resp :
  volumes s !! (namespace c, del_VolumeId req) = Some v →
  (DeleteVolume c ToLower ctx req s).1 = Returned resp →
  lastCallOk (DeleteVolume c ToLower ctx req s).2 →
  let s' := (DeleteVolume c ToLower ctx req s).2 in
  ∃ mgr reply localVolume a,
    communicators c !! vol_Owner (vol_Spec v) = Some mgr ∧
    answer (DeleteLocalVolume mgr {| dlv_PvcUUID := del_VolumeId req |}) = inr reply ∧
    dlv_Volume reply = Some localVolume ∧
    let key := (namespace c,
                vol_Owner (vol_Spec v) +:+ "-" +:+ ToLower (vol_Location localVolume)) in
    capacities s' !! key = Some a ∧
    match capacities s !! key with
    | Some old => a = old ∧ capacities s' = capacities s
    | None => sizeOf a = vol_Size localVolume
    end.
Proof.
  intros Hv Hret Hlast. cbn zeta.
  destruct (DeleteVolume_returned ToLower c ctx req s v resp Hv Hret Hlast)
    as (mgr & reply & localVolume & Hmgr & Hreply & Hlocal & Hre).
  cbn zeta in Hre.
  destruct Hre as [(found & Hfound & Hsame)|(cr & Hnone & Hput & Hsize)].
  - exists mgr, reply, localVolume, found.
    split; [exact Hmgr|]. split; [exact Hreply|]. split; [exact Hlocal|].
    rewrite Hsame, Hfound. auto.
  - exists mgr, reply, localVolume, cr.
    split; [exact Hmgr|]. split; [exact Hreply|]. split; [exact Hlocal|].
    rewrite Hput, Hnone, lookup_insert_eq. auto.
Qed.

Example DeleteVolume_restores_capacity_witness :
  ∃ a, capacities (DeleteVolume controllerA lowerASCII tenSeconds {| del_VolumeId := "v1" |}
                     createdStore).2 !! ("default", "node-a-sn1") = Some a ∧
       sizeOf a = 50.
Proof.
  destruct (DeleteVolume_restores_capacity lowerASCII controllerA tenSeconds
              {| del_VolumeId := "v1" |} createdStore createdV1 Build_DeleteVolumeResponse)
    as (mgr & reply & localVolume & a & Hmgr & Hreply & Hlocal & Ha & Hold).
  - reflexivity.
  - vm_compute. reflexivity.
  - vm_compute. reflexivity.
  - vm_compute in Hmgr. injection Hmgr as <-.
    vm_compute in Hreply. injection Hreply as <-.
    vm_compute in Hlocal. injection Hlocal as <-.
    exists a. split; [exact Ha|]. exact Hold.
Defined.

(** X20.  [DeleteVolume] panics exactly when the volume it reads is owned
    by a node without a communicator, and then it has changed neither the
    volumes nor the capacities. *)
Theorem DeleteVolume_panics_without_communicator ToLower c ctx req s :
  let r := DeleteVolume c ToLower ctx req s in
  (∀ p, r.1 = Panicked p →
        p = NilDereference ∧
        volumes r.2 = volumes s ∧ capacities r.2 = capacities s ∧
        ∃ v, volumes s !! (namespace c, del_VolumeId req) = Some v ∧
             communicators c !! vol_Owner (vol_Spec v) = None) ∧
  (∀ v, del_VolumeId req ≠ "" →
        (ReadCR c (T:=Volume) (del_VolumeId req) s).1 = inr v →
        communicators c !! vol_Owner (vol_Spec v) = None →
        r.1 = Panicked NilDereference).
Proof.
  cbn zeta. unfold DeleteVolume.
  destruct (decide (del_VolumeId req = "")) as [Hid|Hid].
  { split; [discriminate | intros; contradiction]. }
  cbn zeta. rewrite bind_run.
  pose proof (ReadCR_Volume_spec c (del_VolumeId req) s) as Hget.
  destruct (ReadCR c (del_VolumeId req) s) as [[err|v] s1]; simpl in Hget;
    cbn [fst snd]; destruct Hget as (Hv1 & Hc1 & _ & _ & Hres).
  { split; [|discriminate]. destruct (IsNotFound err); discriminate. }
  destruct (communicators c !! vol_Owner (vol_Spec v)) as [mgr|] eqn:Hmgr.
  - split.
    + rewrite bind_run. cbn [fst snd].
      destruct (invoke _ _) as [e|reply]; [discriminate|].
      destruct (dlv_Ok reply); cbn [negb]; [|discriminate].
      destruct (dlv_Volume reply) as [localVolume|]; [|discriminate].
      rewrite bind_run. destruct (DeleteCR v _) as [[e|] s3]; cbn [fst snd];
        [discriminate|].
      cbn zeta. rewrite bind_run. discriminate.
    + intros v' _ [= <-] Hnone. congruence.
  - split.
    + intros p [= <-]. rewrite ret_run. cbn [snd]. eauto 10.
    + intros v' _ [= <-] _. reflexivity.
Qed.

(** ** CreateCR *)

Lemma client_Get_AvailableCapacity_verdict key s :
  let r := client_Get (T:=AvailableCapacity) key s in
  match head (faults s) with
  | Some (Some msg) => r.1 = inl (ServerError msg)
  | _ => r.1 = match capacities s !! key with Some a => inr a | None => inl NotFound end
  end.
Proof.
  client_verdict s; repeat split; eauto.
Qed.

(** X21.  [CreateCR] never replaces what is stored: whatever its outcome,
    every capacity stored before is stored unchanged after, and no volume
    changes; and when a capacity of the name is already stored in the
    controller's namespace and the API server serves the read, [CreateCR]
    reports success, hands back the stored capacity and leaves the
    capacities as they are. *)
Theorem CreateCR_never_replaces c cr name s :
  let r := CreateCR c (T:=AvailableCapacity) cr name s in
  volumes r.2 = volumes s ∧
  (∀ k a, capacities s !! k = Some a → capacities r.2 !! k = Some a) ∧
  (∀ found,
      capacities s !! (namespace c, name) = Some found →
      head (faults s) = None ∨ head (faults s) = Some None →
      r.1 = (None, found) ∧ capacities r.2 = capacities s).
Proof.
  cbn zeta.
  destruct (CreateCR_AvailableCapacity_cases c cr name s) as (Hv & _ & Hcases).
  split; [exact Hv|]. split.
  - intros k a Ha.
    destruct Hcases as [(found & _ & _ & ->)|[(_ & Hfree & _ & ->)|(e & _ & ->)]];
      try exact Ha.
    rewrite lookup_insert_ne; [exact Ha|]. intros Heq. rewrite Heq in Hfree. congruence.
  - intros found Hfound Hserved.
    pose proof (client_Get_AvailableCapacity_verdict (namespace c, name) s) as Hget.
    cbn zeta in Hget. rewrite Hfound in Hget.
    assert (Hres : (client_Get (T:=AvailableCapacity) (namespace c, name) s).1
                   = inr found).
    { destruct Hserved as [H|H]; rewrite H in Hget; exact Hget. }
    destruct Hcases as [(found' & Hr & Hfound' & Hc)|[(_ & _ & Hnone & _)|(e & Hr & _)]].
    + split; [|exact Hc]. rewrite Hr. congruence.
    + congruence.
    + exfalso. revert Hr. unfold CreateCR. rewrite bind_run, Hres. discriminate.
Qed.

(** ** Initialisation of the capacities *)

#[global] Instance Adds_preorder ToLower : PreOrder (Adds ToLower).
Proof.
  split.
  - intros s. split; [|split; [|split]]; auto.
  - intros s1 s2 s3 (Hv1 & Hg1 & Hk1 & Hc1) (Hv2 & Hg2 & Hk2 & Hc2).
    split; [|split; [|split]]; [congruence | congruence | auto | auto].
Qed.

Lemma ReadCR_AvailableCapacity_spec c name s :
  let r := ReadCR c (T:=AvailableCapacity) name s in
  volumes r.2 = volumes s ∧ capacities r.2 = capacities s ∧
  goroutines r.2 = goroutines s ∧
  (∀ a, r.1 = inr a → capacities s !! (namespace c, name) = Some a).
Proof.
  client_cases s; (split; [|split; [|split]]); auto.
  all: intros ? Hr; unfold mbind, mret in Hr; cbn in Hr; congruence.
Qed.

(** One reported capacity: the store only grows, and when no error is
    recorded the capacity is stored under its name. *)
Lemma addCapacity_spec ToLower c ac wasError s :
  let r := addCapacity c ToLower ac wasError s in
  Adds ToLower s r.2 ∧
  (r.1 = false →
   wasError = false ∧ is_Some (capacities r.2 !! (namespace c, capacityName ToLower ac))).
Proof.
  cbn zeta. unfold addCapacity. fold (capacityName ToLower ac). cbn zeta. rewrite bind_run.
  destruct (ReadCR_AvailableCapacity_spec c (capacityName ToLower ac) s)
    as (Hv1 & Hc1 & Hg1 & Hfound).
  destruct (ReadCR c (capacityName ToLower ac) s) as [[err|found] s1]; cbn [fst snd] in *.
  2:{ rewrite ret_run. cbn [fst snd]. split.
      - split; [|split; [|split]]; try assumption; unfold capacitiesKeyed; rewrite ?Hc1; auto.
      - intros ->. split; [reflexivity|]. rewrite Hc1, (Hfound found eq_refl). eauto. }
  assert (Hs1 : Adds ToLower s s1).
  { split; [|split; [|split]]; try assumption; unfold capacitiesKeyed; rewrite ?Hc1; auto. }
  destruct (IsNotFound err); [|rewrite ret_run; cbn [fst snd]; split; [exact Hs1|discriminate]].
  rewrite bind_run.
  pose proof (CreateCR_AvailableCapacity_cases c
                (constructAvailableCapacityCR c (capacityName ToLower ac) ac)
                (capacityName ToLower ac) s1) as (Hv2 & Hg2 & Hcases).
  destruct (CreateCR c (constructAvailableCapacityCR c (capacityName ToLower ac) ac)
              (capacityName ToLower ac) s1) as [[e obj] s2]; cbn [fst snd] in *.
  assert (Hs2 : Adds ToLower s1 s2).
  { split; [exact Hv2|]. split; [exact Hg2|].
    unfold capacitiesKeyed.
    destruct Hcases as [(found & _ & _ & Hc)|[(_ & Hfree & _ & Hc)|(e' & _ & Hc)]];
      rewrite Hc; try (split; auto; fail).
    split.
    - intros k a Ha. rewrite lookup_insert_ne; [exact Ha|].
      intros Heq. rewrite Heq in Hfree. congruence.
    - intros Hk k a.
      destruct (decide (keyOf (constructAvailableCapacityCR c (capacityName ToLower ac) ac) = k))
        as [<-|Hne].
      + rewrite lookup_insert_eq. intros [= <-]. split; reflexivity.
      + rewrite lookup_insert_ne by exact Hne. apply Hk. }
  split.
  - destruct e; rewrite ret_run; cbn [snd]; etransitivity; eassumption.
  - destruct e as [e|]; rewrite ret_run; cbn [fst snd]; [discriminate|].
    intros ->. split; [reflexivity|].
    destruct Hcases as [(found & _ & Hfound' & Hc)|[(_ & _ & _ & Hc)|(e' & [=] & _)]];
      rewrite Hc.
    + rewrite Hfound'. eauto.
    + change (keyOf (constructAvailableCapacityCR c (capacityName ToLower ac) ac))
        with (namespace c, capacityName ToLower ac). rewrite lookup_insert_eq. eauto.
Qed.

Lemma Adds_keeps_stored ToLower s s' k :
  Adds ToLower s s' → is_Some (capacities s !! k) → is_Some (capacities s' !! k).
Proof. intros (_ & _ & Hk & _) [a Ha]. exists a. apply Hk. exact Ha. Qed.

Lemma addCapacities_spec ToLower c availableCapacity : ∀ wasError s,
  let r := addCapacities c ToLower availableCapacity wasError s in
  Adds ToLower s r.2 ∧
  (r.1 = false →
   wasError = false ∧
   ∀ ac, ac ∈ availableCapacity →
         is_Some (capacities r.2 !! (namespace c, capacityName ToLower ac))).
Proof.
  induction availableCapacity as [|ac rest IH]; intros wasError s; cbn.
  - split; [reflexivity|]. intros ->. split; [reflexivity|]. intros ac H. inversion H.
  - rewrite bind_run.
    destruct (addCapacity_spec ToLower c ac wasError s) as (Hs1 & Hres1).
    destruct (addCapacity c ToLower ac wasError s) as [w s1]; cbn [fst snd] in *.
    destruct (IH w s1) as (Hs2 & Hres2).
    split; [etransitivity; eassumption|].
    intros Hfalse. destruct (Hres2 Hfalse) as (-> & Hall).
    destruct (Hres1 eq_refl) as (-> & Hac). split; [reflexivity|].
    intros ac' Hin. apply elem_of_cons in Hin as [->|Hin]; [|auto].
    eapply Adds_keeps_stored; eassumption.
Qed.

Lemma updateNodes_spec ToLower c GetAvailableCapacity nodes : ∀ remaining wasError s,
  let r := updateNodes c ToLower GetAvailableCapacity nodes remaining wasError s in
  Adds ToLower s r.2 ∧
  (r.1 = false →
   wasError = false ∧
   ∀ nodeID mgr, (nodeID, mgr) ∈ nodes →
     ∃ response,
       answer (GetAvailableCapacity mgr {| acr_NodeId := nodeID |}) = inr response ∧
       ∀ ac, ac ∈ response →
             is_Some (capacities r.2 !! (namespace c, capacityName ToLower ac))).
Proof.
  induction nodes as [|[nodeID mgr] rest IH]; intros remaining wasError s; cbn.
  - split; [reflexivity|]. intros ->. split; [reflexivity|]. intros n m H. inversion H.
  - set (reply := GetAvailableCapacity mgr {| acr_NodeId := nodeID |}).
    assert (Hinvoke : ∀ response, invoke remaining reply = inr response →
                                  answer reply = inr response).
    { unfold invoke. destruct (_ <=? _)%nat; [discriminate | auto]. }
    destruct (invoke remaining reply) as [e|response].
    + rewrite bind_run.
      destruct (addCapacities_spec ToLower c [] true s) as (Hs1 & Hres1).
      destruct (addCapacities c ToLower [] true s) as [w s1]; cbn [fst snd] in *.
      destruct (IH (remaining - elapsed reply)%nat w s1) as (Hs2 & Hres2).
      split; [etransitivity; eassumption|].
      intros Hfalse. destruct (Hres2 Hfalse) as (-> & _).
      destruct (Hres1 eq_refl) as ([=] & _).
    + rewrite bind_run.
      destruct (addCapacities_spec ToLower c response wasError s) as (Hs1 & Hres1).
      destruct (addCapacities c ToLower response wasError s) as [w s1]; cbn [fst snd] in *.
      destruct (IH (remaining - elapsed reply)%nat w s1) as (Hs2 & Hres2).
      split; [etransitivity; eassumption|].
      intros Hfalse. destruct (Hres2 Hfalse) as (-> & Hrest).
      destruct (Hres1 eq_refl) as (-> & Hhere). split; [reflexivity|].
      intros n m Hin. apply elem_of_cons in Hin as [[= -> ->]|Hin]; [|auto].
      exists response. split; [apply Hinvoke; reflexivity|].
      intros ac Hac. eapply Adds_keeps_stored; [exact Hs2 | auto].
Qed.

Lemma updateAvailableCapacityCRs_only_adds_aux ToLower c GetAvailableCapacity communicatorsRange ctx s :
  let s' := (updateAvailableCapacityCRs c ToLower GetAvailableCapacity communicatorsRange ctx s).2 in
  volumes s' = volumes s ∧
  (∀ k a, capacities s !! k = Some a → capacities s' !! k = Some a) ∧
  (capacitiesKeyed ToLower s → capacitiesKeyed ToLower s').
Proof.
  cbn zeta. unfold updateAvailableCapacityCRs. rewrite bind_run.
  destruct (updateNodes_spec ToLower c GetAvailableCapacity
              (communicatorsRange (communicators c)) (deadline ctx) false s)
    as ((Hv & _ & Hk & Hkeyed) & _).
  destruct (updateNodes c ToLower GetAvailableCapacity _ _ _ s) as [w s1]; cbn [fst snd] in *.
  destruct w; rewrite ret_run; cbn [snd]; auto.
Qed.

(** X22.  [updateAvailableCapacityCRs] only adds capacities: whatever it
    returns, the volumes are untouched, every capacity stored before is
    stored unchanged after, and when the capacities were stored under
    their own names, named node, dash, lower-cased location, they still
    are. *)
Theorem updateAvailableCapacityCRs_only_adds ToLower c GetAvailableCapacity communicatorsRange ctx s :
  let s' := (updateAvailableCapacityCRs c ToLower GetAvailableCapacity communicatorsRange ctx s).2 in
  volumes s' = volumes s ∧
  (∀ k a, capacities s !! k = Some a → capacities s' !! k = Some a) ∧
  (capacitiesKeyed ToLower s → capacitiesKeyed ToLower s').
Proof. apply updateAvailableCapacityCRs_only_adds_aux. Qed.

Lemma updateAvailableCapacityCRs_stores_reported_aux ToLower
    c GetAvailableCapacity communicatorsRange ctx s nodeID mgr :
  (updateAvailableCapacityCRs c ToLower GetAvailableCapacity communicatorsRange ctx s).1 = None →
  (nodeID, mgr) ∈ communicatorsRange (communicators c) →
  ∃ response,
    answer (GetAvailableCapacity mgr {| acr_NodeId := nodeID |}) = inr response ∧
    ∀ ac, ac ∈ response →
      is_Some (capacities
                 (updateAvailableCapacityCRs c ToLower GetAvailableCapacity
                    communicatorsRange ctx s).2
               !! (namespace c, ac_NodeId ac +:+ "-" +:+ ToLower (ac_Location ac))).
Proof.
  unfold updateAvailableCapacityCRs. rewrite bind_run.
  destruct (updateNodes_spec ToLower c GetAvailableCapacity
              (communicatorsRange (communicators c)) (deadline ctx) false s)
    as (_ & Hres).
  destruct (updateNodes c ToLower GetAvailableCapacity _ _ _ s) as [w s1]; cbn [fst snd] in *.
  destruct w; rewrite ret_run; cbn [fst snd]; [discriminate|].
  intros _ Hin. destruct (Hres eq_refl) as (_ & Hall). exact (Hall nodeID mgr Hin).
Qed.

(** X23.  When [updateAvailableCapacityCRs] returns no error, every agent
    has answered and every capacity an agent reported is stored in the
    controller's namespace under its node, a dash and its lower-cased
    location. *)
Theorem updateAvailableCapacityCRs_stores_reported ToLower
    c GetAvailableCapacity communicatorsRange ctx s nodeID mgr :
  (updateAvailableCapacityCRs c ToLower GetAvailableCapacity communicatorsRange ctx s).1 = None →
  (nodeID, mgr) ∈ communicatorsRange (communicators c) →
  ∃ response,
    answer (GetAvailableCapacity mgr {| acr_NodeId := nodeID |}) = inr response ∧
    ∀ ac, ac ∈ response →
      is_Some (capacities
                 (updateAvailableCapacityCRs c ToLower GetAvailableCapacity
                    communicatorsRange ctx s).2
               !! (namespace c, ac_NodeId ac +:+ "-" +:+ ToLower (ac_Location ac))).
Proof. apply updateAvailableCapacityCRs_stores_reported_aux. Qed.

Example updateAvailableCapacityCRs_stores_reported_witness :
  capacitySizes
    (updateAvailableCapacityCRs controllerA lowerASCII inventoryA communicatorsOrder
       {| deadline := 240 |} emptyStore).2
  = capacitySizes twoDisks ∧
  ∃ response, answer (inventoryA agentA {| acr_NodeId := "node-a" |}) = inr response.
Proof.
  split; [vm_compute; reflexivity|].
  destruct (updateAvailableCapacityCRs_stores_reported lowerASCII controllerA inventoryA
              communicatorsOrder {| deadline := 240 |} emptyStore "node-a" agentA)
    as (response & Hresp & _).
  - vm_compute. reflexivity.
  - apply elem_of_map_to_list. reflexivity.
  - exists response. exact Hresp.
Defined.

Lemma updateNodes_time ToLower c GetAvailableCapacity nodes : ∀ remaining wasError s,
  (updateNodes c ToLower GetAvailableCapacity nodes remaining wasError s).1 = false →
  nodes = [] ∨ (reportingTime GetAvailableCapacity nodes < remaining)%nat.
Proof.
  induction nodes as [|[nodeID mgr] rest IH]; intros remaining wasError s; [left; reflexivity|].
  cbn. set (reply := GetAvailableCapacity mgr {| acr_NodeId := nodeID |}).
  unfold invoke. destruct (Nat.leb_spec remaining (elapsed reply)) as [Hlate|Hintime].
  - rewrite bind_run. intros Hfalse. exfalso.
    destruct (updateNodes_spec ToLower c GetAvailableCapacity rest
                (remaining - elapsed reply)%nat
                (addCapacities c ToLower [] true s).1 (addCapacities c ToLower [] true s).2)
      as (_ & Hres).
    destruct (Hres Hfalse) as (Hw & _). cbn in Hw. discriminate.
  - destruct (answer reply) as [e|response]; rewrite bind_run; intros Hfalse; right.
    + exfalso.
      destruct (updateNodes_spec ToLower c GetAvailableCapacity rest
                  (remaining - elapsed reply)%nat
                  (addCapacities c ToLower [] true s).1 (addCapacities c ToLower [] true s).2)
        as (_ & Hres).
      destruct (Hres Hfalse) as (Hw & _). cbn in Hw. discriminate.
    + unfold reportingTime. cbn [map sum_list fst snd]. fold reply.
      destruct (IH _ _ _ Hfalse) as [->|Hrest]; [cbn; lia|].
      unfold reportingTime in Hrest. lia.
Qed.

(** X24.  The agents share the one deadline of the context: when
    [updateAvailableCapacityCRs] returns no error, the seconds the agents
    took to report, added up over all communicators, stay below the
    deadline. *)
Theorem updateAvailableCapacityCRs_shared_deadline ToLower
    c GetAvailableCapacity communicatorsRange ctx s :
  (updateAvailableCapacityCRs c ToLower GetAvailableCapacity communicatorsRange ctx s).1 = None →
  communicatorsRange (communicators c) ≠ [] →
  (reportingTime GetAvailableCapacity (communicatorsRange (communicators c))
   < deadline ctx)%nat.
Proof.
  unfold updateAvailableCapacityCRs. rewrite bind_run.
  pose proof (updateNodes_time ToLower c GetAvailableCapacity
                (communicatorsRange (communicators c)) (deadline ctx) false s) as Htime.
  destruct (updateNodes c ToLower GetAvailableCapacity _ _ _ s) as [w s1]; cbn [fst snd] in *.
  destruct w; rewrite ret_run; cbn [fst]; [discriminate|].
  intros _ Hnodes. destruct (Htime eq_refl) as [Hnil|Hlt]; [contradiction|exact Hlt].
Qed.

Example updateAvailableCapacityCRs_shared_deadline_witness :
  (reportingTime inventoryA (communicatorsOrder (communicators controllerA)) < 240)%nat.
Proof.
  apply (updateAvailableCapacityCRs_shared_deadline lowerASCII controllerA inventoryA
           communicatorsOrder {| deadline := 240 |} emptyStore).
  - vm_compute. reflexivity.
  - vm_compute. discriminate.
Defined.

(** ** The pods and the communicators *)

Lemma prefix_spec p : ∀ s, String.prefix p s = true ↔ ∃ post, s = p +:+ post.
Proof.
  induction p as [|a p IH]; intros s.
  - destruct s; cbn; split; eauto.
  - destruct s as [|b s]; cbn.
    + split; [discriminate|]. intros [post [=]].
    + destruct (Ascii.ascii_dec a b) as [->|Hne].
      * rewrite IH. split; intros [post Hpost]; exists post.
        -- rewrite Hpost. reflexivity.
        -- change (String b p +:+ post) with (String b (p +:+ post)) in Hpost.
           congruence.
      * split; [discriminate|]. intros [post Hpost].
        change (String a p +:+ post) with (String a (p +:+ post)) in Hpost.
        congruence.
Qed.

Lemma Contains_unfold s substr :
  Contains s substr
  = if String.prefix substr s then true
    else match s with
         | EmptyString => false
         | String _ rest => Contains rest substr
         end.
Proof. destruct s; reflexivity. Qed.

Lemma Contains_spec substr : ∀ s,
  Contains s substr = true ↔ ∃ pre post, s = pre +:+ substr +:+ post.
Proof.
  induction s as [|a s IH]; rewrite Contains_unfold.
  - destruct (String.prefix substr "") eqn:Hp.
    + split; [|reflexivity]. intros _. apply prefix_spec in Hp as [post ->].
      exists "", post. reflexivity.
    + split; [discriminate|]. intros ([|b pre] & post & Heq); [|discriminate].
      assert (String.prefix substr "" = true) by (apply prefix_spec; eauto).
      congruence.
  - destruct (String.prefix substr (String a s)) eqn:Hp.
    + split; [|reflexivity]. intros _. apply prefix_spec in Hp as [post ->].
      exists "", post. reflexivity.
    + rewrite IH. split.
      * intros (pre & post & ->). exists (String a pre), post. reflexivity.
      * intros ([|b pre] & post & Heq).
        -- assert (String.prefix substr (String a s) = true)
             by (apply prefix_spec; eauto).
           congruence.
        -- injection Heq as -> ->. eauto.
Qed.

Lemma getPods_spec c clusterPods mask s pods :
  (getPods c clusterPods mask s).1 = inr pods →
  (∀ pod, pod ∈ pods ↔
          pod ∈ clusterPods ∧ pod_Namespace pod = namespace c ∧ named mask pod) ∧
  pods `sublist_of` clusterPods ∧
  volumes (getPods c clusterPods mask s).2 = volumes s ∧
  capacities (getPods c clusterPods mask s).2 = capacities s.
Proof.
  unfold getPods, nextFault, logCall. rewrite bind_run.
  destruct (faults s) as [|[msg|] rest]; cbn; try discriminate; intros [= <-].
  all: split; [|split; [|split; reflexivity]].
  all: try (etransitivity; apply sublist_filter).
  all: intros pod; rewrite !list_elem_of_filter, Contains_spec; unfold named; tauto.
Qed.

(** X25.  [getPods] gives exactly the pods of the controller's namespace
    whose name has the mask somewhere inside, in the order of the API
    server's list; it touches neither the volumes nor the capacities. *)
Theorem getPods_selects c clusterPods mask s pods :
  (getPods c clusterPods mask s).1 = inr pods →
  (∀ pod, pod ∈ pods ↔
          pod ∈ clusterPods ∧ pod_Namespace pod = namespace c ∧ named mask pod) ∧
  pods `sublist_of` clusterPods ∧
  volumes (getPods c clusterPods mask s).2 = volumes s ∧
  capacities (getPods c clusterPods mask s).2 = capacities s.
Proof. apply getPods_spec. Qed.

Example getPods_selects_witness :
  ∃ pod, head podsA = Some pod ∧
         pod_Namespace pod = "default" ∧ named NodeSvcPodsMask pod.
Proof.
  eexists. split; [reflexivity|].
  refine (proj2 (proj1 (proj1 (getPods_selects controllerA podsA NodeSvcPodsMask
                                 emptyStore (take 1 podsA) _) _) _)).
  - vm_compute. reflexivity.
  - apply list_elem_of_singleton. reflexivity.
Defined.

Lemma addCommunicators_lookup NewClient port pods : ∀ m node client,
  addCommunicators NewClient port pods m !! node = Some client →
  m !! node = Some client ∨
  ∃ pod, pod ∈ pods ∧ pod_NodeName pod = node ∧
         NewClient (endpointOf port pod) = inr client.
Proof.
  induction pods as [|pod rest IH]; intros m node client; cbn; [auto|].
  intros Hlookup. apply IH in Hlookup as [Hm|(pod' & Hin & Hnode & Hdial)].
  - fold (endpointOf port pod) in Hm.
    destruct (NewClient (endpointOf port pod)) as [e|dialled] eqn:Hdial; [auto|].
    destruct (decide (pod_NodeName pod = node)) as [Heq|Hne].
    + rewrite <- Heq, lookup_insert_eq in Hm. injection Hm as ->.
      right. exists pod. split; [left|]. auto.
    + rewrite lookup_insert_ne in Hm by exact Hne. auto.
  - right. exists pod'. split; [right; exact Hin|]. auto.
Qed.

Lemma addCommunicators_keeps NewClient port pods : ∀ m node,
  is_Some (m !! node) → is_Some (addCommunicators NewClient port pods m !! node).
Proof.
  induction pods as [|pod rest IH]; intros m node Hm; cbn; [exact Hm|].
  apply IH. destruct (NewClient _) as [e|dialled]; [exact Hm|].
  destruct (decide (pod_NodeName pod = node)) as [<-|Hne].
  - rewrite lookup_insert_eq. eauto.
  - rewrite lookup_insert_ne by exact Hne. exact Hm.
Qed.

Lemma addCommunicators_registers NewClient port pods : ∀ m pod client,
  pod ∈ pods → NewClient (endpointOf port pod) = inr client →
  is_Some (addCommunicators NewClient port pods m !! pod_NodeName pod).
Proof.
  induction pods as [|first rest IH]; intros m pod client Hin Hdial; [inversion Hin|].
  apply elem_of_cons in Hin as [<-|Hin]; [|cbn; eapply IH; eassumption].
  cbn. apply addCommunicators_keeps. fold (endpointOf port pod). rewrite Hdial.
  rewrite lookup_insert_eq. eauto.
Qed.

(** What [updateCommunicators] gives when it reports no error. *)
Lemma updateCommunicators_success c clusterPods NewClient port s c' :
  (updateCommunicators c clusterPods NewClient port s).1 = (None, c') →
  namespace c' = namespace c ∧
  communicators c' ≠ ∅ ∧
  (∀ node, is_Some (communicators c !! node) → is_Some (communicators c' !! node)) ∧
  (∀ pod client,
      pod ∈ clusterPods → agentPod c pod →
      NewClient (endpointOf port pod) = inr client →
      is_Some (communicators c' !! pod_NodeName pod)) ∧
  (∀ node client,
      communicators c' !! node = Some client →
      communicators c !! node = Some client ∨
      ∃ pod, pod ∈ clusterPods ∧ agentPod c pod ∧ pod_NodeName pod = node ∧
             NewClient (endpointOf port pod) = inr client).
Proof.
  unfold updateCommunicators. rewrite bind_run.
  pose proof (getPods_spec c clusterPods NodeSvcPodsMask s) as Hpods.
  destruct (getPods c clusterPods NodeSvcPodsMask s) as [[err|pods] s1];
    cbn [fst snd] in *; [rewrite ret_run; discriminate|].
  destruct (Hpods pods eq_refl) as (Hsel & _).
  destruct (decide _) as [Hempty|Hsome]; rewrite ret_run; cbn [fst]; [discriminate|].
  intros [= <-]. cbn [namespace communicators].
  split; [reflexivity|]. split; [apply map_size_non_empty_iff; exact Hsome|].
  split; [intros node; apply addCommunicators_keeps|]. split.
  - intros pod client Hin (Hns & Hname) Hdial.
    eapply addCommunicators_registers; [|exact Hdial]. apply Hsel. auto.
  - intros node client Hlookup.
    apply addCommunicators_lookup in Hlookup as [Hold|(pod & Hin & Hnode & Hdial)];
      [left; exact Hold|].
    right. exists pod. apply Hsel in Hin as (Hin & Hns & Hname).
    unfold agentPod. auto.
Qed.

(** X26.  When [updateCommunicators] reports no error the controller has
    at least one communicator; the communicators it had are still
    registered; every pod of the node service in its namespace whose
    endpoint, [tcp://] the pod's address [:] the port, could be dialled has
    its node registered; and a communicator that was not there before is
    the client dialled at the endpoint of such a pod on that node. *)
Theorem updateCommunicators_registers_agents c clusterPods NewClient port s c' :
  (updateCommunicators c clusterPods NewClient port s).1 = (None, c') →
  namespace c' = namespace c ∧
  communicators c' ≠ ∅ ∧
  (∀ node, is_Some (communicators c !! node) → is_Some (communicators c' !! node)) ∧
  (∀ pod client,
      pod ∈ clusterPods → agentPod c pod →
      NewClient (endpointOf port pod) = inr client →
      is_Some (communicators c' !! pod_NodeName pod)) ∧
  (∀ node client,
      communicators c' !! node = Some client →
      communicators c !! node = Some client ∨
      ∃ pod, pod ∈ clusterPods ∧ agentPod c pod ∧ pod_NodeName pod = node ∧
             NewClient (endpointOf port pod) = inr client).
Proof. apply updateCommunicators_success. Qed.

Example updateCommunicators_registers_agents_witness :
  map_to_list (communicators
                 (updateCommunicators (NewControllerService "default") podsA dialA
                    "9999" emptyStore).1.2)
  = [("node-a", agentA)] ∧
  ∃ c', namespace c' = "default" ∧ communicators c' ≠ ∅.
Proof.
  split; [vm_compute; reflexivity|].
  eexists. 
  refine (let H := updateCommunicators_registers_agents (NewControllerService "default")
                     podsA dialA "9999" emptyStore _ _ in
          conj (proj1 H) (proj1 (proj2 H))).
  vm_compute. reflexivity.
Defined.

(** Looking for the agents leaves the store alone. *)
Lemma getPods_store c clusterPods mask s :
  volumes (getPods c clusterPods mask s).2 = volumes s ∧
  capacities (getPods c clusterPods mask s).2 = capacities s ∧
  goroutines (getPods c clusterPods mask s).2 = goroutines s.
Proof.
  unfold getPods, nextFault, logCall. rewrite bind_run.
  destruct (faults s) as [|[msg|] rest]; cbn; auto.
Qed.

Lemma updateCommunicators_store c clusterPods NewClient port s :
  volumes (updateCommunicators c clusterPods NewClient port s).2 = volumes s ∧
  capacities (updateCommunicators c clusterPods NewClient port s).2 = capacities s ∧
  goroutines (updateCommunicators c clusterPods NewClient port s).2 = goroutines s.
Proof.
  unfold updateCommunicators. rewrite bind_run.
  pose proof (getPods_store c clusterPods NodeSvcPodsMask s) as Hstore.
  destruct (getPods c clusterPods NodeSvcPodsMask s) as [[err|pods] s1];
    cbn [fst snd] in *; [|destruct (decide _)]; rewrite ret_run; exact Hstore.
Qed.

(** X27.  When [InitController] returns no error, the controller has at
    least one communicator, every agent it has a communicator for has
    answered, and every capacity an agent reported is stored in the
    controller's namespace under its node, a dash and its lower-cased
    location. *)
Theorem InitController_success ToLower
    c GetAvailableCapacity communicatorsRange clusterPods NewClient port s c' :
  (InitController c ToLower GetAvailableCapacity communicatorsRange clusterPods NewClient port s).1
  = (None, c') →
  communicators c' ≠ ∅ ∧
  ∀ nodeID mgr,
    (nodeID, mgr) ∈ communicatorsRange (communicators c') →
    ∃ response,
      answer (GetAvailableCapacity mgr {| acr_NodeId := nodeID |}) = inr response ∧
      ∀ ac, ac ∈ response →
        is_Some (capacities
                   (InitController c ToLower GetAvailableCapacity communicatorsRange
                      clusterPods NewClient port s).2
                 !! (namespace c, ac_NodeId ac +:+ "-" +:+ ToLower (ac_Location ac))).
Proof.
  unfold InitController. rewrite bind_run.
  pose proof (updateCommunicators_success c clusterPods NewClient port s) as Hcomm.
  destruct (updateCommunicators c clusterPods NewClient port s) as [[e c1] s1];
    cbn [fst snd] in *.
  destruct e as [err|]; [rewrite ret_run; discriminate|].
  destruct (Hcomm c1 eq_refl) as (Hns & Hnonempty & _).
  rewrite bind_run.
  pose proof (updateAvailableCapacityCRs_stores_reported_aux ToLower c1 GetAvailableCapacity
                communicatorsRange {| deadline := 240 |} s1) as Hcaps.
  destruct (updateAvailableCapacityCRs c1 ToLower GetAvailableCapacity communicatorsRange
              {| deadline := 240 |} s1) as [e s2]; cbn [fst snd] in *.
  destruct e as [err|]; rewrite ret_run; cbn [fst snd]; [discriminate|].
  intros [= <-]. split; [exact Hnonempty|].
  intros nodeID mgr Hin. rewrite <- Hns. exact (Hcaps nodeID mgr eq_refl Hin).
Qed.

Example InitController_success_witness :
  capacitySizes
    (InitController (NewControllerService "default") lowerASCII inventoryA communicatorsOrder
       podsA dialA "9999" emptyStore).2
  = capacitySizes twoDisks ∧
  ∃ c', communicators c' ≠ ∅.
Proof.
  split; [vm_compute; reflexivity|].
  eexists.
  refine (proj1 (InitController_success lowerASCII (NewControllerService "default") inventoryA
                   communicatorsOrder podsA dialA "9999" emptyStore _ _)).
  vm_compute. reflexivity.
Defined.

(** X28.  [InitController] only adds capacities: whatever it returns, the
    volumes are untouched and every capacity stored before is stored
    unchanged after; and when the communicators cannot be initialised it
    returns an error and the capacities are exactly as they were. *)
Theorem InitController_only_adds ToLower
    c GetAvailableCapacity communicatorsRange clusterPods NewClient port s :
  let r := InitController c ToLower GetAvailableCapacity communicatorsRange clusterPods
             NewClient port s in
  volumes r.2 = volumes s ∧
  (∀ k a, capacities s !! k = Some a → capacities r.2 !! k = Some a) ∧
  ((updateCommunicators c clusterPods NewClient port s).1.1 ≠ None →
   r.1.1 ≠ None ∧ capacities r.2 = capacities s).
Proof.
  cbn zeta. unfold InitController. rewrite bind_run.
  destruct (updateCommunicators_store c clusterPods NewClient port s) as (Hv1 & Hc1 & _).
  destruct (updateCommunicators c clusterPods NewClient port s) as [[e c1] s1];
    cbn [fst snd] in *.
  destruct e as [err|].
  - rewrite ret_run. cbn [fst snd]. rewrite Hv1, Hc1. split; [reflexivity|].
    split; [auto|]. intros _. split; [discriminate|reflexivity].
  - rewrite bind_run.
    destruct (updateAvailableCapacityCRs_only_adds_aux ToLower c1 GetAvailableCapacity
                communicatorsRange {| deadline := 240 |} s1) as (Hv2 & Hk2 & _).
    destruct (updateAvailableCapacityCRs c1 ToLower GetAvailableCapacity communicatorsRange
                {| deadline := 240 |} s1) as [e s2]; cbn [fst snd] in *.
    assert (Hstore : volumes s2 = volumes s ∧
                     ∀ k a, capacities s !! k = Some a → capacities s2 !! k = Some a).
    { split; [congruence|]. intros k a Ha. apply Hk2. rewrite Hc1. exact Ha. }
    destruct e as [err|]; rewrite ret_run; cbn [fst snd];
      (split; [apply Hstore|]; split; [apply Hstore|]); intros Hfail; congruence.
Qed.

(** ** The background task of a reservation (C4) *)

#[global] Instance Tracks_preorder mgr req ac : PreOrder (Tracks mgr req ac).
Proof.
  split.
  - intros s H. exact H.
  - intros s1 s2 s3 H1 H2 H. apply H2, H1, H.
Qed.



















